(* ===================================================================== *)
(*  Exit Vector: maze generator (js/maze.js) and controls (js/controls.js) *)
(*                                                                         *)
(*  Shallow embedding of SeededRandom, MazeGenerator and ControlsManager,  *)
(*  followed by the properties of the specification.                       *)
(* ===================================================================== *)

From Stdlib Require Import ZArith Zquot List Bool Lia String.
From Stdlib Require Import Permutation FinFun Sorted.
From Stdlib Require Import QArith Qabs Qminmax Qround Lqa.
From Stdlib Require Import PrimFloat Uint63 FloatOps SpecFloat.
Import ListNotations.

(* A decimal literal denotes the nearest binary64 value, as it does in a
   JavaScript source text. *)
Set Warnings "-inexact-float".

(* ===================================================================== *)
(*  PART I.  DEFINITIONS                                                   *)
(* ===================================================================== *)

(* --------------------------------------------------------------------- *)
(*  JavaScript numbers.                                                    *)
(*                                                                         *)
(*  A JS number is an IEEE-754 binary64 value; Rocq's primitive floats are *)
(*  the same format with the same correctly rounded +, -, *, /.  The       *)
(*  generator below depends on that rounding and on the ToInt32 wrap of    *)
(*  the bitwise operators, so it is modelled on [float] directly.          *)
(* --------------------------------------------------------------------- *)

Module JsNum.

(* The number with integer value [z]; exact whenever |z| < 2^53. *)
Definition ofZ (z : Z) : float :=
  if (z <? 0)%Z then (- of_uint63 (Uint63.of_Z (- z)))%float
  else of_uint63 (Uint63.of_Z z).

(* ToInt32: NaN, infinities and zeros give 0; otherwise truncate toward
   zero, reduce modulo 2^32 and read the result as a signed 32-bit value. *)
Definition toInt32 (f : float) : Z :=
  match Prim2SF f with
  | S754_finite s m e =>
      let mag := if (0 <=? e)%Z then (Zpos m * 2 ^ e)%Z
                 else (Zpos m / 2 ^ (- e))%Z in
      let n := if s then (- mag)%Z else mag in
      let r := (n mod 2 ^ 32)%Z in
      if (2 ^ 31 <=? r)%Z then (r - 2 ^ 32)%Z else r
  | _ => 0%Z
  end.

(* a & b *)
Definition bitAnd (a b : float) : float :=
  ofZ (Z.land (toInt32 a) (toInt32 b)).

(* Math.floor: the largest integer not above [f]; NaN, infinities, zeros
   and numbers that are already integers are returned as they are. *)
Definition floor (f : float) : float :=
  match Prim2SF f with
  | S754_finite s m e =>
      if (0 <=? e)%Z then f
      else
        let q := (Zpos m / 2 ^ (- e))%Z in
        let r := (Zpos m mod 2 ^ (- e))%Z in
        if s then ofZ (- (if (r =? 0)%Z then q else q + 1))%Z
        else ofZ q
  | _ => f
  end.

(* The array index a number denotes when used as a property key: an
   integer in [0, 2^32 - 2].  Every other number (negative, fractional,
   NaN, infinite, too large) names an ordinary property instead. *)
Definition arrayIndex (f : float) : option nat :=
  match Prim2SF f with
  | S754_zero _ => Some 0%nat
  | S754_finite false m e =>
      if (0 <=? e)%Z then
        let z := (Zpos m * 2 ^ e)%Z in
        if (z <? 2 ^ 32 - 1)%Z then Some (Z.to_nat z) else None
      else
        let z := (Zpos m / 2 ^ (- e))%Z in
        if ((Zpos m mod 2 ^ (- e) =? 0) && (z <? 2 ^ 32 - 1))%Z
        then Some (Z.to_nat z) else None
  | _ => None
  end.

(* Two numbers name the same property (NaN names the property "NaN"). *)
Definition sameKey (a b : float) : bool :=
  PrimFloat.eqb a b || (is_nan a && is_nan b).

End JsNum.

(* --------------------------------------------------------------------- *)
(*  Results of running a method.                                           *)
(* --------------------------------------------------------------------- *)

Module Outcome.

(* [Done a]: the method returns [a].  [Throw]: it raises a TypeError (a
   property read or written on undefined).  [OutOfFuel]: the recursion
   budget of the model is spent.  [Unmodelled]: a grid row is written at a
   column outside its bounds, where the engine would grow the row; the
   model does not follow the program there. *)
Inductive t (A : Type) : Type :=
| Done (a : A)
| Throw
| OutOfFuel
| Unmodelled.

Arguments Done {A} a.
Arguments Throw {A}.
Arguments OutOfFuel {A}.
Arguments Unmodelled {A}.

Definition bind {A B : Type} (m : t A) (k : A -> t B) : t B :=
  match m with
  | Done a => k a
  | Throw => Throw
  | OutOfFuel => OutOfFuel
  | Unmodelled => Unmodelled
  end.

End Outcome.

Notation "x <- m ;; k" := (Outcome.bind m (fun x => k))
  (at level 61, m at next level, right associativity).

(* --------------------------------------------------------------------- *)
(*  Arrays with holes and stray properties, as shuffle() can make them.    *)
(* --------------------------------------------------------------------- *)

Module JsArray.

(* l[n] := v on a list, for n < length l. *)
Fixpoint listSet {A : Type} (n : nat) (v : A) (l : list A) : list A :=
  match l, n with
  | [], _ => []
  | _ :: tl, O => v :: tl
  | hd :: tl, S k => hd :: listSet k v tl
  end.

Section Elements.
Context {A : Type}.

(* [items]: the indexed elements, [None] for undefined or a hole.
   [props]: values stored under names that are not array indices, the
   most recent first. *)
Record t : Type := mk {
  items : list (option A);
  props : list (float * option A)
}.

(* [...array] *)
Definition ofList (l : list A) : t := mk (map Some l) [].

Definition getAt (n : nat) (a : t) : option A :=
  match nth_error (items a) n with
  | Some v => v
  | None => None
  end.

Definition setAt (n : nat) (v : option A) (a : t) : t :=
  if (n <? List.length (items a))%nat
  then mk (listSet n v (items a)) (props a)
  else mk (items a ++ repeat None (n - List.length (items a)) ++ [v]) (props a).

Definition getProp (k : float) (a : t) : option A :=
  match find (fun kv => JsNum.sameKey (fst kv) k) (props a) with
  | Some kv => snd kv
  | None => None
  end.

(* a[k] *)
Definition get (k : float) (a : t) : option A :=
  match JsNum.arrayIndex k with
  | Some n => getAt n a
  | None => getProp k a
  end.

(* a[k] = v *)
Definition set (k : float) (v : option A) (a : t) : t :=
  match JsNum.arrayIndex k with
  | Some n => setAt n v a
  | None => mk (items a) ((k, v) :: props a)
  end.

End Elements.

Arguments t A : clear implicits.

(* --- Notions used to reason about shuffle() --------------------------- *)

(* An element of the input list, or undefined. *)
Definition fromInput {A : Type} (l : list A) (o : option A) : Prop :=
  o = None \/ exists a, In a l /\ o = Some a.

(* Everything stored in the array comes from [l]. *)
Definition elementsFrom {A : Type} (l : list A) (arr : t A) : Prop :=
  (forall o, In o (items arr) -> fromInput l o) /\
  (forall kv, In kv (props arr) -> fromInput l (snd kv)).

(* No stray property, and every element of [l] is among the items. *)
Definition covers {A : Type} (l : list A) (arr : t A) : Prop :=
  props arr = [] /\ forall a, In a l -> In (Some a) (items arr).

(* An undefined item at an index above [i]. *)
Definition holeAbove {A : Type} (i : nat) (arr : t A) : Prop :=
  exists p, (i < p)%nat /\ nth_error (items arr) p = Some None.

End JsArray.

(* --------------------------------------------------------------------- *)
(*  class SeededRandom  (maze.js, lines 44-85)                             *)
(* --------------------------------------------------------------------- *)

Module SeededRandom.

Record t := mk { seed : float }.

(* next() {
     this.seed = (this.seed * 1103515245 + 12345) & 0x7fffffff;
     return this.seed / 0x7fffffff;
   }
   0x7fffffff = 2147483647.  The result pairs the returned number with
   the generator after the call. *)
Definition next (r : t) : float * t :=
  let s := JsNum.bitAnd (seed r * 1103515245 + 12345)%float 2147483647%float in
  ((s / 2147483647)%float, mk s).

(* nextInt(min, max) { return Math.floor(this.next() * (max - min)) + min; } *)
Definition nextInt (min max : float) (r : t) : float * t :=
  let (x, r') := next r in
  ((JsNum.floor (x * (max - min)) + min)%float, r').

(* shuffle(array) {
     const result = [...array];
     for (let i = result.length - 1; i > 0; i--) {
       const j = this.nextInt(0, i + 1);
       [result[i], result[j]] = [result[j], result[i]];
     }
     return result;
   }
   [shuffleFrom i] runs the loop from index [i] down to 1. *)
Fixpoint shuffleFrom {A : Type} (i : nat) (result : JsArray.t A) (r : t)
  : JsArray.t A * t :=
  match i with
  | O => (result, r)
  | S i' =>
      let (j, r1) := nextInt 0 (JsNum.ofZ (Z.of_nat i + 1)) r in
      let rj := JsArray.get j result in
      let ri := JsArray.getAt i result in
      let result := JsArray.setAt i rj result in
      let result := JsArray.set j ri result in
      shuffleFrom i' result r1
  end.

Definition shuffle {A : Type} (array : list A) (r : t) : JsArray.t A * t :=
  shuffleFrom (List.length array - 1) (JsArray.ofList array) r.

(* [n] successive calls of next(): the numbers returned, in order, and
   the generator left behind. *)
Fixpoint nextN (n : nat) (r : t) : list float * t :=
  match n with
  | O => ([], r)
  | S k => let (x, r1) := next r in
           let (xs, r2) := nextN k r1 in
           (x :: xs, r2)
  end.

(* A run of the generator as a trace relation: [run r xs r'] holds when
   calling next() [length xs] times on [r] returns [xs] and leaves [r']. *)
Inductive run : t -> list float -> t -> Prop :=
| run_nil : forall r, run r [] r
| run_cons : forall r x r1 xs r2,
    next r = (x, r1) -> run r1 xs r2 -> run r (x :: xs) r2.

(* The recurrence the generator is meant to implement, on integers. *)
Definition lcg (s : Z) : Z := ((s * 1103515245 + 12345) mod 2 ^ 31)%Z.

End SeededRandom.

(* --------------------------------------------------------------------- *)
(*  class MazeGenerator  (maze.js, lines 91-443)                           *)
(*                                                                         *)
(*  Grid coordinates, the level and cell counts are integers.  Pixel       *)
(*  quantities (canvas size, zone widths, the points given to isWall) and  *)
(*  the exit fractions 0.1 ... 0.9 are exact rationals; the random draws   *)
(*  go through SeededRandom on binary64 numbers.                           *)
(* --------------------------------------------------------------------- *)

Module MazeGenerator.
Import Outcome.
Local Open Scope Z_scope.

(* CELL_TYPES = { WALL: 0, PATH: 1, ENTRY: 2, EXIT: 3 } *)
Inductive CellType : Set := WALL | PATH | ENTRY | EXIT.

Definition cell_eqb (a b : CellType) : bool :=
  match a, b with
  | WALL, WALL | PATH, PATH | ENTRY, ENTRY | EXIT, EXIT => true
  | _, _ => false
  end.

Record Direction : Set := mkDir { dx : Z; dy : Z; name : string }.

Definition DIRECTIONS : list Direction :=
  [ mkDir 0 (-1) "up"; mkDir 1 0 "right"; mkDir 0 1 "down"; mkDir (-1) 0 "left" ].

(* this.grid: an array of rows, each an array of cells; grid[y][x]. *)
Definition Grid : Type := list (list CellType).

Definition rowAt (g : Grid) (y : Z) : option (list CellType) :=
  if y <? 0 then None else nth_error g (Z.to_nat y).

Definition cellAt (g : Grid) (x y : Z) : option CellType :=
  match rowAt g y with
  | Some r => if x <? 0 then None else nth_error r (Z.to_nat x)
  | None => None
  end.

(* this.grid[y][x] = v.  Without a row y this is a TypeError. *)
Definition setCell (g : Grid) (x y : Z) (v : CellType) : Outcome.t Grid :=
  match rowAt g y with
  | None => Throw
  | Some r =>
      if (0 <=? x) && (x <? Z.of_nat (List.length r))
      then Done (JsArray.listSet (Z.to_nat y) (JsArray.listSet (Z.to_nat x) v r) g)
      else Unmodelled
  end.

(* this.grid[y][x] === v.  Without a row y this is a TypeError; a column
   the row does not have reads as undefined, which equals no cell type. *)
Definition cellIs (g : Grid) (x y : Z) (v : CellType) : Outcome.t bool :=
  match rowAt g y with
  | None => Throw
  | Some r =>
      Done (match (if x <? 0 then None else nth_error r (Z.to_nat x)) with
            | Some c => cell_eqb c v
            | None => false
            end)
  end.

(* The part of [this] that _carve reads and writes: the grid and the
   generator. *)
Definition CarveState : Type := (Grid * SeededRandom.t)%type.

(* The loop of _carve over the shuffled directions (lines 223-239);
   [rec] is the recursive call.  An undefined element makes dir.dx a
   TypeError. *)
Fixpoint carveDirs (rec : Z -> Z -> CarveState -> Outcome.t CarveState)
    (cols rows x y : Z) (directions : list (option Direction))
    (st : CarveState) : Outcome.t CarveState :=
  match directions with
  | [] => Done st
  | None :: _ => Throw
  | Some dir :: rest =>
      let nx := x + dx dir * 2 in
      let ny := y + dy dir * 2 in
      unvisited <-
        (if (0 <? nx) && (nx <? cols - 1) && (0 <? ny) && (ny <? rows - 1)
         then cellIs (fst st) nx ny WALL
         else Done false) ;;
      st1 <-
        (if unvisited : bool
         then g1 <- setCell (fst st) (x + dx dir) (y + dy dir) PATH ;;
              rec nx ny (g1, snd st)
         else Done st) ;;
      carveDirs rec cols rows x y rest st1
  end.

(* _carve(x, y), lines 216-240; [fuel] bounds the depth of the recursion. *)
Fixpoint carve (fuel : nat) (cols rows x y : Z) (st : CarveState)
  : Outcome.t CarveState :=
  match fuel with
  | O => OutOfFuel
  | S f =>
      g1 <- setCell (fst st) x y PATH ;;
      let (directions, r1) := SeededRandom.shuffle DIRECTIONS (snd st) in
      carveDirs (carve f cols rows) cols rows x y
                (JsArray.items directions) (g1, r1)
  end.

(* The grid of all walls built at the start of _generateMaze. *)
Definition allWalls (cols rows : Z) : Grid :=
  repeat (repeat WALL (Z.to_nat cols)) (Z.to_nat rows).

Definition actualStartX (cols : Z) : Z :=
  let startX := cols / 2 in
  if Z.rem startX 2 =? 0 then startX + 1 else startX.

(* The recursion budget given to _carve: one call per cell of the grid. *)
Definition carveFuel (cols rows : Z) : nat := Z.to_nat (cols * rows).

(* _generateMaze(), lines 188-208. *)
Definition generateMaze (cols rows : Z) (r : SeededRandom.t)
  : Outcome.t CarveState :=
  carve (carveFuel cols rows) cols rows (actualStartX cols) 1
        (allWalls cols rows, r).

(* exitPositions = [0.1, 0.3, 0.5, 0.7, 0.9] *)
Definition exitPositions : list Q := [1 # 10; 3 # 10; 5 # 10; 7 # 10; 9 # 10]%Q.

(* Math.floor(pos * this.cols) computed on binary64 numbers gives the
   column that the exact product gives. *)
Definition targetColumnsAgree (cols : Z) : bool :=
  forallb (fun pq : float * Q =>
             match JsNum.arrayIndex (JsNum.floor (fst pq * JsNum.ofZ cols)%float) with
             | Some n => Z.of_nat n =? Qfloor (snd pq * inject_Z cols)
             | None => false
             end)
          (combine [0.1; 0.3; 0.5; 0.7; 0.9]%float exitPositions).

(* The columns x = 1 .. cols - 2 of the scan loop (line 265). *)
Definition scanColumns (cols : Z) : list Z :=
  map Z.of_nat (seq 1 (Z.to_nat (cols - 2))).

(* One pass of the scan (lines 265-273); minDist = Infinity is [None]. *)
Fixpoint nearestPath (g : Grid) (rows targetCol : Z) (xs : list Z)
    (best : Z * option Z) : Outcome.t (Z * option Z) :=
  match xs with
  | [] => Done best
  | x :: rest =>
      isPath <- cellIs g x (rows - 2) PATH ;;
      let best1 :=
        if isPath : bool then
          let dist := Z.abs (x - targetCol) in
          if (match snd best with None => true | Some m => dist <? m end)
          then (x, Some dist) else best
        else best in
      nearestPath g rows targetCol rest best1
  end.

(* The loop over exitPositions (lines 258-278). *)
Fixpoint placeExits (cols rows : Z) (positions : list Q)
    (st : Grid * list Z) : Outcome.t (Grid * list Z) :=
  match positions with
  | [] => Done st
  | pos :: rest =>
      let targetCol := Qfloor (pos * inject_Z cols) in
      best <- nearestPath (fst st) rows targetCol (scanColumns cols)
                          (targetCol, None) ;;
      g1 <- setCell (fst st) (fst best) (rows - 1) EXIT ;;
      placeExits cols rows rest (g1, snd st ++ [fst best])
  end.

(* for (let y = this.rows - 2; y >= 0; y--) {
     if (this.grid[y][col] === PATH) break;
     this.grid[y][col] = PATH;
   }
   [n] is the number of rows still to visit: y = n - 1. *)
Fixpoint carveUp (n : nat) (col : Z) (g : Grid) : Outcome.t Grid :=
  match n with
  | O => Done g
  | S k =>
      let y := Z.of_nat k in
      isPath <- cellIs g col y PATH ;;
      if isPath : bool then Done g
      else g1 <- setCell g col y PATH ;; carveUp k col g1
  end.

(* The loop over this.exitColumns (lines 281-290). *)
Fixpoint connectExits (rows : Z) (columns : list Z) (g : Grid)
  : Outcome.t Grid :=
  match columns with
  | [] => Done g
  | col :: rest =>
      isWallAbove <- cellIs g col (rows - 2) WALL ;;
      g1 <- (if isWallAbove : bool
             then carveUp (Z.to_nat (rows - 1)) col g
             else Done g) ;;
      connectExits rows rest g1
  end.

(* _createEntryAndExits(), lines 246-291: the grid and this.exitColumns. *)
Definition createEntryAndExits (cols rows : Z) (g : Grid)
  : Outcome.t (Grid * list Z) :=
  let centerX := cols / 2 in
  g1 <- setCell g centerX 0 ENTRY ;;
  g2 <- setCell g1 centerX 1 PATH ;;
  st <- placeExits cols rows exitPositions (g2, []) ;;
  g3 <- connectExits rows (snd st) (fst st) ;;
  Done (g3, snd st).

Record ExitZone : Set := mkZone {
  zoneX : Q;
  zoneY : Q;
  zoneWidth : Q;
  zoneHeight : Q;
  score : Z;
  color : string;
  label : string;
  column : Z
}.

Definition exitScores : list (Z * string * string) :=
  [ (500, "#4ade80", "500"); (100, "#60a5fa", "100"); (1000, "#facc15", "1000");
    (0, "#94a3b8", "0"); (250, "#f472b6", "250") ]%string.

(* this.exitColumns[i] || Math.floor((i + 0.5) * this.cols / 5):
   a missing entry and the column 0 are both falsy. *)
Definition zoneColumn (cols : Z) (exitColumns : list Z) (i : nat) : Z :=
  let fallback := Qfloor ((inject_Z (Z.of_nat i) + (1 # 2)) * inject_Z cols / 5)%Q in
  match nth_error exitColumns i with
  | Some c => if c =? 0 then fallback else c
  | None => fallback
  end.

(* _buildExitZones(), lines 297-326; EXIT_CONFIG.zoneHeight is a constant
   of the configuration script (not part of js/), taken as a parameter. *)
Definition buildExitZones (configZoneHeight : Q) (cols width height : Z)
    (exitColumns : list Z) : list ExitZone :=
  let zoneWidth := (inject_Z width / 5)%Q in
  map (fun i : nat =>
         let zoneX := (inject_Z (Z.of_nat i) * zoneWidth)%Q in
         let sc := nth i exitScores (0, EmptyString, EmptyString) in
         mkZone zoneX (inject_Z height) zoneWidth configZoneHeight
                (fst (fst sc)) (snd (fst sc)) (snd sc)
                (zoneColumn cols exitColumns i))
      (seq 0 5).

Record WallRect : Set := mkRect {
  rectX : Z; rectY : Z; rectWidth : Z; rectHeight : Z; rectIsWall : bool
}.

(* _buildWallRects(), lines 332-348. *)
Definition buildWallRects (cellSize : Z) (g : Grid) : list WallRect :=
  List.concat
    (map (fun yr : nat * list CellType =>
            List.concat
              (map (fun xc : nat * CellType =>
                      if cell_eqb (snd xc) WALL
                      then [mkRect (Z.of_nat (fst xc) * cellSize)
                                   (Z.of_nat (fst yr) * cellSize)
                                   cellSize cellSize true]
                      else [])
                   (combine (seq 0 (List.length (snd yr))) (snd yr))))
         (combine (seq 0 (List.length g)) g)).

(* The fields of the generator after init. *)
Record t : Type := mk {
  grid : Grid;
  cols : Z;
  rows : Z;
  cellSize : Z;
  level : Z;
  rng : SeededRandom.t;
  exitZones : list ExitZone;
  wallRects : list WallRect;
  entryX : Q;
  entryY : Q;
  width : Z;
  height : Z;
  exitColumns : list Z
}.

Definition levelCols (level : Z) : Z :=
  let c := 11 + level / 2 * 2 in
  if Z.rem c 2 =? 0 then c + 1 else c.

Definition levelRows (level : Z) : Z :=
  let r := 13 + level / 3 * 2 in
  if Z.rem r 2 =? 0 then r + 1 else r.

(* Math.max(Math.floor(Math.min((canvasWidth - 40) / cols,
                                availableHeight / rows)), 20) *)
Definition fitCellSize (configZoneHeight canvasWidth canvasHeight : Q)
    (cols rows : Z) : Z :=
  let availableHeight := (canvasHeight - configZoneHeight - 40)%Q in
  Z.max (Qfloor (Qmin ((canvasWidth - 40) / inject_Z cols)
                      (availableHeight / inject_Z rows))%Q)
        20.

(* init(level, canvasWidth, canvasHeight), lines 145-182.  [now] is the
   value of Date.now() that seeds the generator. *)
Definition init (configZoneHeight : Q) (level : Z)
    (canvasWidth canvasHeight : Q) (now : float) : Outcome.t t :=
  let cols := levelCols level in
  let rows := levelRows level in
  let cellSize := fitCellSize configZoneHeight canvasWidth canvasHeight cols rows in
  let width := cols * cellSize in
  let height := rows * cellSize in
  st <- generateMaze cols rows (SeededRandom.mk now) ;;
  ge <- createEntryAndExits cols rows (fst st) ;;
  let zones := buildExitZones configZoneHeight cols width height (snd ge) in
  let rects := buildWallRects cellSize (fst ge) in
  Done (mk (fst ge) cols rows cellSize level (snd st) zones rects
           (inject_Z width / 2)%Q (inject_Z cellSize * (3 # 2))%Q
           width height (snd ge)).

(* isWall(x, y), lines 433-442. *)
Definition isWall (m : t) (x y : Q) : Outcome.t bool :=
  let col := Qfloor (x / inject_Z (cellSize m))%Q in
  let row := Qfloor (y / inject_Z (cellSize m))%Q in
  if (col <? 0) || (col >=? cols m) || (row <? 0) || (row >=? rows m)
  then Done true
  else cellIs (grid m) col row WALL.

(* getExitZoneForX(x), lines 380-387. *)
Definition getExitZoneForX (m : t) (x : Q) : option ExitZone :=
  find (fun z => Qle_bool (zoneX z) x && Qle_bool x (zoneX z + zoneWidth z)%Q)
       (exitZones m).

Record Position : Set := mkPos { posX : Q; posY : Q }.

(* getSpawnPositions(ballCount), lines 355-373.  PHYSICS_CONFIG.ballRadius
   is a constant of the configuration script (not part of js/), taken as
   a parameter; the literals 2.2, 0.3, 0.5 and 1.5 are exact rationals.
   The loop index runs over 0 .. ballCount - 1. *)
Definition getSpawnPositions (ballRadius : Q) (m : t) (ballCount : nat)
  : list Position :=
  let spacing := (ballRadius * (22 # 10))%Q in
  let entryCol := cols m / 2 in
  let entryPixelX := ((inject_Z entryCol + (1 # 2)) * inject_Z (cellSize m))%Q in
  let entryPixelY := (inject_Z (cellSize m) * (3 # 2))%Q in
  map (fun i : nat =>
         let offset :=
           ((inject_Z (Z.of_nat i) - (inject_Z (Z.of_nat ballCount) - 1) / 2)
            * spacing)%Q in
         mkPos (entryPixelX + offset * (3 # 10))%Q
               (entryPixelY + inject_Z (Z.of_nat i) * (ballRadius * (1 # 2)))%Q)
      (seq 0 ballCount).


(* --- Notions used to state the properties ---------------------------- *)

(* A cell a flood fill may enter: Path, Entry or Exit. *)
Definition isOpen (g : Grid) (p : Z * Z) : Prop :=
  exists c, cellAt g (fst p) (snd p) = Some c /\ c <> WALL.

(* Two cells share an edge. *)
Definition adjacent (p q : Z * Z) : Prop :=
  Z.abs (fst p - fst q) + Z.abs (snd p - snd q) = 1.

(* [floodReach g s p]: a flood fill over the open cells of [g] that
   starts at [s] reaches [p]. *)
Inductive floodReach (g : Grid) (s : Z * Z) : Z * Z -> Prop :=
| reach_start : isOpen g s -> floodReach g s s
| reach_step : forall p q,
    floodReach g s p -> adjacent p q -> isOpen g q -> floodReach g s q.

(* --- Invariants of the carving phase ---------------------------------- *)

Definition countWalls (r : list CellType) : nat :=
  List.length (filter (fun c => cell_eqb c WALL) r).

(* The number of Wall cells of the grid. *)
Definition wallCount (g : Grid) : nat :=
  fold_right (fun r n => (countWalls r + n)%nat) 0%nat g.

(* [rows] rows of [cols] cells each. *)
Definition wellFormed (cols rows : Z) (g : Grid) : Prop :=
  List.length g = Z.to_nat rows /\
  Forall (fun r => List.length r = Z.to_nat cols) g.

(* Every cell is Wall or Path. *)
Definition wallOrPath (g : Grid) : Prop :=
  forall x y c, cellAt g x y = Some c -> c = WALL \/ c = PATH.

(* Strictly inside the outer boundary: the bounds test of _carve. *)
Definition interior (cols rows : Z) (p : Z * Z) : Prop :=
  0 < fst p < cols - 1 /\ 0 < snd p < rows - 1.

(* The sublattice on which _carve is called. *)
Definition oddCell (p : Z * Z) : Prop :=
  Z.odd (fst p) = true /\ Z.odd (snd p) = true.

(* [g'] comes from [g] by turning interior Wall cells into Path. *)
Definition grows (cols rows : Z) (g g' : Grid) : Prop :=
  forall x y,
    cellAt g' x y = cellAt g x y \/
    (cellAt g x y = Some WALL /\ cellAt g' x y = Some PATH /\
     interior cols rows (x, y)).

(* No unvisited cell two steps away from [p] in any direction. *)
Definition closedCell (cols rows : Z) (g : Grid) (p : Z * Z) : Prop :=
  forall d, In d DIRECTIONS ->
    interior cols rows (fst p + dx d * 2, snd p + dy d * 2) ->
    cellAt g (fst p + dx d * 2) (snd p + dy d * 2) <> Some WALL.

(* Every open cell is reached by the flood fill from [s]. *)
Definition connected (g : Grid) (s : Z * Z) : Prop :=
  forall p, isOpen g p -> floodReach g s p.

(* What _carve(x, y) may assume of the grid it is called on. *)
Definition carvePre (cols rows : Z) (s : Z * Z) (fuel : nat)
    (g : Grid) (x y : Z) : Prop :=
  wellFormed cols rows g /\ wallOrPath g /\
  interior cols rows (x, y) /\ oddCell (x, y) /\
  cellAt g x y = Some WALL /\
  (wallCount g <= fuel)%nat /\
  (forall g1, setCell g x y PATH = Done g1 -> connected g1 s).

(* What the loop over the directions leaves behind. *)
Definition dirsPost (cols rows : Z) (s : Z * Z) (g : Grid) (x y : Z)
    (ds : list (option Direction)) (res : Outcome.t CarveState) : Prop :=
  match res with
  | Done st =>
      let g' := fst st in
      wellFormed cols rows g' /\ wallOrPath g' /\ grows cols rows g g' /\
      (wallCount g' <= wallCount g)%nat /\
      connected g' s /\
      (forall p, oddCell p -> cellAt g (fst p) (snd p) = Some WALL ->
                 cellAt g' (fst p) (snd p) = Some PATH ->
                 closedCell cols rows g' p) /\
      (forall o, In o ds -> o <> None) /\
      (forall d, In (Some d) ds ->
         interior cols rows (x + dx d * 2, y + dy d * 2) ->
         cellAt g' (x + dx d * 2) (y + dy d * 2) <> Some WALL)
  | Throw => True
  | OutOfFuel => False
  | Unmodelled => False
  end.

(* What _carve(x, y) leaves behind. *)
Definition carvePost (cols rows : Z) (s : Z * Z) (g : Grid) (x y : Z)
    (res : Outcome.t CarveState) : Prop :=
  match res with
  | Done st =>
      let g' := fst st in
      wellFormed cols rows g' /\ wallOrPath g' /\ grows cols rows g g' /\
      (wallCount g' < wallCount g)%nat /\
      connected g' s /\
      cellAt g' x y = Some PATH /\
      (forall p, oddCell p -> cellAt g (fst p) (snd p) = Some WALL ->
                 cellAt g' (fst p) (snd p) = Some PATH ->
                 closedCell cols rows g' p)
  | Throw => True
  | OutOfFuel => False
  | Unmodelled => False
  end.
(* The grid _generateMaze leaves behind: only Wall and Path cells, every
   Path cell reached from the start cell, and every interior cell with
   odd coordinates carved. *)
Definition fullyCarved (cols rows : Z) (g : Grid) : Prop :=
  wellFormed cols rows g /\ wallOrPath g /\
  connected g (actualStartX cols, 1) /\
  cellAt g (actualStartX cols) 1 = Some PATH /\
  (forall x y, interior cols rows (x, y) -> oddCell (x, y) ->
               cellAt g x y = Some PATH).
(* What holds of the grid and of this.exitColumns while the exits are
   placed: every open cell is reached from the entry [e], the Path cells
   above the chosen exits are in place, and [e] is the only Entry cell. *)
Definition exitsPlaced (cols rows : Z) (e : Z * Z) (g : Grid) (cs : list Z)
  : Prop :=
  wellFormed cols rows g /\
  connected g e /\
  cellAt g 1 (rows - 2) = Some PATH /\
  cellAt g (fst e) (snd e) = Some ENTRY /\
  (forall x y, cellAt g x y = Some ENTRY -> (x, y) = e) /\
  (forall c, In c cs ->
     cellAt g c (rows - 2) = Some PATH /\ cellAt g c (rows - 1) = Some EXIT).
(* --- Notions used to describe the finished maze ----------------------- *)

(* On the outer boundary of the grid. *)
Definition onBoundary (cols rows : Z) (p : Z * Z) : Prop :=
  fst p = 0 \/ fst p = cols - 1 \/ snd p = 0 \/ snd p = rows - 1.

(* A pillar of the lattice: both coordinates even. *)
Definition evenCell (p : Z * Z) : Prop :=
  Z.even (fst p) = true /\ Z.even (snd p) = true.

(* [c] is the column the scan of _createEntryAndExits picks for the
   target [t]: a Path cell of the row above the bottom row, at the least
   distance from [t] among the columns 1 .. cols - 2, the leftmost one
   when two are equally near. *)
Definition nearestOpen (cols rows : Z) (g : Grid) (t c : Z) : Prop :=
  1 <= c <= cols - 2 /\
  cellAt g c (rows - 2) = Some PATH /\
  forall x, 1 <= x <= cols - 2 -> cellAt g x (rows - 2) = Some PATH ->
    Z.abs (c - t) <= Z.abs (x - t) /\
    (Z.abs (x - t) = Z.abs (c - t) -> c <= x).

(* The point (x, y) lies in the rectangle [r], edges on the low side
   included. *)
Definition inRect (r : WallRect) (x y : Q) : Prop :=
  (inject_Z (rectX r) <= x /\ x < inject_Z (rectX r + rectWidth r) /\
   inject_Z (rectY r) <= y /\ y < inject_Z (rectY r + rectHeight r))%Q.

(* --- Notions used to count and to describe the carved cells ---------- *)

(* [g'] has the cells of [g] at every position with two even coordinates. *)
Definition keepsPillars (g g' : Grid) : Prop :=
  forall p, evenCell p -> cellAt g' (fst p) (snd p) = cellAt g (fst p) (snd p).

(* The number of cells of a row that satisfy [f], the first cell being in
   column [x]. *)
Fixpoint countRow (f : Z -> CellType -> bool) (x : Z) (r : list CellType) : nat :=
  match r with
  | [] => 0%nat
  | c :: tl => ((if f x c then 1 else 0) + countRow f (x + 1) tl)%nat
  end.

(* The same over the rows of a grid, the first row being row [y]. *)
Fixpoint countFrom (f : Z -> Z -> CellType -> bool) (y : Z) (g : Grid) : nat :=
  match g with
  | [] => 0%nat
  | r :: tl => (countRow (fun x => f x y) 0 r + countFrom f (y + 1) tl)%nat
  end.

Definition countCells (f : Z -> Z -> CellType -> bool) (g : Grid) : nat :=
  countFrom f 0 g.

(* A carved room: a Path cell with two odd coordinates. *)
Definition isRoom (x y : Z) (c : CellType) : bool :=
  Z.odd x && Z.odd y && cell_eqb c PATH.

(* A carved passage between two rooms: a Path cell with exactly one odd
   coordinate. *)
Definition isPassage (x y : Z) (c : CellType) : bool :=
  xorb (Z.odd x) (Z.odd y) && cell_eqb c PATH.

Definition pathRooms (g : Grid) : nat := countCells isRoom g.
Definition pathPassages (g : Grid) : nat := countCells isPassage g.

(* Every carved passage lies between carved rooms. *)
Definition passagesJoin (g : Grid) : Prop :=
  forall x y d, In d DIRECTIONS -> oddCell (x, y) ->
    cellAt g (x + dx d) (y + dy d) = Some PATH -> cellAt g x y = Some PATH.

(* Path cells stay Path cells. *)
Definition keepsPaths (g g' : Grid) : Prop :=
  forall x y, cellAt g x y = Some PATH -> cellAt g' x y = Some PATH.
End MazeGenerator.

(* --------------------------------------------------------------------- *)
(*  class ControlsManager  (controls.js)                                   *)
(*                                                                         *)
(*  Angles and gravity components are modelled as exact rationals: the     *)
(*  arithmetic of the handlers is written as in the source, without the    *)
(*  rounding of binary64.  The DOM side of the class (joystick element,    *)
(*  control indicator, listener registration) carries no state that the    *)
(*  gravity pipeline reads and is left out.                                *)
(* --------------------------------------------------------------------- *)

Module ControlsManager.
Local Open Scope Q_scope.

(* CONTROL_METHOD of the configuration script (not part of js/): the three
   sources named by controls.js. *)
Inductive ControlMethod : Set := TILT | TOUCH | KEYBOARD.

(* CONTROL_CONFIG of the configuration script (not part of js/): the
   constants controls.js reads from it, taken as parameters. *)
Record Config : Set := mkConfig {
  deadZone : Q;
  maxTiltAngle : Q;
  tiltSensitivity : Q;
  smoothing : Q;
  joystickRadius : Q
}.

Record Vec : Set := mkVec { vx : Q; vy : Q }.

Record Keys : Set := mkKeys {
  left : bool; right : bool; up : bool; down : bool
}.

Record Touch : Set := mkTouch {
  active : bool;
  startX : Q; startY : Q;
  currentX : Q; currentY : Q
}.

(* The fields set by the constructor (lines 27-77). *)
Record t : Set := mk {
  gravity : Vec;
  rawGravity : Vec;
  activeMethod : ControlMethod;
  hasDeviceOrientation : bool;
  hasTouch : bool;
  calibration : Vec;
  initialized : bool;
  keys : Keys;
  touch : Touch;
  isLandscape : bool
}.

(* A deviceorientation event: gamma and beta are null when the sensor
   cannot provide them. *)
Record OrientationEvent : Set := mkEvent {
  gamma : option Q;
  beta : option Q
}.

(* a < b *)
Definition Qltb (a b : Q) : bool := negb (Qle_bool b a).

Definition set_gravity (g : Vec) (c : t) : t :=
  mk g (rawGravity c) (activeMethod c) (hasDeviceOrientation c) (hasTouch c)
     (calibration c) (initialized c) (keys c) (touch c) (isLandscape c).

Definition set_rawGravity (g : Vec) (c : t) : t :=
  mk (gravity c) g (activeMethod c) (hasDeviceOrientation c) (hasTouch c)
     (calibration c) (initialized c) (keys c) (touch c) (isLandscape c).

Definition set_activeMethod (m : ControlMethod) (c : t) : t :=
  mk (gravity c) (rawGravity c) m (hasDeviceOrientation c) (hasTouch c)
     (calibration c) (initialized c) (keys c) (touch c) (isLandscape c).

Definition set_calibration (v : Vec) (c : t) : t :=
  mk (gravity c) (rawGravity c) (activeMethod c) (hasDeviceOrientation c)
     (hasTouch c) v (initialized c) (keys c) (touch c) (isLandscape c).

Definition set_keys (k : Keys) (c : t) : t :=
  mk (gravity c) (rawGravity c) (activeMethod c) (hasDeviceOrientation c)
     (hasTouch c) (calibration c) (initialized c) k (touch c) (isLandscape c).

Definition set_touch (tc : Touch) (c : t) : t :=
  mk (gravity c) (rawGravity c) (activeMethod c) (hasDeviceOrientation c)
     (hasTouch c) (calibration c) (initialized c) (keys c) tc (isLandscape c).

(* constructor(): hasTouch and isLandscape are read from the window. *)
Definition constructor (touchAvailable landscape : bool) : t :=
  mk (mkVec 0 0) (mkVec 0 0) KEYBOARD false touchAvailable (mkVec 0 0) false
     (mkKeys false false false false) (mkTouch false 0 0 0 0) landscape.

Definition method_eqb (a b : ControlMethod) : bool :=
  match a, b with
  | TILT, TILT | TOUCH, TOUCH | KEYBOARD, KEYBOARD => true
  | _, _ => false
  end.

Section WithConfig.
Variable cfg : Config.

(* if (Math.abs(v) < CONTROL_CONFIG.deadZone) v = 0; *)
Definition applyDeadZone (v : Q) : Q :=
  if Qltb (Qabs v) (deadZone cfg) then 0 else v.

(* Math.max(-maxTiltAngle, Math.min(maxTiltAngle, v)) *)
Definition clampTilt (v : Q) : Q :=
  Qmax (- maxTiltAngle cfg) (Qmin (maxTiltAngle cfg) v).

(* (v / maxTiltAngle) * tiltSensitivity *)
Definition toGravity (v : Q) : Q :=
  (v / maxTiltAngle cfg) * tiltSensitivity cfg.

(* _handleDeviceOrientation(event), lines 207-251. *)
Definition handleDeviceOrientation (ev : OrientationEvent) (c : t) : t :=
  match gamma ev, beta ev with
  | Some g, Some b =>
      let c1 := if method_eqb (activeMethod c) TILT then c
                else set_activeMethod TILT c in
      let tiltX := if isLandscape c1 then b else g in
      let tiltY := if isLandscape c1 then - g else b in
      let tiltX := tiltX - vx (calibration c1) in
      let tiltY := tiltY - vy (calibration c1) in
      let tiltX := applyDeadZone tiltX in
      let tiltY := applyDeadZone tiltY in
      let tiltX := clampTilt tiltX in
      let tiltY := clampTilt tiltY in
      set_rawGravity (mkVec (toGravity tiltX) (toGravity tiltY)) c1
  | _, _ => c
  end.

(* The key names _handleKeyDown and _handleKeyUp switch on. *)
Definition keyDirection (key : string) : option (Keys -> bool -> Keys) :=
  if (String.eqb key "ArrowLeft" || String.eqb key "a" || String.eqb key "A")%bool
  then Some (fun k v => mkKeys v (right k) (up k) (down k))
  else if (String.eqb key "ArrowRight" || String.eqb key "d" || String.eqb key "D")%bool
  then Some (fun k v => mkKeys (left k) v (up k) (down k))
  else if (String.eqb key "ArrowUp" || String.eqb key "w" || String.eqb key "W")%bool
  then Some (fun k v => mkKeys (left k) (right k) v (down k))
  else if (String.eqb key "ArrowDown" || String.eqb key "s" || String.eqb key "S")%bool
  then Some (fun k v => mkKeys (left k) (right k) (up k) v)
  else None.

(* _handleKeyDown(event), lines 267-307. *)
Definition handleKeyDown (key : string) (c : t) : t :=
  match keyDirection key with
  | Some upd =>
      let c1 := set_keys (upd (keys c) true) c in
      if (negb (method_eqb (activeMethod c1) KEYBOARD) &&
          negb (method_eqb (activeMethod c1) TILT))%bool
      then set_activeMethod KEYBOARD c1 else c1
  | None => c
  end.

(* _handleKeyUp(event), lines 314-337. *)
Definition handleKeyUp (key : string) (c : t) : t :=
  match keyDirection key with
  | Some upd => set_keys (upd (keys c) false) c
  | None => c
  end.

(* The arbitration half of update(), lines 495-520. *)
Definition arbitrate (c : t) : t :=
  let keyboardActive :=
    (left (keys c) || right (keys c) || up (keys c) || down (keys c))%bool in
  if keyboardActive then
    let c1 := if negb (method_eqb (activeMethod c) KEYBOARD)
              then set_activeMethod KEYBOARD c else c in
    let x := 0 in
    let y := 0 in
    let x := if left (keys c1) then x - tiltSensitivity cfg else x in
    let x := if right (keys c1) then x + tiltSensitivity cfg else x in
    let y := if up (keys c1) then y - tiltSensitivity cfg else y in
    let y := if down (keys c1) then y + tiltSensitivity cfg else y in
    set_rawGravity (mkVec x y) c1
  else if method_eqb (activeMethod c) KEYBOARD then
    set_rawGravity (mkVec 0 0) c
  else c.

(* if (Math.abs(g) < 0.001) g = 0; *)
Definition snap (g : Q) : Q :=
  if Qltb (Qabs g) (1 # 1000) then 0 else g.

(* The smoothing half of update(), lines 522-529. *)
Definition smooth (c : t) : t :=
  let gx := vx (gravity c) + (vx (rawGravity c) - vx (gravity c)) * smoothing cfg in
  let gy := vy (gravity c) + (vy (rawGravity c) - vy (gravity c)) * smoothing cfg in
  set_gravity (mkVec (snap gx) (snap gy)) c.

(* update(), lines 494-530. *)
Definition update (c : t) : t := smooth (arbitrate c).

(* calibrate(), lines 551-554. *)
Definition calibrate (c : t) : t :=
  set_calibration
    (mkVec (vx (rawGravity c) / tiltSensitivity cfg * maxTiltAngle cfg)
           (vy (rawGravity c) / tiltSensitivity cfg * maxTiltAngle cfg)) c.

(* [n] successive frames. *)
Fixpoint updateN (n : nat) (c : t) : t :=
  match n with
  | O => c
  | S k => updateN k (update c)
  end.

End WithConfig.

(* reset(), lines 600-606. *)
Definition reset (c : t) : t :=
  let c := set_gravity (mkVec 0 0) c in
  let c := set_rawGravity (mkVec 0 0) c in
  let c := set_keys (mkKeys false false false false) c in
  set_touch (mkTouch false (startX (touch c)) (startY (touch c))
                     (currentX (touch c)) (currentY (touch c))) c.

(* The touch handlers.  _handleTouchMove (lines 383-419) computes the raw
   vector with Math.sqrt, Math.atan2, Math.cos and Math.sin, which have no
   exact rational counterpart; it is not modelled, and the properties below
   that speak of sequences of inputs leave touch moves out. *)



(* No arrow or WASD key is held. *)
Definition noKeyHeld (c : t) : Prop :=
  left (keys c) = false /\ right (keys c) = false /\
  up (keys c) = false /\ down (keys c) = false.

(* The contribution of the held keys to one axis, in units of the
   sensitivity: -1 for the negative key, +1 for the positive key. *)
Definition axisUnits (negKey posKey : bool) : Q :=
  (if negKey then -1 else 0) + (if posKey then 1 else 0).


(* The situation of a frame loop in which the raw vector stays (1,0): no
   key is held and the active source is not the keyboard, so update()
   does not write the raw vector, which an earlier tilt or touch event
   left at (1,0). *)
(* Sample configurations and states used to evaluate the handlers. *)
Definition sampleConfig : Config :=
  mkConfig 2 30 1 (15 # 100) 50.



(* Tilt is the active source and the last orientation event left the raw
   vector at (1,0); gravity is still (0,0). *)
Definition tiltedRight : t :=
  mk (mkVec 0 0) (mkVec 1 0) TILT true true (mkVec 0 0) true
     (mkKeys false false false false) (mkTouch false 0 0 0 0) false.

(* A freshly constructed manager in portrait orientation. *)
Definition freshPortrait : t := constructor true false.







End ControlsManager.

(* ===================================================================== *)
(*  PART II.  PROPERTIES                                                   *)
(* ===================================================================== *)

Section SeededRandomFacts.
Import SeededRandom.

Lemma nextN_run (n : nat) :
  forall r, run r (fst (nextN n r)) (snd (nextN n r)).
Proof.
  induction n as [|k IH]; intros r; cbn [nextN].
  - constructor.
  - destruct (next r) as [x r1] eqn:E.
    specialize (IH r1). destruct (nextN k r1) as [xs r2]. cbn [fst snd] in *.
    econstructor; eauto.
Qed.

Lemma run_length_nextN :
  forall r xs r', run r xs r' -> nextN (List.length xs) r = (xs, r').
Proof.
  induction 1 as [r | r x r1 xs r2 Hn _ IH]; cbn [nextN List.length].
  - reflexivity.
  - rewrite Hn, IH. reflexivity.
Qed.

End SeededRandomFacts.

(** C7. Two runs of N calls of SeededRandom.next() that start from the same
    seed return the same sequence of numbers (and leave the same seed). *)
Theorem next_deterministic :
  forall (r1 r2 r1' r2' : SeededRandom.t) (xs ys : list float),
    SeededRandom.seed r1 = SeededRandom.seed r2 ->
    SeededRandom.run r1 xs r1' ->
    SeededRandom.run r2 ys r2' ->
    List.length xs = List.length ys ->
    xs = ys /\ SeededRandom.seed r1' = SeededRandom.seed r2'.
Proof.
  intros r1 r2 r1' r2' xs ys Hs H1 H2 Hl.
  destruct r1 as [s1], r2 as [s2]. simpl in Hs. subst s2.
  apply run_length_nextN in H1. apply run_length_nextN in H2.
  rewrite Hl in H1. rewrite H1 in H2.
  inversion H2. subst. split; reflexivity.
Qed.

Lemma next_deterministic_witness :
  exists xs r',
    SeededRandom.run (SeededRandom.mk 42) xs r' /\ List.length xs = 3%nat /\
    (xs = xs /\ SeededRandom.seed r' = SeededRandom.seed r').
Proof.
  exists (fst (SeededRandom.nextN 3 (SeededRandom.mk 42))).
  exists (snd (SeededRandom.nextN 3 (SeededRandom.mk 42))).
  pose proof (nextN_run 3 (SeededRandom.mk 42)) as Hr.
  split; [exact Hr|]. split; [reflexivity|].
  exact (next_deterministic _ _ _ _ _ _ eq_refl Hr Hr eq_refl).
Defined.

(** C2. SeededRandom.next() evaluated at seeds where it leaves [0,1) or
    departs from the recurrence seed' = (seed * 1103515245 + 12345) mod
    2^31.  From the seed 1.946027762 the stored seed becomes
    2147483647 and the call returns 2147483647 / 0x7fffffff = 1, which is
    not below 1.  From the seed 2147483647 the stored seed becomes
    1043980800, whereas (seed * 1103515245 + 12345) mod 2^31 is 1043980748:
    the product exceeds 2^53 and is rounded before it is masked.  For the
    same reason a clock value such as 1700000000000, the kind of seed init
    passes, is sent to 1515978752 instead of 1516075065, and the integer
    seed 230538014, which the recurrence sends to 2147483647, is sent to 0.
    From the seed 1 every step is exact and the recurrence is met. *)
Theorem next_at_failing_seeds :
  SeededRandom.next (SeededRandom.mk 1.946027762)
    = (1%float, SeededRandom.mk 2147483647) /\
  PrimFloat.ltb (fst (SeededRandom.next (SeededRandom.mk 1.946027762))) 1 = false /\
  SeededRandom.next (SeededRandom.mk 2147483647)
    = ((1043980800 / 2147483647)%float, SeededRandom.mk 1043980800) /\
  SeededRandom.lcg 2147483647 = 1043980748%Z /\
  snd (SeededRandom.next (SeededRandom.mk 1700000000000))
    = SeededRandom.mk 1515978752 /\
  SeededRandom.lcg 1700000000000 = 1516075065%Z /\
  SeededRandom.next (SeededRandom.mk 230538014)
    = (0%float, SeededRandom.mk 0) /\
  SeededRandom.lcg 230538014 = 2147483647%Z /\
  SeededRandom.next (SeededRandom.mk 1)
    = ((1103527590 / 2147483647)%float, SeededRandom.mk 1103527590) /\
  SeededRandom.lcg 1 = 1103527590%Z.
Proof.
  repeat split; vm_compute; reflexivity.
Qed.



(* --------------------------------------------------------------------- *)
(*  Lists and arrays                                                       *)
(* --------------------------------------------------------------------- *)

Section ListSetFacts.
Context {A : Type}.
Import JsArray.

Lemma listSet_length (n : nat) (v : A) (l : list A) :
  List.length (listSet n v l) = List.length l.
Proof.
  revert n. induction l as [|h tl IH]; intros [|n]; simpl; auto.
Qed.

Lemma nth_error_listSet_eq (n : nat) (v : A) (l : list A) :
  (n < List.length l)%nat -> nth_error (listSet n v l) n = Some v.
Proof.
  revert n. induction l as [|h tl IH]; intros [|n] H; simpl in *;
    try lia; [reflexivity | apply IH; lia].
Qed.

Lemma nth_error_listSet_ne (n m : nat) (v : A) (l : list A) :
  n <> m -> nth_error (listSet n v l) m = nth_error l m.
Proof.
  revert n m. induction l as [|h tl IH]; intros [|n] [|m] H; simpl; auto;
    try congruence.
Qed.

Lemma In_listSet (n : nat) (v x : A) (l : list A) :
  In x (listSet n v l) -> x = v \/ In x l.
Proof.
  revert n. induction l as [|h tl IH]; intros [|n] H; simpl in *; auto;
    destruct H as [H|H]; auto.
  destruct (IH _ H); auto.
Qed.

End ListSetFacts.

(* --------------------------------------------------------------------- *)
(*  shuffle()                                                              *)
(* --------------------------------------------------------------------- *)

Section ShuffleFacts.
Context {A : Type}.
Variable l : list A.
Import JsArray.

Lemma fromInput_None : fromInput l (@None A).
Proof. left; reflexivity. Qed.

Lemma getAt_fromInput (n : nat) (arr : JsArray.t A) :
  elementsFrom l arr -> fromInput l (getAt n arr).
Proof.
  intros [Hi _]. unfold getAt.
  destruct (nth_error (items arr) n) as [v|] eqn:E.
  - apply Hi. eapply nth_error_In; eauto.
  - apply fromInput_None.
Qed.

Lemma getProp_fromInput (k : float) (arr : JsArray.t A) :
  elementsFrom l arr -> fromInput l (getProp k arr).
Proof.
  intros [_ Hp]. unfold getProp.
  destruct (find _ (props arr)) as [kv|] eqn:E.
  - apply Hp. apply find_some in E. tauto.
  - apply fromInput_None.
Qed.

Lemma get_fromInput (k : float) (arr : JsArray.t A) :
  elementsFrom l arr -> fromInput l (get k arr).
Proof.
  intros H. unfold get. destruct (JsNum.arrayIndex k).
  - apply getAt_fromInput; assumption.
  - apply getProp_fromInput; assumption.
Qed.

Lemma setAt_props (n : nat) (v : option A) (arr : JsArray.t A) :
  props (setAt n v arr) = props arr.
Proof. unfold setAt. destruct (n <? _)%nat; reflexivity. Qed.

Lemma setAt_elementsFrom (n : nat) (v : option A) (arr : JsArray.t A) :
  elementsFrom l arr -> fromInput l v -> elementsFrom l (setAt n v arr).
Proof.
  intros [Hi Hp] Hv. split.
  - intros o Ho. unfold setAt in Ho.
    destruct (n <? List.length (items arr))%nat; simpl in Ho.
    + apply In_listSet in Ho. destruct Ho as [-> | Ho]; auto.
    + apply in_app_or in Ho. destruct Ho as [Ho | Ho]; auto.
      apply in_app_or in Ho. destruct Ho as [Ho | Ho].
      * apply repeat_spec in Ho. subst o. apply fromInput_None.
      * destruct Ho as [<- | []]. exact Hv.
  - rewrite setAt_props. exact Hp.
Qed.

Lemma set_elementsFrom (k : float) (v : option A) (arr : JsArray.t A) :
  elementsFrom l arr -> fromInput l v -> elementsFrom l (set k v arr).
Proof.
  intros H Hv. unfold set. destruct (JsNum.arrayIndex k).
  - apply setAt_elementsFrom; assumption.
  - destruct H as [Hi Hp]. split; simpl; auto.
    intros kv [<- | Hkv]; auto.
Qed.

Lemma setAt_length (n : nat) (v : option A) (arr : JsArray.t A) :
  (List.length (items arr) <= List.length (items (setAt n v arr)))%nat.
Proof.
  unfold setAt. destruct (n <? List.length (items arr))%nat; simpl.
  - rewrite listSet_length. lia.
  - rewrite length_app. lia.
Qed.

Lemma set_length (k : float) (v : option A) (arr : JsArray.t A) :
  (List.length (items arr) <= List.length (items (set k v arr)))%nat.
Proof.
  unfold set. destruct (JsNum.arrayIndex k); [apply setAt_length | simpl; lia].
Qed.

Lemma setAt_same (n : nat) (v : option A) (arr : JsArray.t A) :
  (n < List.length (items arr))%nat ->
  nth_error (items (setAt n v arr)) n = Some v.
Proof.
  intros H. unfold setAt.
  destruct (Nat.ltb_spec n (List.length (items arr))); [|lia]. simpl.
  apply nth_error_listSet_eq. assumption.
Qed.

Lemma setAt_other (n p : nat) (v : option A) (arr : JsArray.t A) :
  (p < List.length (items arr))%nat -> p <> n ->
  nth_error (items (setAt n v arr)) p = nth_error (items arr) p.
Proof.
  intros Hp Hne. unfold setAt.
  destruct (Nat.ltb_spec n (List.length (items arr))); simpl.
  - apply nth_error_listSet_ne. congruence.
  - apply nth_error_app1. assumption.
Qed.

Lemma set_other (k : float) (p : nat) (v : option A) (arr : JsArray.t A) :
  (p < List.length (items arr))%nat -> JsNum.arrayIndex k <> Some p ->
  nth_error (items (set k v arr)) p = nth_error (items arr) p.
Proof.
  intros Hp Hne. unfold set. destruct (JsNum.arrayIndex k) as [n|].
  - apply setAt_other; [assumption | congruence].
  - reflexivity.
Qed.

Lemma hole_in_range (p : nat) (arr : JsArray.t A) :
  nth_error (items arr) p = Some None -> (p < List.length (items arr))%nat.
Proof. intros H. apply nth_error_Some. congruence. Qed.

(* One exchange [result[i], result[j]] = [result[j], result[i]]. *)
Lemma exchange_invariant (i' : nat) (j : float) (arr : JsArray.t A) :
  let i := S i' in
  (i < List.length (items arr))%nat ->
  covers l arr \/ holeAbove i arr ->
  let arr' := set j (getAt i arr) (setAt i (get j arr) arr) in
  covers l arr' \/ holeAbove i' arr'.
Proof.
  intros i Hi Hinv arr'.
  assert (Hi1 : forall v, (i < List.length (items (setAt i v arr)))%nat).
  { intros v. eapply Nat.lt_le_trans; [exact Hi | apply setAt_length]. }
  destruct Hinv as [[Hp Hc]|[p [Hlt Hp]]].
  - destruct (JsNum.arrayIndex j) as [n|] eqn:Ej.
    + destruct (Nat.ltb_spec n (List.length (items arr))) as [Hn|Hn].
      * (* both indices in range: the elements are exchanged *)
        left. subst arr'. unfold set, get. rewrite Ej. split.
        { rewrite !setAt_props. exact Hp. }
        intros a Ha. specialize (Hc a Ha).
        apply In_nth_error in Hc. destruct Hc as [q Hq].
        assert (Hql : (q < List.length (items arr))%nat).
        { apply nth_error_Some. congruence. }
        assert (Hn1 : (n < List.length (items (setAt i (getAt n arr) arr)))%nat).
        { eapply Nat.lt_le_trans; [exact Hn | apply setAt_length]. }
        destruct (Nat.eq_dec q i) as [->|Hqi].
        { eapply nth_error_In with (n := n).
          rewrite setAt_same by exact Hn1.
          unfold getAt. rewrite Hq. reflexivity. }
        destruct (Nat.eq_dec q n) as [->|Hqn].
        { eapply nth_error_In with (n := i).
          rewrite setAt_other; [| apply Hi1 | congruence].
          rewrite setAt_same by exact Hi.
          unfold getAt. rewrite Hq. reflexivity. }
        eapply nth_error_In with (n := q).
        rewrite setAt_other;
          [| eapply Nat.lt_le_trans; [exact Hql | apply setAt_length] | exact Hqn].
        rewrite setAt_other; [exact Hq | exact Hql | exact Hqi].
      * (* j is an index past the end: result[i] becomes undefined *)
        right. exists i. split; [unfold i; lia|].
        subst arr'. unfold set, get. rewrite Ej.
        assert (Hg : getAt n arr = None).
        { unfold getAt. destruct (nth_error (items arr) n) eqn:E; [|reflexivity].
          assert (n < List.length (items arr))%nat by (apply nth_error_Some; congruence).
          lia. }
        rewrite Hg.
        rewrite setAt_other; [| apply Hi1 | lia].
        apply setAt_same. exact Hi.
    + (* j names no index: result[j] reads undefined *)
      right. exists i. split; [unfold i; lia|].
      subst arr'. unfold set, get. rewrite Ej.
      unfold getProp. rewrite Hp. cbn [find items].
      apply setAt_same. exact Hi.
  - (* a hole above i stays, or moves down to i *)
    right.
    assert (Hpl : (p < List.length (items arr))%nat) by (eapply hole_in_range; eauto).
    assert (Hpi : p <> i) by lia.
    destruct (JsNum.arrayIndex j) as [n|] eqn:Ej.
    + destruct (Nat.eq_dec n p) as [->|Hnp].
      * exists i. split; [unfold i; lia|].
        subst arr'. unfold set, get. rewrite Ej.
        rewrite setAt_other; [| apply Hi1 | lia].
        rewrite setAt_same by exact Hi.
        unfold getAt. rewrite Hp. reflexivity.
      * exists p. split; [lia|].
        subst arr'. rewrite set_other.
        -- rewrite setAt_other; [exact Hp | exact Hpl | exact Hpi].
        -- eapply Nat.lt_le_trans; [exact Hpl | apply setAt_length].
        -- rewrite Ej. congruence.
    + exists p. split; [lia|].
      subst arr'. rewrite set_other.
      * rewrite setAt_other; [exact Hp | exact Hpl | exact Hpi].
      * eapply Nat.lt_le_trans; [exact Hpl | apply setAt_length].
      * rewrite Ej. congruence.
Qed.

Lemma shuffleFrom_invariant (i : nat) :
  forall (arr : JsArray.t A) (r : SeededRandom.t),
    (i < List.length (items arr))%nat \/ i = 0%nat ->
    elementsFrom l arr ->
    covers l arr \/ holeAbove i arr ->
    let arr' := fst (SeededRandom.shuffleFrom i arr r) in
    elementsFrom l arr' /\ (covers l arr' \/ holeAbove 0 arr').
Proof.
  induction i as [|i' IH]; intros arr r Hi He Hinv; cbn [SeededRandom.shuffleFrom].
  - simpl. split; assumption.
  - destruct Hi as [Hi|Hi]; [|discriminate].
    destruct (SeededRandom.nextInt 0 (JsNum.ofZ (Z.of_nat (S i') + 1)) r) as [j r1].
    apply IH.
    + left. eapply Nat.lt_le_trans; [|apply set_length].
      eapply Nat.lt_le_trans; [|apply setAt_length]. lia.
    + apply set_elementsFrom.
      * apply setAt_elementsFrom; [assumption|]. apply get_fromInput; assumption.
      * apply getAt_fromInput; assumption.
    + apply (exchange_invariant i' j arr Hi Hinv).
Qed.

(* shuffle returns elements of its argument; when its result has no
   undefined element, every element of the argument is in it. *)
Lemma shuffle_spec (r : SeededRandom.t) :
  let arr := fst (SeededRandom.shuffle l r) in
  (forall o, In o (items arr) -> o = None \/ exists a, In a l /\ o = Some a) /\
  ((forall o, In o (items arr) -> o <> None) ->
   forall a, In a l -> In (Some a) (items arr)).
Proof.
  unfold SeededRandom.shuffle.
  destruct (shuffleFrom_invariant (List.length l - 1) (ofList l) r) as [[He _] Hinv].
  - unfold ofList. simpl. rewrite length_map.
    destruct l; simpl; [right; reflexivity | left; lia].
  - split; simpl.
    + intros o Ho. apply in_map_iff in Ho. destruct Ho as [a [<- Ha]].
      right. exists a. auto.
    + intros kv [].
  - left. split; [reflexivity|]. intros a Ha. simpl. apply in_map. exact Ha.
  - split; [exact He|].
    intros Hno a Ha. destruct Hinv as [[_ Hc]|[p [_ Hp]]].
    + apply Hc. exact Ha.
    + exfalso. apply (Hno None); [|reflexivity].
      eapply nth_error_In; eauto.
Qed.

End ShuffleFacts.

(* --------------------------------------------------------------------- *)
(*  The grid                                                               *)
(* --------------------------------------------------------------------- *)

Section GridFacts.
Import MazeGenerator Outcome JsArray.
Local Open Scope Z_scope.

Lemma cell_eqb_eq (a b : CellType) : cell_eqb a b = true <-> a = b.
Proof. destruct a, b; simpl; split; congruence. Qed.

Lemma rowAt_Some (g : Grid) (y : Z) (r : list CellType) :
  rowAt g y = Some r ->
  0 <= y /\ (Z.to_nat y < List.length g)%nat /\ nth_error g (Z.to_nat y) = Some r.
Proof.
  unfold rowAt. destruct (Z.ltb_spec y 0) as [Hy|Hy]; [discriminate|].
  intros Hn. repeat split; auto. apply nth_error_Some. congruence.
Qed.

Lemma setCell_Done (g g' : Grid) (x y : Z) (v : CellType) :
  setCell g x y v = Done g' ->
  exists r, rowAt g y = Some r /\ 0 <= x < Z.of_nat (List.length r) /\
            g' = listSet (Z.to_nat y) (listSet (Z.to_nat x) v r) g.
Proof.
  unfold setCell. destruct (rowAt g y) as [r|]; [|discriminate].
  destruct (Z.leb_spec 0 x) as [Hx0|Hx0]; simpl; [|discriminate].
  destruct (Z.ltb_spec x (Z.of_nat (List.length r))) as [Hx1|Hx1]; [|discriminate].
  intros Hd. inversion Hd. exists r. repeat split; auto.
Qed.

Lemma cellAt_setCell (g g' : Grid) (x y : Z) (v : CellType) :
  setCell g x y v = Done g' ->
  forall x' y',
    cellAt g' x' y' = if (x' =? x) && (y' =? y) then Some v else cellAt g x' y'.
Proof.
  intros H x' y'. apply setCell_Done in H.
  destruct H as (r & Hr & Hx & ->).
  apply rowAt_Some in Hr. destruct Hr as (Hy & Hyl & Hnth).
  unfold cellAt, rowAt.
  destruct (Z.ltb_spec y' 0) as [Hy'|Hy'].
  { destruct (Z.eqb_spec y' y); [lia|]. rewrite andb_false_r. reflexivity. }
  destruct (Z.eqb_spec y' y) as [->|Hne].
  - rewrite nth_error_listSet_eq by exact Hyl. rewrite Hnth.
    rewrite andb_true_r.
    destruct (Z.ltb_spec x' 0) as [Hx'|Hx'].
    { destruct (Z.eqb_spec x' x); [lia|]. reflexivity. }
    destruct (Z.eqb_spec x' x) as [->|Hnx].
    + apply nth_error_listSet_eq. lia.
    + apply nth_error_listSet_ne. lia.
  - rewrite andb_false_r.
    rewrite nth_error_listSet_ne by lia. reflexivity.
Qed.

Lemma cellAt_setCell_same (g g' : Grid) (x y : Z) (v : CellType) :
  setCell g x y v = Done g' -> cellAt g' x y = Some v.
Proof.
  intros H. rewrite (cellAt_setCell _ _ _ _ _ H). rewrite !Z.eqb_refl. reflexivity.
Qed.

Lemma cellAt_setCell_other (g g' : Grid) (x y x' y' : Z) (v : CellType) :
  setCell g x y v = Done g' -> (x', y') <> (x, y) ->
  cellAt g' x' y' = cellAt g x' y'.
Proof.
  intros H Hne. rewrite (cellAt_setCell _ _ _ _ _ H).
  destruct (Z.eqb_spec x' x); destruct (Z.eqb_spec y' y); simpl; try reflexivity.
  subst. congruence.
Qed.

Lemma setCell_defined (g : Grid) (x y : Z) (c v : CellType) :
  cellAt g x y = Some c -> exists g', setCell g x y v = Done g'.
Proof.
  unfold cellAt, setCell. destruct (rowAt g y) as [r|]; [|discriminate].
  destruct (Z.ltb_spec x 0) as [Hx0|Hx0]; [discriminate|]. intros Hn.
  assert (Hlt : (Z.to_nat x < List.length r)%nat) by (apply nth_error_Some; congruence).
  destruct (Z.leb_spec 0 x) as [Hx1|Hx1]; [|lia].
  destruct (Z.ltb_spec x (Z.of_nat (List.length r))) as [Hx2|Hx2]; [|lia].
  simpl. eauto.
Qed.

Lemma setCell_wellFormed (cols rows : Z) (g g' : Grid) (x y : Z) (v : CellType) :
  setCell g x y v = Done g' -> wellFormed cols rows g -> wellFormed cols rows g'.
Proof.
  intros H [Hl Hr]. apply setCell_Done in H.
  destruct H as (r & Hrow & Hx & ->).
  apply rowAt_Some in Hrow. destruct Hrow as (Hy & Hyl & Hnth).
  split.
  - rewrite listSet_length. exact Hl.
  - apply Forall_forall. intros r' Hin.
    apply In_listSet in Hin. destruct Hin as [-> | Hin].
    + rewrite listSet_length.
      rewrite Forall_forall in Hr. apply Hr. eapply nth_error_In; eauto.
    + rewrite Forall_forall in Hr. auto.
Qed.

Lemma cellIs_cellAt (g : Grid) (x y : Z) (c v : CellType) :
  cellAt g x y = Some c -> cellIs g x y v = Done (cell_eqb c v).
Proof.
  unfold cellAt, cellIs. destruct (rowAt g y) as [r|]; [|discriminate].
  intros ->. reflexivity.
Qed.

Lemma cellIs_true (g : Grid) (x y : Z) (v : CellType) :
  cellIs g x y v = Done true -> cellAt g x y = Some v.
Proof.
  unfold cellAt, cellIs. destruct (rowAt g y) as [r|]; [|discriminate].
  destruct (if x <? 0 then None else nth_error r (Z.to_nat x)) as [c|];
    intros H; inversion H as [Hc].
  apply cell_eqb_eq in Hc. congruence.
Qed.

Lemma wellFormed_cellAt (cols rows : Z) (g : Grid) (x y : Z) :
  wellFormed cols rows g -> 0 <= x < cols -> 0 <= y < rows ->
  exists c, cellAt g x y = Some c.
Proof.
  intros [Hl Hr] Hx Hy. unfold cellAt, rowAt.
  destruct (Z.ltb_spec y 0); [lia|].
  destruct (nth_error g (Z.to_nat y)) as [r|] eqn:E.
  - destruct (Z.ltb_spec x 0); [lia|].
    rewrite Forall_forall in Hr.
    assert (Hlen : List.length r = Z.to_nat cols).
    { apply Hr. eapply nth_error_In; eauto. }
    destruct (nth_error r (Z.to_nat x)) as [c|] eqn:Ec; [eauto|].
    apply nth_error_None in Ec. lia.
  - apply nth_error_None in E. lia.
Qed.

Lemma cellAt_in_range (cols rows : Z) (g : Grid) (x y : Z) (c : CellType) :
  wellFormed cols rows g -> cellAt g x y = Some c ->
  0 <= x < cols /\ 0 <= y < rows.
Proof.
  intros [Hl Hr] H. unfold cellAt, rowAt in H.
  destruct (Z.ltb_spec y 0) as [Hy0|Hy0]; [discriminate|].
  destruct (nth_error g (Z.to_nat y)) as [r|] eqn:E; [|discriminate].
  destruct (Z.ltb_spec x 0) as [Hx0|Hx0]; [discriminate|].
  rewrite Forall_forall in Hr.
  assert (Hlen : List.length r = Z.to_nat cols).
  { apply Hr. eapply nth_error_In; eauto. }
  assert (Hxl : (Z.to_nat x < List.length r)%nat) by (apply nth_error_Some; congruence).
  assert (Hyl : (Z.to_nat y < List.length g)%nat) by (apply nth_error_Some; congruence).
  lia.
Qed.

(* --- counting walls --- *)

Lemma countWalls_listSet (r : list CellType) (n : nat) (c v : CellType) :
  nth_error r n = Some c ->
  (countWalls (listSet n v r) + (if cell_eqb c WALL then 1 else 0)
   = countWalls r + (if cell_eqb v WALL then 1 else 0))%nat.
Proof.
  revert n. induction r as [|h tl IH]; intros [|n] H; simpl in H; try discriminate.
  - inversion H; subst h. unfold countWalls. simpl.
    destruct (cell_eqb c WALL), (cell_eqb v WALL); simpl; lia.
  - specialize (IH n H). unfold countWalls in *. simpl.
    destruct (cell_eqb h WALL); simpl; lia.
Qed.

Lemma wallCount_listSet (g : Grid) (n : nat) (r r' : list CellType) :
  nth_error g n = Some r ->
  (wallCount (listSet n r' g) + countWalls r = wallCount g + countWalls r')%nat.
Proof.
  revert n. induction g as [|h tl IH]; intros [|n] H; simpl in H; try discriminate.
  - inversion H; subst h. simpl. lia.
  - specialize (IH n H). simpl. lia.
Qed.

Lemma wallCount_setCell (g g' : Grid) (x y : Z) (c v : CellType) :
  setCell g x y v = Done g' -> cellAt g x y = Some c ->
  (wallCount g' + (if cell_eqb c WALL then 1 else 0)
   = wallCount g + (if cell_eqb v WALL then 1 else 0))%nat.
Proof.
  intros H Hc. apply setCell_Done in H.
  destruct H as (r & Hrow & Hx & ->).
  unfold cellAt in Hc. rewrite Hrow in Hc.
  destruct (Z.ltb_spec x 0); [lia|].
  apply rowAt_Some in Hrow. destruct Hrow as (Hy & Hyl & Hnth).
  pose proof (wallCount_listSet g (Z.to_nat y) r (listSet (Z.to_nat x) v r) Hnth).
  pose proof (countWalls_listSet r (Z.to_nat x) c v Hc).
  lia.
Qed.

(* --- the initial grid --- *)

Lemma allWalls_wellFormed (cols rows : Z) : wellFormed cols rows (allWalls cols rows).
Proof.
  unfold allWalls, wellFormed. split.
  - apply repeat_length.
  - apply Forall_forall. intros r Hr. apply repeat_spec in Hr. subst r.
    apply repeat_length.
Qed.

Lemma cellAt_allWalls (cols rows x y : Z) (c : CellType) :
  cellAt (allWalls cols rows) x y = Some c -> c = WALL.
Proof.
  unfold cellAt, rowAt, allWalls.
  destruct (y <? 0); [discriminate|].
  destruct (nth_error _ (Z.to_nat y)) as [r|] eqn:E; [|discriminate].
  apply nth_error_In in E. apply repeat_spec in E. subst r.
  destruct (x <? 0); [discriminate|].
  intros H. apply nth_error_In in H. apply repeat_spec in H. exact H.
Qed.

Lemma countWalls_repeat (n : nat) : countWalls (repeat WALL n) = n.
Proof.
  unfold countWalls. induction n as [|k IH]; simpl; [reflexivity|]. lia.
Qed.

Lemma wallCount_allWalls (cols rows : Z) :
  wallCount (allWalls cols rows) = (Z.to_nat rows * Z.to_nat cols)%nat.
Proof.
  unfold allWalls. induction (Z.to_nat rows) as [|k IH]; simpl; [reflexivity|].
  rewrite IH, countWalls_repeat. reflexivity.
Qed.

End GridFacts.

(* --------------------------------------------------------------------- *)
(*  Flood fill, growth of the grid and _carve                              *)
(* --------------------------------------------------------------------- *)

Section ReachFacts.
Import MazeGenerator Outcome.
Local Open Scope Z_scope.

Lemma isOpen_setCell_new (g g' : Grid) (x y : Z) (v : CellType) :
  setCell g x y v = Done g' -> v <> WALL -> isOpen g' (x, y).
Proof.
  intros H Hv. exists v. split; [|exact Hv].
  simpl. eapply cellAt_setCell_same; eauto.
Qed.

Lemma isOpen_setCell_old (g g' : Grid) (x y : Z) (v : CellType) (p : Z * Z) :
  setCell g x y v = Done g' -> v <> WALL -> isOpen g p -> isOpen g' p.
Proof.
  intros H Hv [c [Hc Hcw]]. destruct p as [px py]. simpl in *.
  unfold isOpen. simpl. rewrite (cellAt_setCell _ _ _ _ _ H).
  destruct ((px =? x) && (py =? y)); eauto.
Qed.

Lemma isOpen_setCell_inv (g g' : Grid) (x y : Z) (v : CellType) (p : Z * Z) :
  setCell g x y v = Done g' -> isOpen g' p -> p = (x, y) \/ isOpen g p.
Proof.
  intros H [c [Hc Hcw]]. destruct p as [px py]. simpl in *.
  rewrite (cellAt_setCell _ _ _ _ _ H) in Hc.
  destruct (Z.eqb_spec px x); destruct (Z.eqb_spec py y); simpl in Hc;
    try (right; exists c; simpl; auto; fail).
  left. congruence.
Qed.

Lemma floodReach_mono (g g' : Grid) (s p : Z * Z) :
  (forall q, isOpen g q -> isOpen g' q) ->
  floodReach g s p -> floodReach g' s p.
Proof.
  intros Hm H. induction H as [Hs | p q _ IH Hadj Hq].
  - apply reach_start. auto.
  - eapply reach_step; eauto.
Qed.

Lemma floodReach_trans (g : Grid) (a b c : Z * Z) :
  floodReach g a b -> floodReach g b c -> floodReach g a c.
Proof.
  intros Hab Hbc. induction Hbc as [Hb | p q _ IH Hadj Hq].
  - exact Hab.
  - eapply reach_step; eauto.
Qed.

Lemma connected_setCell (g g' : Grid) (s : Z * Z) (x y : Z) (v : CellType) :
  connected g s -> setCell g x y v = Done g' -> v <> WALL ->
  (exists q, adjacent q (x, y) /\ isOpen g q) ->
  connected g' s.
Proof.
  intros Hc H Hv [q [Hadj Hq]] p Hp.
  assert (Hm : forall q0, isOpen g q0 -> isOpen g' q0).
  { intros q0. eapply isOpen_setCell_old; eauto. }
  destruct (isOpen_setCell_inv _ _ _ _ _ _ H Hp) as [-> | Hold].
  - eapply reach_step.
    + eapply floodReach_mono; [exact Hm | apply Hc; exact Hq].
    + exact Hadj.
    + exact Hp.
  - eapply floodReach_mono; [exact Hm | apply Hc; exact Hold].
Qed.

End ReachFacts.

Section GrowFacts.
Import MazeGenerator Outcome.
Local Open Scope Z_scope.
Variables cols rows : Z.

Lemma grows_refl (g : Grid) : grows cols rows g g.
Proof. intros x y. left. reflexivity. Qed.

Lemma grows_trans (g1 g2 g3 : Grid) :
  grows cols rows g1 g2 -> grows cols rows g2 g3 -> grows cols rows g1 g3.
Proof.
  intros H12 H23 x y.
  destruct (H23 x y) as [E23 | (W2 & P3 & I)];
    destruct (H12 x y) as [E12 | (W1 & P2 & I')].
  - left. congruence.
  - right. repeat split; try congruence; apply I'.
  - right. repeat split; try congruence; apply I.
  - congruence.
Qed.

Lemma grows_keeps (g g' : Grid) (x y : Z) (c : CellType) :
  grows cols rows g g' -> cellAt g x y = Some c -> c <> WALL ->
  cellAt g' x y = Some c.
Proof.
  intros H Hc Hw. destruct (H x y) as [E | (W & _)]; congruence.
Qed.

Lemma grows_wall (g g' : Grid) (x y : Z) :
  grows cols rows g g' -> cellAt g' x y = Some WALL -> cellAt g x y = Some WALL.
Proof.
  intros H Hc. destruct (H x y) as [E | (_ & P & _)]; congruence.
Qed.

Lemma grows_wallOrPath (g g' : Grid) :
  grows cols rows g g' -> wallOrPath g -> wallOrPath g'.
Proof.
  intros H Hw x y c Hc. destruct (H x y) as [E | (_ & P & _)].
  - rewrite E in Hc. eauto.
  - right. congruence.
Qed.

Lemma grows_isOpen (g g' : Grid) (p : Z * Z) :
  grows cols rows g g' -> isOpen g p -> isOpen g' p.
Proof.
  intros H [c [Hc Hw]]. exists c. split; [|exact Hw].
  eapply grows_keeps; eauto.
Qed.

Lemma closedCell_grows (g g' : Grid) (p : Z * Z) :
  grows cols rows g g' -> closedCell cols rows g p -> closedCell cols rows g' p.
Proof.
  intros H Hc d Hd Hi Hw. apply (Hc d Hd Hi). eapply grows_wall; eauto.
Qed.

Lemma grows_setCell (g g' : Grid) (x y : Z) :
  wallOrPath g -> interior cols rows (x, y) ->
  setCell g x y PATH = Done g' -> grows cols rows g g'.
Proof.
  intros Hw Hi H x' y'. rewrite (cellAt_setCell _ _ _ _ _ H).
  destruct (Z.eqb_spec x' x) as [->|]; destruct (Z.eqb_spec y' y) as [->|];
    simpl; auto.
  apply setCell_Done in H. destruct H as (r & Hr & Hx & _).
  destruct (cellAt g x y) as [c|] eqn:Ec.
  - destruct (Hw x y c Ec) as [-> | ->]; auto.
  - exfalso. unfold cellAt in Ec. rewrite Hr in Ec.
    destruct (Z.ltb_spec x 0) as [?|?]; [lia|].
    apply nth_error_None in Ec. lia.
Qed.

Lemma wallCount_setCell_PATH (g g' : Grid) (x y : Z) :
  setCell g x y PATH = Done g' -> (wallCount g' <= wallCount g)%nat.
Proof.
  intros H. pose proof H as H0. apply setCell_Done in H0.
  destruct H0 as (r & Hr & Hx & _).
  destruct (cellAt g x y) as [c|] eqn:Ec.
  - pose proof (wallCount_setCell _ _ _ _ _ _ H Ec) as Hc. simpl in Hc.
    destruct (cell_eqb c WALL); lia.
  - exfalso. unfold cellAt in Ec. rewrite Hr in Ec.
    destruct (Z.ltb_spec x 0) as [?|?]; [lia|].
    apply nth_error_None in Ec. lia.
Qed.

Lemma wallCount_setCell_WALL (g g' : Grid) (x y : Z) :
  setCell g x y PATH = Done g' -> cellAt g x y = Some WALL ->
  wallCount g = S (wallCount g').
Proof.
  intros H Hc. pose proof (wallCount_setCell _ _ _ _ _ _ H Hc) as E.
  simpl in E. lia.
Qed.

Lemma direction_cases (d : Direction) :
  In d DIRECTIONS ->
  (dx d = 0 /\ dy d = -1) \/ (dx d = 1 /\ dy d = 0) \/
  (dx d = 0 /\ dy d = 1) \/ (dx d = -1 /\ dy d = 0).
Proof.
  unfold DIRECTIONS. simpl.
  intros [<-|[<-|[<-|[<-|[]]]]]; simpl; auto.
Qed.

End GrowFacts.

Section CarveFacts.
Import MazeGenerator Outcome.
Local Open Scope Z_scope.
Variables cols rows : Z.
Variable s : Z * Z.

Lemma dirsPost_nil (g : Grid) (x y : Z) (r : SeededRandom.t) :
  wellFormed cols rows g -> wallOrPath g -> connected g s ->
  dirsPost cols rows s g x y [] (Done (g, r)).
Proof.
  intros Hwf Hwp Hc. unfold dirsPost. cbn [fst].
  split; [exact Hwf|]. split; [exact Hwp|]. split; [apply grows_refl|].
  split; [apply Nat.le_refl|]. split; [exact Hc|].
  split; [intros p _ Hw Hp; congruence|].
  split; [intros o [] | intros d []].
Qed.

(* The effect of one direction, followed by the rest of the loop. *)
Lemma dirsPost_cons (g g2 : Grid) (x y : Z) (d : Direction)
    (rest : list (option Direction)) (res : Outcome.t CarveState) :
  grows cols rows g g2 ->
  (wallCount g2 <= wallCount g)%nat ->
  (forall p, oddCell p -> cellAt g (fst p) (snd p) = Some WALL ->
             cellAt g2 (fst p) (snd p) = Some PATH ->
             closedCell cols rows g2 p) ->
  (interior cols rows (x + dx d * 2, y + dy d * 2) ->
   cellAt g2 (x + dx d * 2) (y + dy d * 2) <> Some WALL) ->
  dirsPost cols rows s g2 x y rest res ->
  dirsPost cols rows s g x y (Some d :: rest) res.
Proof.
  intros Hg Hcnt Hnew Hdir Hpost.
  unfold dirsPost in *.
  destruct res as [st| | |]; auto.
  cbn [fst] in *.
  destruct Hpost as (Hwf & Hwp & Hg' & Hcnt' & Hconn & Hnew' & Hnone & Hdirs).
  split; [exact Hwf|]. split; [exact Hwp|].
  split; [eapply grows_trans; eauto|].
  split; [lia|]. split; [exact Hconn|].
  split; [|split].
  - intros p Hodd Hw Hp.
    destruct (Hg (fst p) (snd p)) as [E | (_ & P2 & _)].
    + apply Hnew'; congruence.
    + eapply closedCell_grows; [exact Hg'|]. apply Hnew; auto.
  - intros o [<- | Ho]; [discriminate | auto].
  - intros d' [E | Hin] Hi.
    + inversion E; subst d'. intros Hw. apply (Hdir Hi).
      eapply grows_wall; eauto.
    + apply Hdirs; auto.
Qed.

Lemma carveDirs_spec (fuel : nat)
    (rec : Z -> Z -> CarveState -> Outcome.t CarveState) :
  (forall x y g r, carvePre cols rows s fuel g x y ->
                   carvePost cols rows s g x y (rec x y (g, r))) ->
  forall (ds : list (option Direction)) (x y : Z) (g : Grid) (r : SeededRandom.t),
    wellFormed cols rows g -> wallOrPath g ->
    interior cols rows (x, y) -> oddCell (x, y) ->
    cellAt g x y = Some PATH ->
    (wallCount g <= fuel)%nat ->
    connected g s ->
    (forall o, In o ds -> JsArray.fromInput DIRECTIONS o) ->
    dirsPost cols rows s g x y ds (carveDirs rec cols rows x y ds (g, r)).
Proof.
  intros Hrec.
  induction ds as [|o rest IH];
    intros x y g r Hwf Hwp Hint Hodd Hxy Hcnt Hconn Hds.
  - apply dirsPost_nil; assumption.
  - destruct o as [d|]; [|exact I].
    assert (Hd : In d DIRECTIONS).
    { destruct (Hds (Some d) (or_introl eq_refl)) as [E|[a [Ha E]]];
        [discriminate | inversion E; subst; exact Ha]. }
    assert (Hrest : forall o, In o rest -> JsArray.fromInput DIRECTIONS o).
    { intros o Ho. apply Hds. right. exact Ho. }
    pose proof (direction_cases d Hd) as Hdc.
    cbn [carveDirs fst snd].
    set (nx := x + dx d * 2). set (ny := y + dy d * 2).
    destruct ((0 <? nx) && (nx <? cols - 1) && (0 <? ny) && (ny <? rows - 1)) eqn:Eb.
    + assert (Hni : interior cols rows (nx, ny)).
      { apply andb_prop in Eb. destruct Eb as [Eb E4].
        apply andb_prop in Eb. destruct Eb as [Eb E3].
        apply andb_prop in Eb. destruct Eb as [E1 E2].
        apply Z.ltb_lt in E1, E2, E3, E4. unfold interior. simpl. lia. }
      destruct (wellFormed_cellAt cols rows g nx ny Hwf) as [c Hc].
      { unfold interior in Hni. simpl in Hni. lia. }
      { unfold interior in Hni. simpl in Hni. lia. }
      rewrite (cellIs_cellAt _ _ _ c WALL Hc). cbn [bind].
      destruct (cell_eqb c WALL) eqn:Ew.
      * apply cell_eqb_eq in Ew. subst c.
        set (mx := x + dx d). set (my := y + dy d).
        assert (Hmi : interior cols rows (mx, my)).
        { unfold interior in *. simpl in *. subst mx my nx ny. lia. }
        destruct (wellFormed_cellAt cols rows g mx my Hwf) as [cm Hcm].
        { unfold interior in Hmi. simpl in Hmi. lia. }
        { unfold interior in Hmi. simpl in Hmi. lia. }
        destruct (setCell_defined g mx my cm PATH Hcm) as [g1 Hg1].
        rewrite Hg1. cbn [bind].
        assert (Hgrow1 : grows cols rows g g1).
        { eapply grows_setCell; eauto. }
        assert (Hwf1 : wellFormed cols rows g1).
        { eapply setCell_wellFormed; eauto. }
        assert (Hwp1 : wallOrPath g1).
        { eapply grows_wallOrPath; eauto. }
        assert (Hcnt1 : (wallCount g1 <= wallCount g)%nat).
        { eapply wallCount_setCell_PATH; eauto. }
        assert (Hconn1 : connected g1 s).
        { eapply connected_setCell; eauto; [discriminate|].
          exists (x, y). split.
          - unfold adjacent. simpl. subst mx my. lia.
          - exists PATH. simpl. split; [exact Hxy | discriminate]. }
        assert (Hn1 : cellAt g1 nx ny = Some WALL).
        { rewrite (cellAt_setCell_other _ _ _ _ _ _ _ Hg1); [exact Hc|].
          intros E. inversion E. subst mx my nx ny. lia. }
        assert (Hpre : carvePre cols rows s fuel g1 nx ny).
        { unfold carvePre.
          split; [exact Hwf1|]. split; [exact Hwp1|]. split; [exact Hni|].
          split.
          { destruct Hodd as [Ho1 Ho2]. unfold oddCell. simpl in *. subst nx ny.
            rewrite (Z.mul_comm (dx d) 2), (Z.mul_comm (dy d) 2).
            rewrite !Z.odd_add_mul_2. auto. }
          split; [exact Hn1|]. split; [lia|].
          intros g2 Hg2. eapply connected_setCell; eauto; [discriminate|].
          exists (mx, my). split.
          + unfold adjacent. simpl. subst mx my nx ny. lia.
          + eapply isOpen_setCell_new; eauto. discriminate. }
        specialize (Hrec nx ny g1 r Hpre).
        unfold carvePost in Hrec.
        destruct (rec nx ny (g1, r)) as [[g2 r2]| | |]; cbn [bind];
          try exact Hrec.
        cbn [fst] in Hrec.
        destruct Hrec as (Hwf2 & Hwp2 & Hgrow2 & Hcnt2 & Hconn2 & Hn2 & Hnew2).
        assert (Hgrow : grows cols rows g g2) by (eapply grows_trans; eauto).
        eapply dirsPost_cons with (g2 := g2).
        -- exact Hgrow.
        -- lia.
        -- intros p Hpo Hw Hp.
           apply Hnew2; auto.
           rewrite (cellAt_setCell_other _ _ _ _ _ _ _ Hg1); [exact Hw|].
           intros E. destruct p as [px py]. simpl in *. inversion E. subst px py.
           destruct Hpo as [Hp1 Hp2]. destruct Hodd as [Ho1 Ho2]. simpl in *.
           subst mx my.
           destruct Hdc as [[Ex Ey]|[[Ex Ey]|[[Ex Ey]|[Ex Ey]]]];
             rewrite Ex, Ey in *;
             rewrite ?Z.add_0_r in *;
             try (rewrite Z.odd_add in Hp1; rewrite Ho1 in Hp1; simpl in Hp1; discriminate);
             try (rewrite Z.odd_add in Hp2; rewrite Ho2 in Hp2; simpl in Hp2; discriminate).
        -- fold nx ny. intros _. congruence.
        -- apply IH; auto.
           ++ eapply grows_keeps; eauto. discriminate.
           ++ lia.
      * eapply dirsPost_cons with (g2 := g).
        -- apply grows_refl.
        -- lia.
        -- intros p _ Hw Hp. congruence.
        -- fold nx ny. intros _ Hw. rewrite Hc in Hw. inversion Hw. subst c.
           simpl in Ew. discriminate.
        -- apply IH; auto.
    + cbn [bind].
      eapply dirsPost_cons with (g2 := g).
      * apply grows_refl.
      * lia.
      * intros p _ Hw Hp. congruence.
      * fold nx ny. intros Hi. exfalso.
        unfold interior in Hi. simpl in Hi.
        assert (Et : (0 <? nx) && (nx <? cols - 1) && (0 <? ny) && (ny <? rows - 1) = true).
        { rewrite !andb_true_iff. rewrite !Z.ltb_lt. lia. }
        congruence.
      * apply IH; auto.
Qed.

Lemma carve_spec (fuel : nat) :
  forall (x y : Z) (g : Grid) (r : SeededRandom.t),
    carvePre cols rows s fuel g x y ->
    carvePost cols rows s g x y (carve fuel cols rows x y (g, r)).
Proof.
  induction fuel as [|f IH]; intros x y g r Hpre;
    destruct Hpre as (Hwf & Hwp & Hint & Hodd & Hxy & Hcnt & Hconn);
    destruct (setCell_defined g x y WALL PATH Hxy) as [g1 Hg1];
    pose proof (wallCount_setCell_WALL _ _ _ _ Hg1 Hxy) as Hw1.
  - lia.
  - cbn [carve fst snd]. rewrite Hg1. cbn [bind].
    destruct (SeededRandom.shuffle DIRECTIONS r) as [arr r1] eqn:Es.
    pose proof (shuffle_spec DIRECTIONS r) as Hsh. rewrite Es in Hsh.
    cbn [fst] in Hsh. destruct Hsh as [Hfrom Hall].
    assert (Hgrow1 : grows cols rows g g1) by (eapply grows_setCell; eauto).
    assert (Hxy1 : cellAt g1 x y = Some PATH) by (eapply cellAt_setCell_same; eauto).
    pose proof (carveDirs_spec f (carve f cols rows) IH (JsArray.items arr) x y g1 r1) as Hd.
    unfold dirsPost in Hd. unfold carvePost.
    destruct (carveDirs (carve f cols rows) cols rows x y (JsArray.items arr) (g1, r1))
      as [st| | |].
    + cbn [fst] in *.
      destruct Hd as (Hwf' & Hwp' & Hgrow' & Hcnt' & Hconn' & Hnew' & Hnone & Hdirs).
      * eapply setCell_wellFormed; eauto.
      * eapply grows_wallOrPath; eauto.
      * exact Hint.
      * exact Hodd.
      * exact Hxy1.
      * lia.
      * apply Hconn. exact Hg1.
      * exact Hfrom.
      * split; [exact Hwf'|]. split; [exact Hwp'|].
        split; [eapply grows_trans; eauto|].
        split; [lia|]. split; [exact Hconn'|].
        split; [eapply grows_keeps; eauto; discriminate|].
        intros p Hpo Hw Hp.
        destruct (Z.eq_dec (fst p) x) as [Ex|Ex];
          [destruct (Z.eq_dec (snd p) y) as [Ey|Ey]|].
        -- intros d Hdin Hi. rewrite Ex, Ey in *.
           apply Hdirs; [|exact Hi].
           apply Hall; [exact Hnone | exact Hdin].
        -- apply Hnew'; auto.
           rewrite (cellAt_setCell_other _ _ _ _ _ _ _ Hg1); [exact Hw|].
           intros E. inversion E. congruence.
        -- apply Hnew'; auto.
           rewrite (cellAt_setCell_other _ _ _ _ _ _ _ Hg1); [exact Hw|].
           intros E. inversion E. congruence.
    + exact I.
    + apply Hd; auto.
      * eapply setCell_wellFormed; eauto.
      * eapply grows_wallOrPath; eauto.
      * lia.
    + apply Hd; auto.
      * eapply setCell_wellFormed; eauto.
      * eapply grows_wallOrPath; eauto.
      * lia.
Qed.

End CarveFacts.

(* --------------------------------------------------------------------- *)
(*  _generateMaze                                                          *)
(* --------------------------------------------------------------------- *)

Section GenerateFacts.
Import MazeGenerator Outcome.
Local Open Scope Z_scope.
Variables cols rows : Z.
Hypothesis cols_ge : 3 <= cols.
Hypothesis rows_ge : 3 <= rows.
Hypothesis cols_odd : Z.odd cols = true.

Lemma actualStartX_cases :
  actualStartX cols = cols / 2 \/ actualStartX cols = cols / 2 + 1.
Proof.
  unfold actualStartX. destruct (Z.rem (cols / 2) 2 =? 0); auto.
Qed.

Lemma actualStartX_odd : Z.odd (actualStartX cols) = true.
Proof.
  unfold actualStartX.
  assert (H0 : 0 <= cols / 2) by (apply Z.div_pos; lia).
  rewrite Z.rem_mod_nonneg by lia.
  rewrite Zmod_odd.
  destruct (Z.odd (cols / 2)) eqn:E; simpl.
  - exact E.
  - rewrite Z.odd_add. rewrite E. reflexivity.
Qed.

Lemma actualStartX_interior : interior cols rows (actualStartX cols, 1).
Proof.
  unfold interior. simpl.
  apply Z.odd_spec in cols_odd. destruct cols_odd as [m Hm].
  assert (Hd : cols / 2 = m).
  { subst cols. rewrite Z.add_comm, Z.mul_comm, Z.div_add; [|lia].
    reflexivity. }
  pose proof actualStartX_odd as Ho.
  destruct actualStartX_cases as [E|E]; rewrite E in *; rewrite Hd in *.
  - lia.
  - (* m is even here, so m + 1 <= 2m - 1 unless m = 0 or m = 1 *)
    assert (m <> 1).
    { intros ->. simpl in Ho. discriminate. }
    lia.
Qed.

(* From a carved odd cell, the cell two steps away in any direction is
   carved as long as it is interior. *)
Lemma closed_step (g : Grid) (x y : Z) (d : Direction) :
  wellFormed cols rows g -> wallOrPath g ->
  closedCell cols rows g (x, y) ->
  In d DIRECTIONS ->
  interior cols rows (x + dx d * 2, y + dy d * 2) ->
  cellAt g (x + dx d * 2) (y + dy d * 2) = Some PATH.
Proof.
  intros Hwf Hwp Hc Hd Hi.
  destruct (wellFormed_cellAt cols rows g (x + dx d * 2) (y + dy d * 2) Hwf)
    as [c Hcell].
  { unfold interior in Hi. simpl in Hi. lia. }
  { unfold interior in Hi. simpl in Hi. lia. }
  destruct (Hwp _ _ _ Hcell) as [-> | ->]; [|exact Hcell].
  exfalso. exact (Hc d Hd Hi Hcell).
Qed.

Section Lattice.
Variable g : Grid.
Hypothesis Hwf : wellFormed cols rows g.
Hypothesis Hwp : wallOrPath g.
Hypothesis Hclosed :
  forall p, oddCell p -> cellAt g (fst p) (snd p) = Some PATH ->
            closedCell cols rows g p.
Variable sx : Z.
Hypothesis Hsx_odd : Z.odd sx = true.
Hypothesis Hsx_int : interior cols rows (sx, 1).
Hypothesis Hstart : cellAt g sx 1 = Some PATH.

Lemma odd_add_even (a k : Z) : Z.odd (a + 2 * k) = Z.odd a.
Proof. apply Z.odd_add_mul_2. Qed.

Lemma row_right (k : nat) :
  interior cols rows (sx + 2 * Z.of_nat k, 1) ->
  cellAt g (sx + 2 * Z.of_nat k) 1 = Some PATH.
Proof.
  induction k as [|k IH]; intros Hi.
  - replace (sx + 2 * Z.of_nat 0) with sx by lia. exact Hstart.
  - assert (Hprev : interior cols rows (sx + 2 * Z.of_nat k, 1)).
    { unfold interior in *. cbn [fst snd] in *. lia. }
    specialize (IH Hprev).
    pose proof (closed_step g (sx + 2 * Z.of_nat k) 1 (mkDir 1 0 "right"%string) Hwf Hwp) as Hs.
    cbn [dx dy] in Hs.
    replace (sx + 2 * Z.of_nat (S k)) with (sx + 2 * Z.of_nat k + 1 * 2) by lia.
    replace 1 with (1 + 0 * 2) at 3 by lia.
    apply Hs.
    + apply Hclosed; [|exact IH]. unfold oddCell. cbn [fst snd].
      rewrite odd_add_even. auto.
    + unfold DIRECTIONS. simpl. auto.
    + unfold interior in *. cbn [fst snd] in *. lia.
Qed.

Lemma row_left (k : nat) :
  interior cols rows (sx - 2 * Z.of_nat k, 1) ->
  cellAt g (sx - 2 * Z.of_nat k) 1 = Some PATH.
Proof.
  induction k as [|k IH]; intros Hi.
  - replace (sx - 2 * Z.of_nat 0) with sx by lia. exact Hstart.
  - assert (Hprev : interior cols rows (sx - 2 * Z.of_nat k, 1)).
    { unfold interior in *. cbn [fst snd] in *. lia. }
    specialize (IH Hprev).
    pose proof (closed_step g (sx - 2 * Z.of_nat k) 1 (mkDir (-1) 0 "left"%string) Hwf Hwp) as Hs.
    cbn [dx dy] in Hs.
    replace (sx - 2 * Z.of_nat (S k)) with (sx - 2 * Z.of_nat k + -1 * 2) by lia.
    replace 1 with (1 + 0 * 2) at 3 by lia.
    apply Hs.
    + apply Hclosed; [|exact IH]. unfold oddCell. cbn [fst snd].
      replace (sx - 2 * Z.of_nat k) with (sx + 2 * (- Z.of_nat k)) by lia.
      rewrite odd_add_even. auto.
    + unfold DIRECTIONS. simpl. auto.
    + unfold interior in *. cbn [fst snd] in *. lia.
Qed.

Lemma first_row (x : Z) :
  Z.odd x = true -> interior cols rows (x, 1) -> cellAt g x 1 = Some PATH.
Proof.
  intros Hx Hi.
  apply Z.odd_spec in Hx. destruct Hx as [a Ha].
  pose proof Hsx_odd as Hs. apply Z.odd_spec in Hs. destruct Hs as [b Hb].
  destruct (Z.le_ge_cases sx x) as [Hle|Hge].
  - replace x with (sx + 2 * Z.of_nat (Z.to_nat (a - b))) by lia.
    apply row_right.
    replace (sx + 2 * Z.of_nat (Z.to_nat (a - b))) with x by lia. exact Hi.
  - replace x with (sx - 2 * Z.of_nat (Z.to_nat (b - a))) by lia.
    apply row_left.
    replace (sx - 2 * Z.of_nat (Z.to_nat (b - a))) with x by lia. exact Hi.
Qed.

Lemma column_down (x : Z) (k : nat) :
  Z.odd x = true ->
  interior cols rows (x, 1 + 2 * Z.of_nat k) ->
  cellAt g x (1 + 2 * Z.of_nat k) = Some PATH.
Proof.
  intros Hx. induction k as [|k IH]; intros Hi.
  - replace (1 + 2 * Z.of_nat 0) with 1 by lia.
    apply first_row; [exact Hx|].
    unfold interior in *. cbn [fst snd] in *. lia.
  - assert (Hprev : interior cols rows (x, 1 + 2 * Z.of_nat k)).
    { unfold interior in *. cbn [fst snd] in *. lia. }
    specialize (IH Hprev).
    pose proof (closed_step g x (1 + 2 * Z.of_nat k) (mkDir 0 1 "down"%string) Hwf Hwp) as Hs.
    cbn [dx dy] in Hs.
    replace (1 + 2 * Z.of_nat (S k)) with (1 + 2 * Z.of_nat k + 1 * 2) by lia.
    replace x with (x + 0 * 2) at 1 by lia.
    apply Hs.
    + apply Hclosed; [|exact IH]. unfold oddCell. cbn [fst snd].
      rewrite odd_add_even. auto.
    + unfold DIRECTIONS. simpl. auto.
    + unfold interior in *. cbn [fst snd] in *. lia.
Qed.

Lemma lattice_carved (x y : Z) :
  interior cols rows (x, y) -> oddCell (x, y) -> cellAt g x y = Some PATH.
Proof.
  intros Hi [Hx Hy]. simpl in Hx, Hy.
  pose proof Hy as Hy'. apply Z.odd_spec in Hy'. destruct Hy' as [a Ha].
  assert (0 <= a) by (unfold interior in Hi; simpl in Hi; lia).
  replace y with (1 + 2 * Z.of_nat (Z.to_nat a)) by lia.
  apply column_down; [exact Hx|].
  replace (1 + 2 * Z.of_nat (Z.to_nat a)) with y by lia. exact Hi.
Qed.

End Lattice.

Lemma generateMaze_spec (r : SeededRandom.t) :
  match generateMaze cols rows r with
  | Done st => fullyCarved cols rows (fst st)
  | Throw => True
  | OutOfFuel => False
  | Unmodelled => False
  end.
Proof.
  unfold generateMaze.
  set (sx := actualStartX cols).
  pose proof actualStartX_interior as Hint. fold sx in Hint.
  pose proof actualStartX_odd as Hodd. fold sx in Hodd.
  pose proof (allWalls_wellFormed cols rows) as Hwf0.
  assert (Hs0 : cellAt (allWalls cols rows) sx 1 = Some WALL).
  { destruct (wellFormed_cellAt cols rows _ sx 1 Hwf0) as [c Hc].
    - unfold interior in Hint. simpl in Hint. lia.
    - lia.
    - rewrite Hc. f_equal. eapply cellAt_allWalls; eauto. }
  assert (Hpre : carvePre cols rows (sx, 1) (carveFuel cols rows)
                   (allWalls cols rows) sx 1).
  { unfold carvePre.
    split; [exact Hwf0|].
    split. { intros x y c Hc. left. eapply cellAt_allWalls; eauto. }
    split; [exact Hint|].
    split. { unfold oddCell. simpl. auto. }
    split; [exact Hs0|].
    split.
    { rewrite wallCount_allWalls. unfold carveFuel.
      rewrite Z2Nat.inj_mul by lia. lia. }
    intros g1 Hg1 p Hp.
    destruct (isOpen_setCell_inv _ _ _ _ _ _ Hg1 Hp) as [-> | [c [Hc Hw]]].
    - apply reach_start. exact Hp.
    - exfalso. apply Hw. eapply cellAt_allWalls; eauto. }
  pose proof (carve_spec cols rows (sx, 1) (carveFuel cols rows) sx 1
                (allWalls cols rows) r Hpre) as Hpost.
  unfold carvePost in Hpost.
  destruct (carve (carveFuel cols rows) cols rows sx 1 (allWalls cols rows, r))
    as [st| | |]; auto.
  cbn [fst] in *.
  destruct Hpost as (Hwf & Hwp & Hgrow & _ & Hconn & Hstart & Hnew).
  unfold fullyCarved. fold sx.
  split; [exact Hwf|]. split; [exact Hwp|]. split; [exact Hconn|].
  split; [exact Hstart|].
  intros x y Hi Ho.
  apply (lattice_carved (fst st) Hwf Hwp) with (sx := sx); auto.
  intros p Hpo Hp. apply Hnew; auto.
  destruct (cellAt_in_range cols rows _ _ _ _ Hwf Hp) as [Hx Hy].
  destruct (wellFormed_cellAt cols rows _ (fst p) (snd p) Hwf0 Hx Hy) as [c Hc].
  rewrite Hc. f_equal. eapply cellAt_allWalls; eauto.
Qed.

End GenerateFacts.

(* --------------------------------------------------------------------- *)
(*  _createEntryAndExits                                                   *)
(* --------------------------------------------------------------------- *)

Section ExitFacts.
Import MazeGenerator Outcome.
Local Open Scope Z_scope.
Variables cols rows : Z.
Hypothesis cols_ge : 3 <= cols.
Hypothesis rows_ge : 3 <= rows.
Hypothesis cols_odd : Z.odd cols = true.
Hypothesis rows_odd : Z.odd rows = true.

Lemma wellFormed_rowAt (g : Grid) (y : Z) :
  wellFormed cols rows g -> 0 <= y < rows -> exists r, rowAt g y = Some r.
Proof.
  intros [Hl _] Hy. unfold rowAt.
  destruct (Z.ltb_spec y 0) as [?|?]; [lia|].
  destruct (nth_error g (Z.to_nat y)) as [r|] eqn:E; [eauto|].
  apply nth_error_None in E. lia.
Qed.

Lemma cellIs_row (g : Grid) (x y : Z) (v : CellType) (r : list CellType) :
  rowAt g y = Some r ->
  exists b, cellIs g x y v = Done b /\ (b = true <-> cellAt g x y = Some v).
Proof.
  intros Hr. unfold cellIs, cellAt. rewrite Hr.
  destruct (if x <? 0 then None else nth_error r (Z.to_nat x)) as [c|].
  - exists (cell_eqb c v). split; [reflexivity|].
    rewrite cell_eqb_eq. split; congruence.
  - exists false. split; [reflexivity|]. split; discriminate.
Qed.

Lemma nearestPath_spec (g : Grid) (t : Z) (xs : list Z) :
  wellFormed cols rows g ->
  forall best : Z * option Z,
    (snd best <> None -> cellAt g (fst best) (rows - 2) = Some PATH) ->
    exists best',
      nearestPath g rows t xs best = Done best' /\
      (snd best' <> None -> cellAt g (fst best') (rows - 2) = Some PATH) /\
      (snd best <> None -> snd best' <> None) /\
      (forall x, In x xs -> cellAt g x (rows - 2) = Some PATH -> snd best' <> None).
Proof.
  intros Hwf.
  destruct (wellFormed_rowAt g (rows - 2) Hwf) as [r Hr]; [lia|].
  induction xs as [|x rest IH]; intros best Hb.
  - exists best. cbn [nearestPath].
    split; [reflexivity|]. split; [exact Hb|]. split; [auto|]. intros x [].
  - cbn [nearestPath].
    destruct (cellIs_row g x (rows - 2) PATH r Hr) as [b [Hcell Hbt]].
    rewrite Hcell. cbn [bind].
    destruct b.
    + assert (Hx : cellAt g x (rows - 2) = Some PATH) by (apply Hbt; reflexivity).
      destruct (match snd best with
                | Some m => Z.abs (x - t) <? m
                | None => true
                end) eqn:Ecmp.
      * destruct (IH (x, Some (Z.abs (x - t)))) as [b' (Hrun & Hp & Hk & Hf)].
        { intros _. exact Hx. }
        exists b'. split; [exact Hrun|]. split; [exact Hp|].
        assert (Hsome : snd b' <> None) by (refine (Hk _); discriminate).
        split; [intros _; exact Hsome|]. intros x' _ _. exact Hsome.
      * destruct (IH best Hb) as [b' (Hrun & Hp & Hk & Hf)].
        exists b'. split; [exact Hrun|]. split; [exact Hp|].
        split; [exact Hk|].
        intros x' [<- | Hin] Hx'.
        -- refine (Hk _). destruct (snd best); discriminate.
        -- exact (Hf x' Hin Hx').
    + destruct (IH best Hb) as [b' (Hrun & Hp & Hk & Hf)].
      exists b'. split; [exact Hrun|]. split; [exact Hp|].
      split; [exact Hk|].
      intros x' [<- | Hin] Hx'.
      * apply Hbt in Hx'. discriminate.
      * exact (Hf x' Hin Hx').
Qed.

Lemma scanColumns_one : In 1 (scanColumns cols).
Proof.
  unfold scanColumns. apply in_map_iff. exists 1%nat. split; [reflexivity|].
  apply in_seq. lia.
Qed.

Lemma placeExits_spec (e : Z * Z) (ps : list Q) :
  snd e = 0 ->
  forall (g : Grid) (cs : list Z),
    exitsPlaced cols rows e g cs ->
    exists g' cs',
      placeExits cols rows ps (g, cs) = Done (g', cs') /\
      exitsPlaced cols rows e g' cs' /\
      List.length cs' = (List.length cs + List.length ps)%nat.
Proof.
  intros He. induction ps as [|pos rest IH]; intros g cs Hinv.
  - exists g, cs. cbn [placeExits].
    split; [reflexivity|]. split; [exact Hinv|]. simpl. lia.
  - cbn [placeExits fst snd].
    destruct Hinv as (Hwf & Hconn & Hone & Hentry & Huniq & Hcs).
    set (t := Qfloor (pos * inject_Z cols)).
    destruct (nearestPath_spec g t (scanColumns cols) Hwf (t, None))
      as [best (Hrun & Hp & _ & Hf)].
    { intros H. exfalso. apply H. reflexivity. }
    rewrite Hrun. cbn [bind].
    assert (Hsome : snd best <> None).
    { refine (Hf 1 _ _); [apply scanColumns_one | exact Hone]. }
    specialize (Hp Hsome).
    destruct (cellAt_in_range cols rows _ _ _ _ Hwf Hp) as [Hbx _].
    destruct (wellFormed_cellAt cols rows g (fst best) (rows - 1) Hwf Hbx)
      as [c0 Hc0]; [lia|].
    destruct (setCell_defined g (fst best) (rows - 1) c0 EXIT Hc0) as [g1 Hg1].
    rewrite Hg1. cbn [bind].
    assert (Hother : forall x y, y <> rows - 1 -> cellAt g1 x y = cellAt g x y).
    { intros x y Hy. eapply cellAt_setCell_other; eauto.
      intros E. inversion E. lia. }
    destruct (IH g1 (cs ++ [fst best])) as (g' & cs' & Hrun' & Hinv' & Hlen).
    { split; [eapply setCell_wellFormed; eauto|].
      split.
      { eapply connected_setCell; eauto; [discriminate|].
        exists (fst best, rows - 2). split.
        - unfold adjacent. cbn [fst snd]. lia.
        - exists PATH. split; [exact Hp | discriminate]. }
      split; [rewrite Hother by lia; exact Hone|].
      split; [rewrite Hother by lia; exact Hentry|].
      split.
      { intros x y Hxy. apply Huniq.
        rewrite (cellAt_setCell _ _ _ _ _ Hg1) in Hxy.
        destruct ((x =? fst best) && (y =? rows - 1)); [discriminate | exact Hxy]. }
      intros c Hc. apply in_app_or in Hc.
      rewrite Hother by lia.
      destruct Hc as [Hc | [<- | []]].
      - destruct (Hcs c Hc) as [Hc1 Hc2]. split; [exact Hc1|].
        rewrite (cellAt_setCell _ _ _ _ _ Hg1).
        destruct ((c =? fst best) && (rows - 1 =? rows - 1)); [reflexivity | exact Hc2].
      - split; [exact Hp|]. eapply cellAt_setCell_same; eauto. }
    exists g', cs'. split; [exact Hrun'|]. split; [exact Hinv'|].
    rewrite Hlen, length_app. simpl. lia.
Qed.

Lemma connectExits_skip (g : Grid) (cs : list Z) :
  wellFormed cols rows g ->
  (forall c, In c cs -> cellAt g c (rows - 2) = Some PATH) ->
  connectExits rows cs g = Done g.
Proof.
  intros Hwf. induction cs as [|c rest IH]; intros Hcs; cbn [connectExits].
  - reflexivity.
  - rewrite (cellIs_cellAt g c (rows - 2) PATH WALL) by (apply Hcs; left; reflexivity).
    cbn [cell_eqb bind]. apply IH. intros c' Hc'. apply Hcs. right. exact Hc'.
Qed.

Lemma createEntryAndExits_spec (g : Grid) :
  fullyCarved cols rows g ->
  exists g' cs,
    createEntryAndExits cols rows g = Done (g', cs) /\
    exitsPlaced cols rows (cols / 2, 0) g' cs /\
    List.length cs = 5%nat.
Proof.
  intros (Hwf & Hwp & Hconn & Hstart & Hall).
  unfold createEntryAndExits.
  set (cx := cols / 2).
  assert (Hcx : 0 < cx < cols - 1).
  { subst cx. apply Z.odd_spec in cols_odd. destruct cols_odd as [m Hm].
    assert (Hd : cols / 2 = m).
    { rewrite Hm. rewrite Z.add_comm, Z.mul_comm, Z.div_add; [|lia]. reflexivity. }
    rewrite Hd. lia. }
  destruct (wellFormed_cellAt cols rows g cx 0 Hwf) as [c0 Hc0]; [lia|lia|].
  destruct (setCell_defined g cx 0 c0 ENTRY Hc0) as [g1 Hg1].
  rewrite Hg1. cbn [bind].
  assert (Hwf1 : wellFormed cols rows g1) by (eapply setCell_wellFormed; eauto).
  destruct (wellFormed_cellAt cols rows g1 cx 1 Hwf1) as [c1 Hc1]; [lia|lia|].
  destruct (setCell_defined g1 cx 1 c1 PATH Hc1) as [g2 Hg2].
  rewrite Hg2. cbn [bind].
  assert (Hwf2 : wellFormed cols rows g2) by (eapply setCell_wellFormed; eauto).
  assert (Hmono : forall q, isOpen g q -> isOpen g2 q).
  { intros q Hq. eapply isOpen_setCell_old; eauto; [discriminate|].
    eapply isOpen_setCell_old; eauto. discriminate. }
  assert (Hentry2 : cellAt g2 cx 0 = Some ENTRY).
  { rewrite (cellAt_setCell_other _ _ _ _ _ _ _ Hg2).
    - eapply cellAt_setCell_same; eauto.
    - intros E. inversion E. }
  assert (He : floodReach g2 (cx, 0) (cx, 0)).
  { apply reach_start. exists ENTRY. split; [exact Hentry2 | discriminate]. }
  assert (Hbelow : floodReach g2 (cx, 0) (cx, 1)).
  { eapply reach_step; [exact He | |].
    - unfold adjacent. cbn [fst snd]. lia.
    - eapply isOpen_setCell_new; eauto. discriminate. }
  assert (Hs : floodReach g2 (cx, 0) (actualStartX cols, 1)).
  { destruct (actualStartX_cases cols) as [E|E]; fold cx in E; rewrite E.
    - exact Hbelow.
    - eapply reach_step; [exact Hbelow | |].
      + unfold adjacent. cbn [fst snd]. lia.
      + apply Hmono. exists PATH. cbn [fst snd]. rewrite <- E.
        split; [exact Hstart | discriminate]. }
  assert (Hconn2 : connected g2 (cx, 0)).
  { intros p Hp.
    destruct (isOpen_setCell_inv _ _ _ _ _ _ Hg2 Hp) as [-> | Hp1]; [exact Hbelow|].
    destruct (isOpen_setCell_inv _ _ _ _ _ _ Hg1 Hp1) as [-> | Hp0]; [exact He|].
    eapply floodReach_trans; [exact Hs|].
    eapply floodReach_mono; [exact Hmono | apply Hconn; exact Hp0]. }
  assert (Hinv2 : exitsPlaced cols rows (cx, 0) g2 []).
  { split; [exact Hwf2|]. split; [exact Hconn2|].
    split.
    { rewrite (cellAt_setCell _ _ _ _ _ Hg2).
      destruct ((1 =? cx) && (rows - 2 =? 1)); [reflexivity|].
      rewrite (cellAt_setCell_other _ _ _ _ _ _ _ Hg1).
      - apply Hall.
        + unfold interior. cbn [fst snd]. lia.
        + unfold oddCell. cbn [fst snd]. split; [reflexivity|].
          replace (rows - 2) with (rows + 2 * (-1)) by lia.
          rewrite Z.odd_add_mul_2. exact rows_odd.
      - intros E. inversion E. lia. }
    split; [exact Hentry2|].
    split.
    { intros x y Hxy.
      rewrite (cellAt_setCell _ _ _ _ _ Hg2) in Hxy.
      destruct ((x =? cx) && (y =? 1)); [discriminate|].
      rewrite (cellAt_setCell _ _ _ _ _ Hg1) in Hxy.
      destruct (Z.eqb_spec x cx) as [Ex|Ex]; destruct (Z.eqb_spec y 0) as [Ey|Ey];
        cbn [andb] in Hxy;
        try (destruct (Hwp _ _ _ Hxy); discriminate).
      rewrite Ex, Ey. reflexivity. }
    intros c []. }
  destruct (placeExits_spec (cx, 0) exitPositions eq_refl g2 [] Hinv2)
    as (g3 & cs & Hrun & Hinv3 & Hlen).
  rewrite Hrun. cbn [bind fst snd].
  rewrite (connectExits_skip g3 cs).
  - cbn [bind]. exists g3, cs. split; [reflexivity|]. split; [exact Hinv3|].
    rewrite Hlen. reflexivity.
  - apply Hinv3.
  - intros c Hc. destruct Hinv3 as (_ & _ & _ & _ & _ & Hcs). apply Hcs. exact Hc.
Qed.

End ExitFacts.

(* --------------------------------------------------------------------- *)
(*  init                                                                   *)
(* --------------------------------------------------------------------- *)

Section InitFacts.
Import MazeGenerator Outcome.
Local Open Scope Z_scope.

Lemma oddify_odd (c : Z) :
  Z.odd c = true -> (if Z.rem c 2 =? 0 then c + 1 else c) = c.
Proof.
  intros Ho. pose proof (Zrem_odd c) as Hr. rewrite Ho in Hr.
  destruct (Z.eqb_spec (Z.rem c 2) 0) as [E|E]; [|reflexivity].
  exfalso. rewrite E in Hr.
  destruct c; simpl in *; discriminate.
Qed.

Lemma levelCols_eq (level : Z) : levelCols level = 11 + 2 * (level / 2).
Proof.
  unfold levelCols. rewrite oddify_odd; [lia|].
  rewrite (Z.mul_comm (level / 2) 2). rewrite Z.odd_add_mul_2. reflexivity.
Qed.

Lemma levelRows_eq (level : Z) : levelRows level = 13 + 2 * (level / 3).
Proof.
  unfold levelRows. rewrite oddify_odd; [lia|].
  rewrite (Z.mul_comm (level / 3) 2). rewrite Z.odd_add_mul_2. reflexivity.
Qed.

Lemma levelCols_odd (level : Z) : Z.odd (levelCols level) = true.
Proof. rewrite levelCols_eq. rewrite Z.odd_add_mul_2. reflexivity. Qed.

Lemma levelRows_odd (level : Z) : Z.odd (levelRows level) = true.
Proof. rewrite levelRows_eq. rewrite Z.odd_add_mul_2. reflexivity. Qed.

Lemma levelCols_ge (level : Z) : 0 <= level -> 11 <= levelCols level.
Proof.
  intros H. rewrite levelCols_eq.
  assert (0 <= level / 2) by (apply Z.div_pos; lia). lia.
Qed.

Lemma levelRows_ge (level : Z) : 0 <= level -> 13 <= levelRows level.
Proof.
  intros H. rewrite levelRows_eq.
  assert (0 <= level / 3) by (apply Z.div_pos; lia). lia.
Qed.

(* A maze is only returned for a grid of at least 3 x 3 cells. *)
Lemma generateMaze_Done_dims (cols rows : Z) (r : SeededRandom.t)
    (st : CarveState) :
  Z.odd cols = true -> Z.odd rows = true ->
  generateMaze cols rows r = Done st ->
  3 <= cols /\ 3 <= rows.
Proof.
  intros Hco Hro. unfold generateMaze.
  destruct (carveFuel cols rows) as [|f]; cbn [carve]; [discriminate|].
  cbn [fst snd].
  destruct (setCell (allWalls cols rows) (actualStartX cols) 1 PATH)
    as [g1| | |] eqn:Hset; cbn [bind]; try discriminate.
  intros _.
  apply setCell_Done in Hset. destruct Hset as (row & Hrow & Hx & _).
  apply rowAt_Some in Hrow. destruct Hrow as (_ & Hlen & Hnth).
  unfold allWalls in Hlen, Hnth. rewrite repeat_length in Hlen.
  apply nth_error_In in Hnth. apply repeat_spec in Hnth. subst row.
  rewrite repeat_length in Hx.
  apply Z.odd_spec in Hco. destruct Hco as [a Ha].
  apply Z.odd_spec in Hro. destruct Hro as [b Hb].
  split; [|lia].
  assert (Hpos : 0 < cols) by lia.
  destruct (Z.eq_dec a 0) as [->|Hne]; [|lia].
  exfalso. subst cols. vm_compute in Hx. destruct Hx as [_ Hx]. discriminate.
Qed.

(* On the grids of levels 0 to 100 the exit targets computed with exact
   fractions are the ones the binary64 products give. *)
Lemma exit_targets_as_binary64 :
  forallb (fun l : nat => targetColumnsAgree (levelCols (Z.of_nat l))) (seq 0 101)
  = true.
Proof. vm_compute. reflexivity. Qed.

Lemma fitCellSize_ge (zh cw ch : Q) (cols rows : Z) :
  20 <= fitCellSize zh cw ch cols rows.
Proof. unfold fitCellSize. apply Z.le_max_r. Qed.

(* What init leaves in the fields of the generator. *)
Lemma init_Done (zh : Q) (level : Z) (cw ch : Q) (now : float) (m : MazeGenerator.t) :
  init zh level cw ch now = Done m ->
  3 <= cols m /\ 3 <= rows m /\
  20 <= cellSize m /\
  width m = cols m * cellSize m /\
  height m = rows m * cellSize m /\
  exitZones m = buildExitZones zh (cols m) (width m) (height m) (exitColumns m) /\
  exitsPlaced (cols m) (rows m) (cols m / 2, 0) (grid m) (exitColumns m) /\
  List.length (exitColumns m) = 5%nat.
Proof.
  unfold init.
  set (c := levelCols level). set (r := levelRows level).
  destruct (generateMaze c r (SeededRandom.mk now)) as [st| | |] eqn:Hgen;
    cbn [bind]; try discriminate.
  destruct (generateMaze_Done_dims c r _ st (levelCols_odd level)
              (levelRows_odd level) Hgen) as [Hc Hr].
  pose proof (generateMaze_spec c r Hc Hr (levelCols_odd level)
                (SeededRandom.mk now)) as Hspec.
  rewrite Hgen in Hspec.
  destruct (createEntryAndExits_spec c r Hc Hr (levelCols_odd level)
              (levelRows_odd level) (fst st) Hspec)
    as (g' & cs & Hrun & Hinv & Hlen).
  rewrite Hrun. cbn [bind fst snd].
  intros E. inversion E. subst m. cbn.
  split; [exact Hc|]. split; [exact Hr|].
  split; [apply fitCellSize_ge|].
  split; [reflexivity|]. split; [reflexivity|]. split; [reflexivity|].
  split; [exact Hinv | exact Hlen].
Qed.

Lemma init_total (zh : Q) (level : Z) (cw ch : Q) (now : float) :
  0 <= level ->
  init zh level cw ch now <> OutOfFuel /\
  init zh level cw ch now <> Unmodelled.
Proof.
  intros Hl. unfold init.
  set (c := levelCols level). set (r := levelRows level).
  assert (Hc : 3 <= c) by (pose proof (levelCols_ge level Hl); subst c; lia).
  assert (Hr : 3 <= r) by (pose proof (levelRows_ge level Hl); subst r; lia).
  pose proof (generateMaze_spec c r Hc Hr (levelCols_odd level)
                (SeededRandom.mk now)) as Hspec.
  destruct (generateMaze c r (SeededRandom.mk now)) as [st| | |];
    cbn [bind]; try contradiction; try (split; discriminate).
  destruct (createEntryAndExits_spec c r Hc Hr (levelCols_odd level)
              (levelRows_odd level) (fst st) Hspec)
    as (g' & cs & Hrun & _).
  rewrite Hrun. cbn [bind]. split; discriminate.
Qed.

End InitFacts.

(* --------------------------------------------------------------------- *)
(*  Pixels, cells and exit zones                                           *)
(* --------------------------------------------------------------------- *)

Section GeometryFacts.
Import MazeGenerator Outcome.
Local Open Scope Q_scope.


Lemma Qfloor_ge (q : Q) (n : Z) : inject_Z n <= q -> (n <= Qfloor q)%Z.
Proof.
  intros H. rewrite <- (Qfloor_Z n). apply Qfloor_resp_le. exact H.
Qed.

Lemma Qfloor_lt (q : Q) (n : Z) : q < inject_Z n -> (Qfloor q < n)%Z.
Proof.
  intros H. pose proof (Qfloor_le q) as Hf.
  rewrite Zlt_Qlt. lra.
Qed.

(* The cell index of a pixel coordinate. *)
Lemma Qfloor_cell (x : Q) (cs c : Z) :
  (0 < cs)%Z ->
  inject_Z (c * cs) <= x -> x < inject_Z ((c + 1) * cs) ->
  Qfloor (x / inject_Z cs) = c.
Proof.
  intros Hcs Hlo Hhi.
  assert (Hq : 0 < inject_Z cs).
  { change 0 with (inject_Z 0). rewrite <- Zlt_Qlt. exact Hcs. }
  rewrite inject_Z_mult in Hlo, Hhi.
  assert (H1 : inject_Z c <= x / inject_Z cs).
  { apply Qle_shift_div_l; assumption. }
  assert (H2 : x / inject_Z cs < inject_Z (c + 1)).
  { apply Qlt_shift_div_r; assumption. }
  apply Qfloor_ge in H1. apply Qfloor_lt in H2. lia.
Qed.



Lemma buildExitZones_nth (zh : Q) (cols w h : Z) (cs : list Z) (i : nat)
    (z : ExitZone) :
  nth_error (buildExitZones zh cols w h cs) i = Some z ->
  (i < 5)%nat /\
  zoneX z = inject_Z (Z.of_nat i) * (inject_Z w / 5) /\
  zoneWidth z = inject_Z w / 5 /\
  zoneY z = inject_Z h /\
  zoneHeight z = zh.
Proof.
  unfold buildExitZones. cbn [seq map].
  do 5 (destruct i as [|i]; [intros H; inversion H; cbn; repeat split; lia|]).
  destruct i; discriminate.
Qed.

End GeometryFacts.

(* --------------------------------------------------------------------- *)
(*  ControlsManager                                                        *)
(* --------------------------------------------------------------------- *)

Section ControlsFacts.
Import ControlsManager.
Local Open Scope Q_scope.

Lemma Qltb_lt (a b : Q) : Qltb a b = true <-> a < b.
Proof.
  unfold Qltb. rewrite negb_true_iff.
  split; intros H.
  - apply Qnot_le_lt. intros Hle. apply Qle_bool_iff in Hle. congruence.
  - destruct (Qle_bool b a) eqn:E; [|reflexivity].
    apply Qle_bool_iff in E. exfalso. exact (Qlt_not_le _ _ H E).
Qed.

Lemma Qltb_ge (a b : Q) : Qltb a b = false <-> b <= a.
Proof.
  unfold Qltb. rewrite negb_false_iff. apply Qle_bool_iff.
Qed.


Lemma snap_zero (g : Q) : Qabs g < 1 # 1000 -> snap g = 0.
Proof.
  intros H. unfold snap. apply Qltb_lt in H. rewrite H. reflexivity.
Qed.

Lemma applyDeadZone_keep (cfg : Config) (v : Q) :
  deadZone cfg <= Qabs v -> applyDeadZone cfg v = v.
Proof.
  intros H. unfold applyDeadZone. apply Qltb_ge in H. rewrite H. reflexivity.
Qed.

Lemma clampTilt_high (cfg : Config) (v : Q) :
  0 < maxTiltAngle cfg -> maxTiltAngle cfg <= v ->
  clampTilt cfg v == maxTiltAngle cfg.
Proof.
  intros Hm Hv. unfold clampTilt.
  rewrite (Q.min_l _ _ Hv).
  apply Q.max_r. lra.
Qed.














Lemma handle_keeps_isLandscape (cfg : Config) (ev : OrientationEvent) (c : t) :
  isLandscape (handleDeviceOrientation cfg ev c) = isLandscape c.
Proof.
  unfold handleDeviceOrientation.
  destruct (gamma ev), (beta ev); try reflexivity.
  destruct (method_eqb (activeMethod c) TILT); reflexivity.
Qed.

Lemma handle_portrait_y (cfg : Config) (c : t) (g b : Q) :
  isLandscape c = false ->
  vy (rawGravity (handleDeviceOrientation cfg (mkEvent (Some g) (Some b)) c))
  = toGravity cfg (clampTilt cfg (applyDeadZone cfg (b - vy (calibration c)))).
Proof.
  intros Hl. unfold handleDeviceOrientation.
  cbn [gamma beta].
  destruct (method_eqb (activeMethod c) TILT);
    cbn [set_activeMethod set_rawGravity isLandscape calibration rawGravity vy];
    rewrite Hl; reflexivity.
Qed.

End ControlsFacts.

Section CalibrateFacts.
Import ControlsManager.
Local Open Scope Q_scope.
Variable cfg : Config.
Hypothesis maxTilt_pos : 0 < maxTiltAngle cfg.
Hypothesis sens_pos : 0 < tiltSensitivity cfg.
Hypothesis deadZone_nonneg : 0 <= deadZone cfg.

Lemma clampTilt_inside (v : Q) :
  Qabs v <= maxTiltAngle cfg -> clampTilt cfg v == v.
Proof.
  intros Hv. apply Qabs_Qle_condition in Hv. destruct Hv as [Hlo Hhi].
  unfold clampTilt.
  rewrite (Q.min_r _ _ Hhi). apply Q.max_r. exact Hlo.
Qed.

Lemma applyDeadZone_cases (v : Q) :
  (Qabs v < deadZone cfg /\ applyDeadZone cfg v = 0) \/
  (deadZone cfg <= Qabs v /\ applyDeadZone cfg v = v).
Proof.
  unfold applyDeadZone. destruct (Qltb (Qabs v) (deadZone cfg)) eqn:E.
  - left. split; [apply Qltb_lt; exact E | reflexivity].
  - right. split; [apply Qltb_ge; exact E | reflexivity].
Qed.

Lemma toGravity_zero (v : Q) : v == 0 -> toGravity cfg v == 0.
Proof.
  intros Hv. unfold toGravity. rewrite Hv. field. lra.
Qed.

Lemma clampTilt_zero (v : Q) : v == 0 -> clampTilt cfg v == 0.
Proof.
  intros Hv. rewrite clampTilt_inside.
  - exact Hv.
  - rewrite Hv. rewrite Qabs_pos; lra.
Qed.

(* One axis: the reading [t], taken with no offset and not cut by the
   clamp, reads 0 again once calibrate() has stored it. *)
Lemma axis_calibrated (t cal : Q) :
  cal == 0 -> Qabs t <= maxTiltAngle cfg ->
  let r1 := toGravity cfg (clampTilt cfg (applyDeadZone cfg (t - cal))) in
  let cal' := r1 / tiltSensitivity cfg * maxTiltAngle cfg in
  toGravity cfg (clampTilt cfg (applyDeadZone cfg (t - cal'))) == 0.
Proof.
  intros Hcal Ht r1 cal'.
  assert (Ht1 : t - cal == t) by (rewrite Hcal; ring).
  assert (Hin : Qabs (t - cal) <= maxTiltAngle cfg).
  { rewrite (Qabs_wd _ _ Ht1). exact Ht. }
  apply toGravity_zero. apply clampTilt_zero.
  destruct (applyDeadZone_cases (t - cal)) as [[Hlt E]|[Hge E]].
  - (* inside the dead zone: the offset stays 0 and the reading 0 *)
    assert (Hc : cal' == 0).
    { subst cal' r1. rewrite E. unfold toGravity.
      rewrite (clampTilt_zero 0) by reflexivity. field. split; lra. }
    destruct (applyDeadZone_cases (t - cal')) as [[_ E']|[Hge' E']]; rewrite E';
      [reflexivity|].
    exfalso.
    assert (Hd : Qabs (t - cal') == Qabs (t - cal)).
    { apply Qabs_wd. rewrite Hc, Hcal. reflexivity. }
    rewrite Hd in Hge'. lra.
  - (* outside the dead zone: the offset becomes the reading itself *)
    assert (Hc : cal' == t).
    { subst cal' r1. rewrite E. unfold toGravity.
      rewrite (clampTilt_inside _ Hin). rewrite Ht1. field. split; lra. }
    destruct (applyDeadZone_cases (t - cal')) as [[_ E']|[_ E']]; rewrite E';
      [reflexivity|].
    rewrite Hc. ring.
Qed.

Lemma handle_rawGravity (c : t) (g b : Q) :
  rawGravity (handleDeviceOrientation cfg (mkEvent (Some g) (Some b)) c)
  = mkVec
      (toGravity cfg (clampTilt cfg (applyDeadZone cfg
         ((if isLandscape c then b else g) - vx (calibration c)))))
      (toGravity cfg (clampTilt cfg (applyDeadZone cfg
         ((if isLandscape c then - g else b) - vy (calibration c))))).
Proof.
  unfold handleDeviceOrientation. cbn [gamma beta].
  destruct (method_eqb (activeMethod c) TILT); reflexivity.
Qed.

Lemma handle_keeps_calibration (ev : OrientationEvent) (c : t) :
  calibration (handleDeviceOrientation cfg ev c) = calibration c.
Proof.
  unfold handleDeviceOrientation.
  destruct (gamma ev), (beta ev); try reflexivity.
  destruct (method_eqb (activeMethod c) TILT); reflexivity.
Qed.

(* calibrate() does zero a first reading that the clamp has not cut. *)
Lemma calibrate_zeroes_first_unclamped_reading (c : t) (g b : Q) :
  vx (calibration c) == 0 -> vy (calibration c) == 0 ->
  Qabs g <= maxTiltAngle cfg -> Qabs b <= maxTiltAngle cfg ->
  let ev := mkEvent (Some g) (Some b) in
  let c3 := handleDeviceOrientation cfg ev
              (calibrate cfg (handleDeviceOrientation cfg ev c)) in
  vx (rawGravity c3) == 0 /\ vy (rawGravity c3) == 0.
Proof.
  intros Hcx Hcy Hg Hb ev c3. subst c3 ev.
  set (c1 := handleDeviceOrientation cfg (mkEvent (Some g) (Some b)) c).
  assert (Hr1 : rawGravity c1 = _) by (apply handle_rawGravity).
  assert (Hl2 : isLandscape (calibrate cfg c1) = isLandscape c).
  { unfold calibrate, set_calibration. cbn [isLandscape].
    apply handle_keeps_isLandscape. }
  assert (Hc2 : calibration (calibrate cfg c1)
                = mkVec (vx (rawGravity c1) / tiltSensitivity cfg * maxTiltAngle cfg)
                        (vy (rawGravity c1) / tiltSensitivity cfg * maxTiltAngle cfg))
    by reflexivity.
  rewrite handle_rawGravity. rewrite Hl2, Hc2, Hr1. cbn [vx vy].
  split.
  - apply axis_calibrated; [exact Hcx|].
    destruct (isLandscape c); assumption.
  - apply axis_calibrated; [exact Hcy|].
    destruct (isLandscape c); [rewrite Qabs_opp|]; assumption.
Qed.

End CalibrateFacts.

(** C5. When at least one directional key is held, update() makes the
    keyboard the active source, whatever the source was before, and sets
    each axis of the raw vector to the sum of the unit contributions of
    the held keys (left -1, right +1 on x; up -1, down +1 on y) times the
    sensitivity; with left and right both held the raw x is 0. *)
Theorem update_keyboard_priority :
  forall (cfg : ControlsManager.Config) (c : ControlsManager.t),
    let k := ControlsManager.keys c in
    (ControlsManager.left k || ControlsManager.right k ||
     ControlsManager.up k || ControlsManager.down k)%bool = true ->
    let c' := ControlsManager.update cfg c in
    ControlsManager.activeMethod c' = ControlsManager.KEYBOARD /\
    (ControlsManager.vx (ControlsManager.rawGravity c')
     == ControlsManager.axisUnits (ControlsManager.left k) (ControlsManager.right k)
        * ControlsManager.tiltSensitivity cfg)%Q /\
    (ControlsManager.vy (ControlsManager.rawGravity c')
     == ControlsManager.axisUnits (ControlsManager.up k) (ControlsManager.down k)
        * ControlsManager.tiltSensitivity cfg)%Q /\
    (ControlsManager.left k = true -> ControlsManager.right k = true ->
     (ControlsManager.vx (ControlsManager.rawGravity c') == 0)%Q).
Proof.
  intros cfg c k Hk c'. subst c'.
  unfold ControlsManager.update, ControlsManager.arbitrate.
  fold k. rewrite Hk.
  destruct c as [g r m hd ht cal ini [l rt u d] tc ls].
  cbn in k. subst k. cbn in Hk. cbn.
  split; [|split; [|split]].
  - destruct m; reflexivity.
  - destruct m, l, rt; cbn; unfold ControlsManager.axisUnits; ring.
  - destruct m, u, d; cbn; unfold ControlsManager.axisUnits; ring.
  - intros -> ->. destruct m; cbn; ring.
Qed.

Lemma update_keyboard_priority_witness :
  let c := ControlsManager.set_keys (ControlsManager.mkKeys true true false false)
             ControlsManager.tiltedRight in
  let c' := ControlsManager.update ControlsManager.sampleConfig c in
  ControlsManager.activeMethod c = ControlsManager.TILT /\
  ControlsManager.activeMethod c' = ControlsManager.KEYBOARD /\
  (ControlsManager.vx (ControlsManager.rawGravity c') == 0)%Q.
Proof.
  intros c c'.
  destruct (update_keyboard_priority ControlsManager.sampleConfig c eq_refl)
    as (Ha & _ & _ & Hx).
  split; [reflexivity|]. split; [exact Ha|].
  apply Hx; reflexivity.
Defined.




(** C8. calibrate() does not zero a reading that the clamp has cut.  In
    portrait orientation with no vertical calibration yet, take a sample
    whose beta is at least twice the maximum tilt angle: processing it,
    calling calibrate() and processing the identical sample again leaves
    raw y at the full sensitivity, not at 0.  calibrate() stores the
    clamped, already offset reading (here the maximum tilt angle), not the
    angle of the device. *)
Theorem calibrate_clamped_reading :
  forall (cfg : ControlsManager.Config) (c : ControlsManager.t) (g b : Q),
    (0 < ControlsManager.maxTiltAngle cfg)%Q ->
    (0 < ControlsManager.tiltSensitivity cfg)%Q ->
    (ControlsManager.deadZone cfg <= ControlsManager.maxTiltAngle cfg)%Q ->
    ControlsManager.isLandscape c = false ->
    (ControlsManager.vy (ControlsManager.calibration c) == 0)%Q ->
    (2 * ControlsManager.maxTiltAngle cfg <= b)%Q ->
    let ev := ControlsManager.mkEvent (Some g) (Some b) in
    let c1 := ControlsManager.handleDeviceOrientation cfg ev c in
    let c2 := ControlsManager.calibrate cfg c1 in
    let c3 := ControlsManager.handleDeviceOrientation cfg ev c2 in
    (ControlsManager.vy (ControlsManager.calibration c2)
     == ControlsManager.maxTiltAngle cfg)%Q /\
    (ControlsManager.vy (ControlsManager.rawGravity c3)
     == ControlsManager.tiltSensitivity cfg)%Q /\
    ~ (ControlsManager.vy (ControlsManager.rawGravity c3) == 0)%Q.
Proof.
  intros cfg c g b Hm Hs Hd Hl Hc Hb ev c1 c2 c3.
  set (M := ControlsManager.maxTiltAngle cfg) in *.
  set (S := ControlsManager.tiltSensitivity cfg) in *.
  assert (Hhigh : forall v : Q, (M <= v)%Q ->
            (ControlsManager.toGravity cfg
               (ControlsManager.clampTilt cfg (ControlsManager.applyDeadZone cfg v))
             == S)%Q).
  { intros v Hv. rewrite applyDeadZone_keep.
    - unfold ControlsManager.toGravity. fold M S.
      rewrite clampTilt_high; fold M; try lra.
      field. lra.
    - fold M. rewrite Qabs_pos; lra. }
  assert (Hraw1 : (ControlsManager.vy (ControlsManager.rawGravity c1) == S)%Q).
  { subst c1 ev. rewrite handle_portrait_y by exact Hl.
    apply Hhigh. lra. }
  assert (Hcal2 : (ControlsManager.vy (ControlsManager.calibration c2) == M)%Q).
  { subst c2. unfold ControlsManager.calibrate, ControlsManager.set_calibration.
    cbn [ControlsManager.calibration ControlsManager.vy]. fold M S.
    rewrite Hraw1. field. lra. }
  assert (Hl2 : ControlsManager.isLandscape c2 = false).
  { subst c2 c1. unfold ControlsManager.calibrate, ControlsManager.set_calibration.
    cbn [ControlsManager.isLandscape].
    rewrite handle_keeps_isLandscape. exact Hl. }
  assert (Hraw3 : (ControlsManager.vy (ControlsManager.rawGravity c3) == S)%Q).
  { subst c3 ev. rewrite handle_portrait_y by exact Hl2.
    apply Hhigh. lra. }
  split; [exact Hcal2|]. split; [exact Hraw3|].
  rewrite Hraw3. lra.
Qed.

Lemma calibrate_clamped_reading_witness :
  let ev := ControlsManager.mkEvent (Some 0%Q) (Some 120%Q) in
  let c1 := ControlsManager.handleDeviceOrientation ControlsManager.sampleConfig ev
              ControlsManager.freshPortrait in
  let c2 := ControlsManager.calibrate ControlsManager.sampleConfig c1 in
  let c3 := ControlsManager.handleDeviceOrientation ControlsManager.sampleConfig ev c2 in
  ~ (ControlsManager.vy (ControlsManager.rawGravity c3) == 0)%Q.
Proof.
  intros ev c1 c2 c3.
  refine (proj2 (proj2 (calibrate_clamped_reading ControlsManager.sampleConfig
            ControlsManager.freshPortrait 0%Q 120%Q _ _ _ _ _ _))).
  - reflexivity.
  - reflexivity.
  - vm_compute. discriminate.
  - reflexivity.
  - reflexivity.
  - vm_compute. discriminate.
Defined.

(* The same defect without the clamp: a second calibrate() stores the
   reading relative to the first offset.  After a sample at gamma = 10,
   calibrate(), a sample at gamma = 20 and calibrate() again, the offset
   is 10 instead of 20 and the sample at gamma = 20 still reads 1/3. *)
Lemma recalibrate_keeps_old_offset :
  let cfg := ControlsManager.sampleConfig in
  let ev1 := ControlsManager.mkEvent (Some 10%Q) (Some 0%Q) in
  let ev2 := ControlsManager.mkEvent (Some 20%Q) (Some 0%Q) in
  let c1 := ControlsManager.calibrate cfg
              (ControlsManager.handleDeviceOrientation cfg ev1
                 ControlsManager.freshPortrait) in
  let c2 := ControlsManager.calibrate cfg
              (ControlsManager.handleDeviceOrientation cfg ev2 c1) in
  let c3 := ControlsManager.handleDeviceOrientation cfg ev2 c2 in
  (ControlsManager.vx (ControlsManager.calibration c1) == 10)%Q /\
  (ControlsManager.vx (ControlsManager.calibration c2) == 10)%Q /\
  (ControlsManager.vx (ControlsManager.rawGravity c3) == 1 # 3)%Q.
Proof.
  vm_compute. repeat split; reflexivity.
Qed.

(** C9. An orientation event whose gamma or beta is null is dropped: the
    handler returns the state it was given, so the raw vector, the
    smoothed gravity, the active source and the calibration (and every
    other field) are unchanged. *)
Theorem orientation_without_angle_dropped :
  forall (cfg : ControlsManager.Config) (ev : ControlsManager.OrientationEvent)
         (c : ControlsManager.t),
    ControlsManager.gamma ev = None \/ ControlsManager.beta ev = None ->
    let c' := ControlsManager.handleDeviceOrientation cfg ev c in
    c' = c /\
    ControlsManager.rawGravity c' = ControlsManager.rawGravity c /\
    ControlsManager.gravity c' = ControlsManager.gravity c /\
    ControlsManager.activeMethod c' = ControlsManager.activeMethod c /\
    ControlsManager.calibration c' = ControlsManager.calibration c.
Proof.
  intros cfg [ga be] c H c'. cbn in H.
  assert (E : c' = c).
  { subst c'. unfold ControlsManager.handleDeviceOrientation. cbn.
    destruct H as [-> | ->]; [reflexivity|]. destruct ga; reflexivity. }
  rewrite E. repeat split; reflexivity.
Qed.

Lemma orientation_without_angle_dropped_witness :
  ControlsManager.handleDeviceOrientation ControlsManager.sampleConfig
    (ControlsManager.mkEvent (Some 12%Q) None) ControlsManager.tiltedRight
  = ControlsManager.tiltedRight.
Proof.
  exact (proj1 (orientation_without_angle_dropped ControlsManager.sampleConfig
                  (ControlsManager.mkEvent (Some 12%Q) None)
                  ControlsManager.tiltedRight (or_intror eq_refl))).
Defined.

(** C10. reset() zeroes the gravity vector and the raw vector, releases
    the four keys and clears the touch-active flag; the active source, the
    calibration offset and the recorded touch start and current points
    keep their values (as do the remaining fields). *)
Theorem reset_frame :
  forall c : ControlsManager.t,
    let c' := ControlsManager.reset c in
    ControlsManager.gravity c' = ControlsManager.mkVec 0 0 /\
    ControlsManager.rawGravity c' = ControlsManager.mkVec 0 0 /\
    ControlsManager.keys c' = ControlsManager.mkKeys false false false false /\
    ControlsManager.active (ControlsManager.touch c') = false /\
    ControlsManager.activeMethod c' = ControlsManager.activeMethod c /\
    ControlsManager.calibration c' = ControlsManager.calibration c /\
    ControlsManager.startX (ControlsManager.touch c')
      = ControlsManager.startX (ControlsManager.touch c) /\
    ControlsManager.startY (ControlsManager.touch c')
      = ControlsManager.startY (ControlsManager.touch c) /\
    ControlsManager.currentX (ControlsManager.touch c')
      = ControlsManager.currentX (ControlsManager.touch c) /\
    ControlsManager.currentY (ControlsManager.touch c')
      = ControlsManager.currentY (ControlsManager.touch c) /\
    ControlsManager.hasDeviceOrientation c' = ControlsManager.hasDeviceOrientation c /\
    ControlsManager.hasTouch c' = ControlsManager.hasTouch c /\
    ControlsManager.initialized c' = ControlsManager.initialized c /\
    ControlsManager.isLandscape c' = ControlsManager.isLandscape c.
Proof.
  intros c. destruct c as [g r m hd ht cal ini k [ta sx sy cx cy] ls].
  cbn. repeat split; reflexivity.
Qed.


(* --------------------------------------------------------------------- *)
(*  MazeGenerator: the properties of the specification                     *)
(* --------------------------------------------------------------------- *)

(** C1. For every level from 1 on (in particular 1..10), every canvas size
    and every seed, init does not exhaust the recursion budget and stays
    inside the model; and whenever it returns a maze, the maze has an Entry
    cell, five exit columns whose bottom cells are Exit cells, and a flood
    fill over the Path, Entry and Exit cells that starts at an Entry cell
    reaches every Exit cell. *)
Theorem exits_reached_from_entry :
  forall (zh : Q) (level : Z) (cw ch : Q) (now : float),
    (1 <= level)%Z ->
    MazeGenerator.init zh level cw ch now <> Outcome.OutOfFuel /\
    MazeGenerator.init zh level cw ch now <> Outcome.Unmodelled /\
    forall m : MazeGenerator.t,
      MazeGenerator.init zh level cw ch now = Outcome.Done m ->
      let g := MazeGenerator.grid m in
      MazeGenerator.cellAt g (MazeGenerator.cols m / 2) 0
        = Some MazeGenerator.ENTRY /\
      List.length (MazeGenerator.exitColumns m) = 5%nat /\
      (forall c, In c (MazeGenerator.exitColumns m) ->
         MazeGenerator.cellAt g c (MazeGenerator.rows m - 1)
           = Some MazeGenerator.EXIT) /\
      (forall e x : Z * Z,
         MazeGenerator.cellAt g (fst e) (snd e) = Some MazeGenerator.ENTRY ->
         MazeGenerator.cellAt g (fst x) (snd x) = Some MazeGenerator.EXIT ->
         MazeGenerator.floodReach g e x).
Proof.
  intros zh level cw ch now Hl.
  destruct (init_total zh level cw ch now ltac:(lia)) as [Hf Hu].
  split; [exact Hf|]. split; [exact Hu|].
  intros m Hm g.
  destruct (init_Done zh level cw ch now m Hm)
    as (_ & _ & _ & _ & _ & _ & Hinv & Hlen).
  destruct Hinv as (Hwf & Hconn & _ & Hentry & Huniq & Hcs).
  split; [exact Hentry|]. split; [exact Hlen|].
  split; [intros c Hc; apply (Hcs c Hc)|].
  intros e x He Hx.
  assert (Ee : e = ((MazeGenerator.cols m / 2)%Z, 0%Z)).
  { destruct e as [ex ey]. apply Huniq. exact He. }
  rewrite Ee. apply Hconn.
  exists MazeGenerator.EXIT. split; [exact Hx | discriminate].
Qed.

Lemma exits_reached_from_entry_witness :
  match MazeGenerator.init 60 1 800 600 1700000000000%float with
  | Outcome.Done m =>
      forall c, In c (MazeGenerator.exitColumns m) ->
        MazeGenerator.floodReach (MazeGenerator.grid m)
          ((MazeGenerator.cols m / 2)%Z, 0%Z) (c, (MazeGenerator.rows m - 1)%Z)
  | _ => False
  end.
Proof.
  destruct (exits_reached_from_entry 60 1 800 600 1700000000000%float
              ltac:(lia)) as (_ & _ & H).
  destruct (MazeGenerator.init 60 1 800 600 1700000000000%float) as [m| | |] eqn:E;
    try (vm_compute in E; discriminate).
  destruct (H m eq_refl) as (Hentry & _ & Hexit & Hreach).
  intros c Hc. apply Hreach; cbn [fst snd].
  - exact Hentry.
  - apply Hexit. exact Hc.
Defined.



(** C3. In every maze that init returns there are 5 exit zones; the first
    starts at x = 0, each next zone starts where the previous one ends,
    the last one ends at the maze pixel width, no zone reaches into a
    later one, every zone has positive width, and the widths add up to
    the maze pixel width. *)
Theorem exit_zones_tile_width :
  forall (zh : Q) (level : Z) (cw ch : Q) (now : float) (m : MazeGenerator.t),
    MazeGenerator.init zh level cw ch now = Outcome.Done m ->
    let zs := MazeGenerator.exitZones m in
    let W := inject_Z (MazeGenerator.width m) in
    List.length zs = 5%nat /\
    (forall z, nth_error zs 0 = Some z -> (MazeGenerator.zoneX z == 0)%Q) /\
    (forall i z z',
       nth_error zs i = Some z -> nth_error zs (S i) = Some z' ->
       (MazeGenerator.zoneX z'
        == MazeGenerator.zoneX z + MazeGenerator.zoneWidth z)%Q) /\
    (forall z, nth_error zs 4 = Some z ->
       (MazeGenerator.zoneX z + MazeGenerator.zoneWidth z == W)%Q) /\
    (forall i j z z',
       (i < j)%nat -> nth_error zs i = Some z -> nth_error zs j = Some z' ->
       (MazeGenerator.zoneX z + MazeGenerator.zoneWidth z
        <= MazeGenerator.zoneX z')%Q) /\
    (forall z, In z zs -> (0 < MazeGenerator.zoneWidth z)%Q) /\
    (fold_right (fun z acc => MazeGenerator.zoneWidth z + acc)%Q 0%Q zs == W)%Q.
Proof.
  intros zh level cw ch now m Hm zs W.
  destruct (init_Done zh level cw ch now m Hm)
    as (Hc & Hr & Hcs & Hw & _ & Hz & _ & _).
  assert (HW : (0 < W)%Q).
  { subst W. change 0%Q with (inject_Z 0). rewrite <- Zlt_Qlt. nia. }
  subst zs. rewrite Hz. fold W.
  split; [reflexivity|].
  split.
  { intros z Hz0. apply buildExitZones_nth in Hz0.
    destruct Hz0 as (_ & Hx & _). rewrite Hx. fold W.
    change (inject_Z (Z.of_nat 0)) with 0%Q. ring. }
  split.
  { intros i z z' Hi Hi'.
    apply buildExitZones_nth in Hi. apply buildExitZones_nth in Hi'.
    destruct Hi as (_ & Hx & Hwd & _). destruct Hi' as (_ & Hx' & _).
    rewrite Hx, Hx', Hwd. fold W.
    rewrite Nat2Z.inj_succ. unfold Z.succ. rewrite inject_Z_plus.
    change (inject_Z 1) with 1%Q. field. }
  split.
  { intros z H4. apply buildExitZones_nth in H4.
    destruct H4 as (_ & Hx & Hwd & _). rewrite Hx, Hwd. fold W.
    change (inject_Z (Z.of_nat 4)) with 4%Q. field. }
  split.
  { intros i j z z' Hij Hi Hj.
    apply buildExitZones_nth in Hi. apply buildExitZones_nth in Hj.
    destruct Hi as (_ & Hx & Hwd & _). destruct Hj as (_ & Hx' & _).
    rewrite Hx, Hx', Hwd. fold W.
    assert (Hle : (inject_Z (Z.of_nat i) + 1 <= inject_Z (Z.of_nat j))%Q).
    { change 1%Q with (inject_Z 1). rewrite <- inject_Z_plus.
      rewrite <- Zle_Qle. lia. }
    assert (H5 : (0 < W / 5)%Q) by (apply Qlt_shift_div_l; lra).
    assert (Hm1 : ((inject_Z (Z.of_nat i) + 1) * (W / 5)
                   <= inject_Z (Z.of_nat j) * (W / 5))%Q).
    { apply Qmult_le_compat_r; [exact Hle | lra]. }
    lra. }
  split.
  { intros z Hin. apply In_nth_error in Hin. destruct Hin as [i Hi].
    apply buildExitZones_nth in Hi. destruct Hi as (_ & _ & Hwd & _).
    rewrite Hwd. fold W. apply Qlt_shift_div_l; lra. }
  unfold MazeGenerator.buildExitZones. cbn [seq map fold_right MazeGenerator.zoneWidth].
  fold W. field.
Qed.

Lemma exit_zones_tile_width_witness :
  match MazeGenerator.init 60 1 800 600 1700000000000%float with
  | Outcome.Done m =>
      (fold_right (fun z acc => MazeGenerator.zoneWidth z + acc)%Q 0%Q
                  (MazeGenerator.exitZones m)
       == inject_Z (MazeGenerator.width m))%Q
  | _ => False
  end.
Proof.
  destruct (MazeGenerator.init 60 1 800 600 1700000000000%float) as [m| | |] eqn:E;
    try (vm_compute in E; discriminate).
  exact (proj2 (proj2 (proj2 (proj2 (proj2 (proj2
           (exit_zones_tile_width 60 1 800 600 1700000000000%float m E))))))).
Defined.

(* ===================================================================== *)
(*  PART III.  FURTHER PROPERTIES OF THE CODE                              *)
(* ===================================================================== *)

(* --------------------------------------------------------------------- *)
(*  SeededRandom: the state after a call, and shuffle as a permutation   *)
(* --------------------------------------------------------------------- *)

Section SwapFacts.
Context {A : Type}.
Import JsArray.

(* Exchanging two elements of a list permutes it. *)
Lemma listSet_swap_Permutation (i n : nat) (a b : A) (l : list A) :
  nth_error l i = Some a -> nth_error l n = Some b ->
  Permutation l (listSet n a (listSet i b l)).
Proof.
  intros Ha Hb.
  assert (Hi : (i < List.length l)%nat) by (apply nth_error_Some; congruence).
  assert (Hn : (n < List.length l)%nat) by (apply nth_error_Some; congruence).
  apply Permutation_nth_error_bis.
  exists (fun k => if Nat.eqb k i then n else if Nat.eqb k n then i else k).
  split; [|split].
  - intros x y.
    destruct (Nat.eqb_spec x i); destruct (Nat.eqb_spec y i);
      destruct (Nat.eqb_spec x n); destruct (Nat.eqb_spec y n); lia.
  - intros x Hx.
    destruct (Nat.eqb_spec x i); destruct (Nat.eqb_spec x n); lia.
  - intros k.
    destruct (Nat.eq_dec k n) as [->|Hkn].
    + rewrite nth_error_listSet_eq by (rewrite listSet_length; exact Hn).
      destruct (Nat.eqb_spec n i) as [->|Hni].
      * congruence.
      * rewrite Nat.eqb_refl. symmetry. exact Ha.
    + rewrite nth_error_listSet_ne by congruence.
      destruct (Nat.eqb_spec k i) as [->|Hki].
      * rewrite nth_error_listSet_eq by exact Hi. symmetry. exact Hb.
      * rewrite nth_error_listSet_ne by congruence.
        destruct (Nat.eqb_spec k n); [contradiction | reflexivity].
Qed.

End SwapFacts.

Section ShufflePermFacts.
Context {A : Type}.
Variable l : list A.
Import JsArray.

(* One exchange keeps the array a rearrangement of the input, or leaves
   an undefined item at an index the loop has still to visit or has
   passed. *)
Lemma exchange_permutes (i' : nat) (j : float) (arr : JsArray.t A) :
  let i := S i' in
  (i < List.length (items arr))%nat ->
  (props arr = [] /\ Permutation (map Some l) (items arr)) \/ holeAbove i arr ->
  let arr' := set j (getAt i arr) (setAt i (get j arr) arr) in
  (props arr' = [] /\ Permutation (map Some l) (items arr')) \/ holeAbove i' arr'.
Proof.
  intros i Hi Hinv arr'.
  assert (Hi1 : forall v, (i < List.length (items (setAt i v arr)))%nat).
  { intros v. eapply Nat.lt_le_trans; [exact Hi | apply setAt_length]. }
  destruct Hinv as [[Hp Hperm]|Hhole].
  - destruct (JsNum.arrayIndex j) as [n|] eqn:Ej.
    + destruct (Nat.ltb_spec n (List.length (items arr))) as [Hn|Hn].
      * left. subst arr'. unfold set, get. rewrite Ej. split.
        { rewrite !setAt_props. exact Hp. }
        destruct (nth_error (items arr) i) as [a|] eqn:Ea;
          [|apply nth_error_None in Ea; lia].
        destruct (nth_error (items arr) n) as [b|] eqn:Eb;
          [|apply nth_error_None in Eb; lia].
        eapply Permutation_trans; [exact Hperm|].
        unfold getAt. rewrite Ea, Eb.
        unfold setAt at 2.
        destruct (Nat.ltb_spec i (List.length (items arr))) as [_|?]; [|lia].
        unfold setAt. cbn [items props].
        rewrite listSet_length.
        destruct (Nat.ltb_spec n (List.length (items arr))) as [_|?]; [|lia].
        cbn [items]. apply listSet_swap_Permutation; assumption.
      * right. exists i. split; [unfold i; lia|].
        subst arr'. unfold set, get. rewrite Ej.
        assert (Hg : getAt n arr = None).
        { unfold getAt. destruct (nth_error (items arr) n) eqn:E; [|reflexivity].
          assert (n < List.length (items arr))%nat by (apply nth_error_Some; congruence).
          lia. }
        rewrite Hg.
        rewrite setAt_other; [| apply Hi1 | lia].
        apply setAt_same. exact Hi.
    + right. exists i. split; [unfold i; lia|].
      subst arr'. unfold set, get. rewrite Ej.
      unfold getProp. rewrite Hp. cbn [find items].
      apply setAt_same. exact Hi.
  - right. destruct Hhole as [p [Hlt Hp]].
    assert (Hpl : (p < List.length (items arr))%nat) by (eapply hole_in_range; eauto).
    assert (Hpi : p <> i) by lia.
    destruct (JsNum.arrayIndex j) as [n|] eqn:Ej.
    + destruct (Nat.eq_dec n p) as [->|Hnp].
      * exists i. split; [unfold i; lia|].
        subst arr'. unfold set, get. rewrite Ej.
        rewrite setAt_other; [| apply Hi1 | lia].
        rewrite setAt_same by exact Hi.
        unfold getAt. rewrite Hp. reflexivity.
      * exists p. split; [lia|].
        subst arr'. rewrite set_other.
        -- rewrite setAt_other; [exact Hp | exact Hpl | exact Hpi].
        -- eapply Nat.lt_le_trans; [exact Hpl | apply setAt_length].
        -- rewrite Ej. congruence.
    + exists p. split; [lia|].
      subst arr'. rewrite set_other.
      * rewrite setAt_other; [exact Hp | exact Hpl | exact Hpi].
      * eapply Nat.lt_le_trans; [exact Hpl | apply setAt_length].
      * rewrite Ej. congruence.
Qed.

Lemma shuffleFrom_permutes (i : nat) :
  forall (arr : JsArray.t A) (r : SeededRandom.t),
    (i < List.length (items arr))%nat \/ i = 0%nat ->
    (props arr = [] /\ Permutation (map Some l) (items arr)) \/ holeAbove i arr ->
    let arr' := fst (SeededRandom.shuffleFrom i arr r) in
    (props arr' = [] /\ Permutation (map Some l) (items arr')) \/ holeAbove 0 arr'.
Proof.
  induction i as [|i' IH]; intros arr r Hi Hinv; cbn [SeededRandom.shuffleFrom].
  - exact Hinv.
  - destruct Hi as [Hi|Hi]; [|discriminate].
    destruct (SeededRandom.nextInt 0 (JsNum.ofZ (Z.of_nat (S i') + 1)) r) as [j r1].
    apply IH.
    + left. eapply Nat.lt_le_trans; [|apply set_length].
      eapply Nat.lt_le_trans; [|apply setAt_length]. lia.
    + apply (exchange_permutes i' j arr Hi Hinv).
Qed.

(* The generator after the loop: one draw per iteration. *)
Lemma shuffleFrom_draws (i : nat) :
  forall (arr : JsArray.t A) (r : SeededRandom.t),
    snd (SeededRandom.shuffleFrom i arr r) = snd (SeededRandom.nextN i r).
Proof.
  induction i as [|i' IH]; intros arr r;
    cbn [SeededRandom.shuffleFrom SeededRandom.nextN].
  - reflexivity.
  - unfold SeededRandom.nextInt.
    destruct (SeededRandom.next r) as [x r1].
    rewrite IH. destruct (SeededRandom.nextN i' r1) as [xs r2]. reflexivity.
Qed.

End ShufflePermFacts.

Section GeneratorProperties.
Import SeededRandom.

(** X1. Whatever the stored seed is (negative, fractional, NaN or infinite
    included), after next() the seed is an integer z with 0 <= z < 2^31,
    and the number returned is that z divided by 2147483647 in binary64. *)
Theorem next_leaves_31_bit_seed :
  forall r : SeededRandom.t,
    exists z : Z,
      (0 <= z < 2 ^ 31)%Z /\
      seed (snd (next r)) = JsNum.ofZ z /\
      fst (next r) = (JsNum.ofZ z / 2147483647)%float.
Proof.
  intros r. unfold next. cbn [fst snd seed]. unfold JsNum.bitAnd.
  change (JsNum.toInt32 2147483647%float) with (Z.ones 31).
  rewrite Z.land_ones by lia.
  eexists. split; [|split; reflexivity].
  apply Z.mod_pos_bound. lia.
Qed.

(** X2. shuffle(array) advances the generator by exactly array.length - 1
    calls of next(); for an empty or one-element array it draws nothing
    and returns an unchanged copy. *)
Theorem shuffle_draws_once_per_swap :
  forall (A : Type) (array : list A) (r : SeededRandom.t),
    snd (shuffle array r) = snd (nextN (List.length array - 1) r) /\
    ((List.length array <= 1)%nat ->
     shuffle array r = (JsArray.ofList array, r)).
Proof.
  intros A array r. split.
  - unfold shuffle. apply shuffleFrom_draws.
  - intros Hlen. unfold shuffle.
    replace (List.length array - 1)%nat with 0%nat by lia. reflexivity.
Qed.

Lemma shuffle_draws_once_per_swap_witness :
  shuffle [7%Z] (mk 42) = (JsArray.ofList [7%Z], mk 42).
Proof.
  apply (proj2 (shuffle_draws_once_per_swap Z [7%Z] (mk 42))).
  cbn [List.length]. lia.
Defined.

(** X3. Whenever the array returned by shuffle has no undefined element, it
    is a permutation of the input: the same length, the same elements
    with the same multiplicities, and no stray non-index property. *)
Theorem shuffle_permutes_when_defined :
  forall (A : Type) (array : list A) (r : SeededRandom.t),
    let result := fst (shuffle array r) in
    (forall o, In o (JsArray.items result) -> o <> None) ->
    JsArray.props result = [] /\
    Permutation (map Some array) (JsArray.items result) /\
    List.length (JsArray.items result) = List.length array.
Proof.
  intros A array r result Hdef.
  assert (H : (JsArray.props result = [] /\
               Permutation (map Some array) (JsArray.items result)) \/
              JsArray.holeAbove 0 result).
  { subst result. unfold shuffle. apply shuffleFrom_permutes.
    - unfold JsArray.ofList. cbn [JsArray.items]. rewrite length_map.
      destruct array; cbn [List.length]; [right; reflexivity | left; lia].
    - left. split; [reflexivity|]. apply Permutation_refl. }
  destruct H as [[Hp Hperm]|[p [_ Hp]]].
  - split; [exact Hp|]. split; [exact Hperm|].
    rewrite <- (Permutation_length Hperm). apply length_map.
  - exfalso. apply (Hdef None); [|reflexivity]. eapply nth_error_In; eauto.
Qed.

Lemma shuffle_permutes_when_defined_witness :
  Permutation (map Some [1; 2; 3; 4]%Z)
    (JsArray.items (fst (shuffle [1; 2; 3; 4]%Z (mk 42)))).
Proof.
  apply (shuffle_permutes_when_defined Z [1; 2; 3; 4]%Z (mk 42)).
  intros o Ho. vm_compute in Ho.
  destruct Ho as [<-|[<-|[<-|[<-|[]]]]]; discriminate.
Defined.

End GeneratorProperties.

(* --------------------------------------------------------------------- *)
(*  MazeGenerator: the layout of the finished grid                       *)
(* --------------------------------------------------------------------- *)

Section PillarFacts.
Import MazeGenerator Outcome.
Local Open Scope Z_scope.
Variables cols rows : Z.

Lemma keepsPillars_refl (g : Grid) : keepsPillars g g.
Proof. intros p _. reflexivity. Qed.

Lemma keepsPillars_trans (g1 g2 g3 : Grid) :
  keepsPillars g1 g2 -> keepsPillars g2 g3 -> keepsPillars g1 g3.
Proof. intros H1 H2 p Hp. rewrite (H2 p Hp). apply H1. exact Hp. Qed.

Lemma keepsPillars_setCell (g g' : Grid) (x y : Z) (v : CellType) :
  Z.odd x = true \/ Z.odd y = true ->
  setCell g x y v = Done g' -> keepsPillars g g'.
Proof.
  intros Hodd Hset [a b] [Ha Hb]. cbn [fst snd] in *.
  eapply cellAt_setCell_other; eauto.
  intros E. inversion E; subst.
  rewrite <- Z.negb_odd in Ha, Hb.
  destruct Hodd as [H|H]; rewrite H in *; discriminate.
Qed.

Lemma carveDirs_keepsPillars
    (rec : Z -> Z -> CarveState -> Outcome.t CarveState) :
  (forall x y st st', Z.odd x = true -> Z.odd y = true ->
     rec x y st = Done st' -> keepsPillars (fst st) (fst st')) ->
  forall (ds : list (option Direction)) (x y : Z) (st st' : CarveState),
    Z.odd x = true -> Z.odd y = true ->
    (forall d, In (Some d) ds -> In d DIRECTIONS) ->
    carveDirs rec cols rows x y ds st = Done st' ->
    keepsPillars (fst st) (fst st').
Proof.
  intros Hrec. induction ds as [|o rest IH]; intros x y st st' Hx Hy Hds Hrun.
  - cbn [carveDirs] in Hrun. inversion Hrun. apply keepsPillars_refl.
  - destruct o as [d|]; cbn [carveDirs] in Hrun; [|discriminate].
    assert (Hd : In d DIRECTIONS) by (apply Hds; left; reflexivity).
    assert (Hrest : forall d', In (Some d') rest -> In d' DIRECTIONS).
    { intros d' H'. apply Hds. right. exact H'. }
    destruct (if (0 <? x + dx d * 2) && (x + dx d * 2 <? cols - 1) &&
                 (0 <? y + dy d * 2) && (y + dy d * 2 <? rows - 1)
              then cellIs (fst st) (x + dx d * 2) (y + dy d * 2) WALL
              else Done false) as [unv| | |]; cbn [bind] in Hrun; try discriminate.
    destruct unv.
    + destruct (setCell (fst st) (x + dx d) (y + dy d) PATH) as [g1| | |] eqn:Hset;
        cbn [bind] in Hrun; try discriminate.
      destruct (rec (x + dx d * 2) (y + dy d * 2) (g1, snd st)) as [st1| | |] eqn:Hr;
        cbn [bind] in Hrun; try discriminate.
      eapply keepsPillars_trans; [|eapply (IH x y st1 st'); eauto].
      eapply keepsPillars_trans.
      * eapply keepsPillars_setCell; [|exact Hset].
        destruct (direction_cases d Hd) as [[E1 E2]|[[E1 E2]|[[E1 E2]|[E1 E2]]]];
          rewrite E1, E2; rewrite ?Z.add_0_r; auto.
      * apply (Hrec _ _ _ _) in Hr; [exact Hr| |].
        -- rewrite (Z.mul_comm (dx d) 2), Z.odd_add_mul_2. exact Hx.
        -- rewrite (Z.mul_comm (dy d) 2), Z.odd_add_mul_2. exact Hy.
    + cbn [bind] in Hrun. eapply (IH x y st st'); eauto.
Qed.

Lemma carve_keepsPillars (fuel : nat) :
  forall (x y : Z) (st st' : CarveState),
    Z.odd x = true -> Z.odd y = true ->
    carve fuel cols rows x y st = Done st' ->
    keepsPillars (fst st) (fst st').
Proof.
  induction fuel as [|f IH]; intros x y st st' Hx Hy Hrun; cbn [carve] in Hrun.
  - discriminate.
  - destruct (setCell (fst st) x y PATH) as [g1| | |] eqn:Hset;
      cbn [bind] in Hrun; try discriminate.
    pose proof (shuffle_spec DIRECTIONS (snd st)) as [Hfrom _].
    destruct (SeededRandom.shuffle DIRECTIONS (snd st)) as [directions r1].
    cbn [fst] in Hfrom.
    eapply keepsPillars_trans.
    + eapply keepsPillars_setCell; [left; exact Hx | exact Hset].
    + apply (carveDirs_keepsPillars (carve f cols rows) IH
               (JsArray.items directions) x y (g1, r1) st' Hx Hy); [|exact Hrun].
      intros d Hd. destruct (Hfrom _ Hd) as [E | [a [Ha E]]]; [discriminate|].
      inversion E. subst. exact Ha.
Qed.

End PillarFacts.

Section LayoutFacts.
Import MazeGenerator Outcome.
Local Open Scope Z_scope.
Variables cols rows : Z.
Hypothesis cols_ge : 3 <= cols.
Hypothesis rows_ge : 3 <= rows.
Hypothesis cols_odd : Z.odd cols = true.
Hypothesis rows_odd : Z.odd rows = true.

(* _generateMaze carves interior cells only and leaves the pillars. *)
Lemma generateMaze_layout (r : SeededRandom.t) (st : CarveState) :
  generateMaze cols rows r = Done st ->
  grows cols rows (allWalls cols rows) (fst st) /\
  keepsPillars (allWalls cols rows) (fst st).
Proof.
  intros Hrun. split.
  - unfold generateMaze in Hrun.
    set (sx := actualStartX cols) in *.
    pose proof (actualStartX_interior cols rows cols_ge rows_ge cols_odd) as Hint.
    fold sx in Hint.
    pose proof (actualStartX_odd cols cols_ge) as Hodd. fold sx in Hodd.
    pose proof (allWalls_wellFormed cols rows) as Hwf0.
    assert (Hs0 : cellAt (allWalls cols rows) sx 1 = Some WALL).
    { destruct (wellFormed_cellAt cols rows _ sx 1 Hwf0) as [c Hc].
      - unfold interior in Hint. cbn [fst snd] in Hint. lia.
      - lia.
      - rewrite Hc. f_equal. eapply cellAt_allWalls; eauto. }
    assert (Hpre : carvePre cols rows (sx, 1) (carveFuel cols rows)
                     (allWalls cols rows) sx 1).
    { unfold carvePre.
      split; [exact Hwf0|].
      split. { intros x y c Hc. left. eapply cellAt_allWalls; eauto. }
      split; [exact Hint|].
      split. { unfold oddCell. cbn [fst snd]. auto. }
      split; [exact Hs0|].
      split.
      { rewrite wallCount_allWalls. unfold carveFuel.
        rewrite Z2Nat.inj_mul by lia. lia. }
      intros g1 Hg1 p Hp.
      destruct (isOpen_setCell_inv _ _ _ _ _ _ Hg1 Hp) as [-> | [c [Hc Hw]]].
      - apply reach_start. exact Hp.
      - exfalso. apply Hw. eapply cellAt_allWalls; eauto. }
    pose proof (carve_spec cols rows (sx, 1) (carveFuel cols rows) sx 1
                  (allWalls cols rows) r Hpre) as Hpost.
    rewrite Hrun in Hpost. unfold carvePost in Hpost.
    destruct Hpost as (_ & _ & Hgrow & _). exact Hgrow.
  - unfold generateMaze in Hrun.
    exact (carve_keepsPillars cols rows (carveFuel cols rows)
             (actualStartX cols) 1 (allWalls cols rows, r) st
             (actualStartX_odd cols cols_ge) eq_refl Hrun).
Qed.

Lemma scanColumns_In (x : Z) : In x (scanColumns cols) <-> 1 <= x <= cols - 2.
Proof.
  unfold scanColumns. rewrite in_map_iff. split.
  - intros [n [<- Hn]]. apply in_seq in Hn. lia.
  - intros Hx. exists (Z.to_nat x). split; [lia|]. apply in_seq. lia.
Qed.

Lemma seq_sorted (n : nat) :
  forall s, StronglySorted Z.lt (map Z.of_nat (seq s n)).
Proof.
  induction n as [|k IH]; intros s; cbn [seq map]; constructor.
  - apply IH.
  - apply Forall_forall. intros x Hx. apply in_map_iff in Hx.
    destruct Hx as [m [<- Hm]]. apply in_seq in Hm. lia.
Qed.

(* The scan keeps the first column at the least distance. *)
Lemma nearestPath_min (g : Grid) (t : Z) (xs : list Z) :
  wellFormed cols rows g ->
  StronglySorted Z.lt xs ->
  forall best : Z * option Z,
    (snd best <> None -> forall x, In x xs -> fst best < x) ->
    exists best',
      nearestPath g rows t xs best = Done best' /\
      (best' = best \/
       In (fst best') xs /\ cellAt g (fst best') (rows - 2) = Some PATH /\
       snd best' = Some (Z.abs (fst best' - t))) /\
      (forall d, snd best = Some d ->
         exists d', snd best' = Some d' /\ d' <= d /\
                    (d' = d -> best' = best)) /\
      (forall x, In x xs -> cellAt g x (rows - 2) = Some PATH ->
         exists d', snd best' = Some d' /\ d' <= Z.abs (x - t) /\
                    (d' = Z.abs (x - t) -> fst best' <= x)).
Proof.
  intros Hwf.
  destruct (wellFormed_rowAt cols rows rows_ge g (rows - 2) Hwf) as [r Hr]; [lia|].
  induction xs as [|x rest IH]; intros Hsort best Hb.
  - exists best. cbn [nearestPath]. split; [reflexivity|].
    split; [left; reflexivity|]. split.
    + intros d Hd. exists d. split; [exact Hd|]. split; [lia|]. reflexivity.
    + intros x [].
  - cbn [nearestPath].
    inversion Hsort as [|? ? Hsort' Hall]; subst.
    rewrite Forall_forall in Hall.
    destruct (cellIs_row g x (rows - 2) PATH r Hr) as [b [Hcell Hbt]].
    rewrite Hcell. cbn [bind].
    destruct b.
    + assert (Hx : cellAt g x (rows - 2) = Some PATH) by (apply Hbt; reflexivity).
      destruct (match snd best with
                | Some m => Z.abs (x - t) <? m
                | None => true
                end) eqn:Ecmp.
      * destruct (IH Hsort' (x, Some (Z.abs (x - t)))) as [b' (Hrun & Hwho & Hk & Hf)].
        { intros _ x' Hx'. cbn [fst]. apply Hall. exact Hx'. }
        destruct (Hk _ eq_refl) as [d' (Hd' & Hle & Heq)].
        exists b'. split; [exact Hrun|]. split.
        { right. destruct Hwho as [-> | (Hin & Hp & Hs)].
          - cbn [fst snd]. split; [left; reflexivity|]. split; [exact Hx|reflexivity].
          - split; [right; exact Hin|]. split; assumption. }
        split.
        { intros d Hd. rewrite Hd in Ecmp. apply Z.ltb_lt in Ecmp.
          exists d'. split; [exact Hd'|]. split; [lia|]. intros E. lia. }
        intros x' [<- | Hin] Hx'.
        -- exists d'. split; [exact Hd'|]. split; [exact Hle|].
           intros E. rewrite (Heq E). cbn [fst]. lia.
        -- exact (Hf x' Hin Hx').
      * assert (Hm : exists m, snd best = Some m /\ m <= Z.abs (x - t)).
        { destruct (snd best) as [m|]; [|discriminate].
          exists m. split; [reflexivity|]. apply Z.ltb_ge. exact Ecmp. }
        destruct Hm as [m [Em Hm]]. clear Ecmp.
        destruct (IH Hsort' best) as [b' (Hrun & Hwho & Hk & Hf)].
        { intros Hs x' Hx'. apply Hb; [exact Hs | right; exact Hx']. }
        destruct (Hk m Em) as [d' (Hd' & Hle & Heq)].
        exists b'. split; [exact Hrun|]. split.
        { destruct Hwho as [-> | (Hin & Hp & Hs)]; [left; reflexivity|].
          right. split; [right; exact Hin|]. split; assumption. }
        split; [exact Hk|].
        intros x' [<- | Hin] Hx'.
        -- exists d'. split; [exact Hd'|]. split; [lia|].
           intros E. assert (E' : d' = m) by lia. rewrite (Heq E').
           apply Z.lt_le_incl. apply Hb; [rewrite Em; discriminate | left; reflexivity].
        -- exact (Hf x' Hin Hx').
    + destruct (IH Hsort' best) as [b' (Hrun & Hwho & Hk & Hf)].
      { intros Hs x' Hx'. apply Hb; [exact Hs | right; exact Hx']. }
      exists b'. split; [exact Hrun|]. split.
      { destruct Hwho as [-> | (Hin & Hp & Hs)]; [left; reflexivity|].
        right. split; [right; exact Hin|]. split; assumption. }
      split; [exact Hk|].
      intros x' [<- | Hin] Hx'.
      * apply Hbt in Hx'. discriminate.
      * exact (Hf x' Hin Hx').
Qed.

(* The column picked for a target is the nearest open one. *)
Lemma nearestPath_nearestOpen (g : Grid) (t : Z) (best : Z * option Z) :
  wellFormed cols rows g ->
  cellAt g 1 (rows - 2) = Some PATH ->
  nearestPath g rows t (scanColumns cols) (t, None) = Done best ->
  nearestOpen cols rows g t (fst best).
Proof.
  intros Hwf Hone Hrun.
  destruct (nearestPath_min g t (scanColumns cols) Hwf (seq_sorted _ _) (t, None))
    as [b' (Hrun' & Hwho & _ & Hf)].
  { intros H. exfalso. apply H. reflexivity. }
  rewrite Hrun in Hrun'. inversion Hrun'. subst b'. clear Hrun'.
  destruct (Hf 1) as [d1 (Hd1 & _)]; [apply scanColumns_In; lia | exact Hone |].
  destruct Hwho as [E | (Hin & Hp & Hs)].
  { rewrite E in Hd1. discriminate. }
  apply scanColumns_In in Hin.
  split; [exact Hin|]. split; [exact Hp|].
  intros x Hx Hpx.
  destruct (Hf x) as [d' (Hd' & Hle & Heq)]; [apply scanColumns_In; exact Hx | exact Hpx |].
  rewrite Hs in Hd'. inversion Hd'. subst d'.
  split; [exact Hle|]. intros E. apply Heq. symmetry. exact E.
Qed.

Lemma nearestOpen_row (g g' : Grid) (t c : Z) :
  (forall x, cellAt g' x (rows - 2) = cellAt g x (rows - 2)) ->
  nearestOpen cols rows g t c -> nearestOpen cols rows g' t c.
Proof.
  intros Hrow (Hc & Hp & Hmin). split; [exact Hc|]. split.
  - rewrite Hrow. exact Hp.
  - intros x Hx Hpx. rewrite Hrow in Hpx. apply Hmin; assumption.
Qed.

(* The loop over the exit positions writes Exit cells in the bottom row,
   below the columns it picks, and nothing else. *)
Lemma placeExits_frame (ps : list Q) :
  forall (g : Grid) (cs : list Z) (g' : Grid) (cs' : list Z),
    wellFormed cols rows g ->
    cellAt g 1 (rows - 2) = Some PATH ->
    placeExits cols rows ps (g, cs) = Done (g', cs') ->
    exists chosen,
      cs' = cs ++ chosen /\
      wellFormed cols rows g' /\
      (forall x y,
         cellAt g' x y =
         if (y =? rows - 1) && existsb (Z.eqb x) chosen
         then Some EXIT else cellAt g x y) /\
      Forall2 (fun pos c => nearestOpen cols rows g (Qfloor (pos * inject_Z cols)) c)
              ps chosen.
Proof.
  induction ps as [|pos rest IH]; intros g cs g' cs' Hwf Hone Hrun.
  - cbn [placeExits] in Hrun. inversion Hrun. subst.
    exists []. split; [rewrite app_nil_r; reflexivity|].
    split; [exact Hwf|].
    split; [|constructor].
    intros x y. cbn [existsb]. rewrite andb_false_r. reflexivity.
  - cbn [placeExits fst snd] in Hrun.
    set (t := Qfloor (pos * inject_Z cols)) in *.
    destruct (nearestPath g rows t (scanColumns cols) (t, None))
      as [best| | |] eqn:Hscan; cbn [bind] in Hrun; try discriminate.
    pose proof (nearestPath_nearestOpen g t best Hwf Hone Hscan) as Hnear.
    destruct (setCell g (fst best) (rows - 1) EXIT) as [g1| | |] eqn:Hset;
      cbn [bind] in Hrun; try discriminate.
    assert (Hrow : forall x, cellAt g1 x (rows - 2) = cellAt g x (rows - 2)).
    { intros x. eapply cellAt_setCell_other; eauto.
      intros E. inversion E. lia. }
    destruct (IH g1 (cs ++ [fst best]) g' cs') as (chosen & Hcs & Hwf' & Hcell & Hall).
    { eapply setCell_wellFormed; eauto. }
    { rewrite Hrow. exact Hone. }
    { exact Hrun. }
    exists (fst best :: chosen).
    split; [rewrite Hcs, <- app_assoc; reflexivity|].
    split; [exact Hwf'|].
    split.
    + intros x y. rewrite Hcell. cbn [existsb].
      rewrite (cellAt_setCell _ _ _ _ _ Hset).
      destruct (y =? rows - 1); destruct (x =? fst best);
        destruct (existsb (Z.eqb x) chosen); reflexivity.
    + constructor; [exact Hnear|].
      eapply Forall2_impl; [|exact Hall].
      intros a b Hab. cbv beta in Hab.
      destruct Hab as (Hc & Hp & Hmin). split; [exact Hc|]. split.
      * rewrite <- Hrow. exact Hp.
      * intros x Hx Hpx. rewrite <- Hrow in Hpx. apply Hmin; assumption.
Qed.

(* What _createEntryAndExits changes of a carved grid. *)
Lemma createEntryAndExits_frame (g g' : Grid) (cs : list Z) :
  fullyCarved cols rows g ->
  createEntryAndExits cols rows g = Done (g', cs) ->
  (forall x y,
     cellAt g' x y =
     if (x =? cols / 2) && (y =? 0) then Some ENTRY
     else if (x =? cols / 2) && (y =? 1) then Some PATH
     else if (y =? rows - 1) && existsb (Z.eqb x) cs then Some EXIT
     else cellAt g x y) /\
  Forall2 (fun pos c => nearestOpen cols rows g' (Qfloor (pos * inject_Z cols)) c)
          exitPositions cs.
Proof.
  intros (Hwf & _ & _ & _ & Hall) Hrun.
  unfold createEntryAndExits in Hrun.
  set (cx := cols / 2) in *.
  destruct (setCell g cx 0 ENTRY) as [g1| | |] eqn:Hg1; cbn [bind] in Hrun;
    try discriminate.
  destruct (setCell g1 cx 1 PATH) as [g2| | |] eqn:Hg2; cbn [bind] in Hrun;
    try discriminate.
  destruct (placeExits cols rows exitPositions (g2, [])) as [st| | |] eqn:Hpl;
    cbn [bind] in Hrun; try discriminate.
  destruct st as [g3 cs3]. cbn [fst snd] in Hrun.
  assert (Hwf2 : wellFormed cols rows g2).
  { eapply setCell_wellFormed; eauto. eapply setCell_wellFormed; eauto. }
  assert (Hone2 : cellAt g2 1 (rows - 2) = Some PATH).
  { rewrite (cellAt_setCell _ _ _ _ _ Hg2).
    destruct ((1 =? cx) && (rows - 2 =? 1)); [reflexivity|].
    rewrite (cellAt_setCell_other _ _ _ _ _ _ _ Hg1).
    - apply Hall.
      + unfold interior. cbn [fst snd]. lia.
      + unfold oddCell. cbn [fst snd]. split; [reflexivity|].
        replace (rows - 2) with (rows + 2 * (-1)) by lia.
        rewrite Z.odd_add_mul_2. exact rows_odd.
    - intros E. inversion E. lia. }
  destruct (placeExits_frame exitPositions g2 [] g3 cs3 Hwf2 Hone2 Hpl)
    as (chosen & Hcs & Hwf3 & Hcell & Hnear).
  cbn [app] in Hcs. subst chosen.
  assert (Hrow : forall x, cellAt g3 x (rows - 2) = cellAt g2 x (rows - 2)).
  { intros x. rewrite Hcell.
    destruct (Z.eqb_spec (rows - 2) (rows - 1)) as [E|E]; [lia|reflexivity]. }
  assert (Hnear3 : Forall2 (fun pos c =>
                      nearestOpen cols rows g3 (Qfloor (pos * inject_Z cols)) c)
                     exitPositions cs3).
  { eapply Forall2_impl; [|exact Hnear].
    intros a b Hab. eapply nearestOpen_row; [exact Hrow | exact Hab]. }
  rewrite (connectExits_skip cols rows g3 cs3 Hwf3) in Hrun.
  - cbn [bind] in Hrun. inversion Hrun. subst g' cs.
    split; [|exact Hnear3].
    intros x y. rewrite Hcell.
    rewrite (cellAt_setCell _ _ _ _ _ Hg2), (cellAt_setCell _ _ _ _ _ Hg1).
    destruct (Z.eqb_spec y (rows - 1)) as [E1|E1];
      destruct (Z.eqb_spec y 0) as [E2|E2];
      destruct (Z.eqb_spec y 1) as [E3|E3];
      destruct (x =? cx); destruct (existsb (Z.eqb x) cs3);
      cbn [andb]; try reflexivity; lia.
  - intros c Hc.
    assert (Hn : exists pos, nearestOpen cols rows g3 (Qfloor (pos * inject_Z cols)) c).
    { clear - Hnear3 Hc. induction Hnear3 as [|a b la lb Hab _ IH]; [destruct Hc|].
      destruct Hc as [<- | Hc]; [exists a; exact Hab | apply IH; exact Hc]. }
    destruct Hn as [pos (_ & Hp & _)]. exact Hp.
Qed.

End LayoutFacts.

Section InitLayoutFacts.
Import MazeGenerator Outcome.
Local Open Scope Z_scope.

(* The fields init computes without the generator. *)
Lemma init_fields (zh : Q) (lvl : Z) (cw ch : Q) (now : float) (m : MazeGenerator.t) :
  init zh lvl cw ch now = Done m ->
  cols m = levelCols lvl /\ rows m = levelRows lvl /\
  cellSize m = fitCellSize zh cw ch (cols m) (rows m) /\
  entryX m = (inject_Z (width m) / 2)%Q /\
  entryY m = (inject_Z (cellSize m) * (3 # 2))%Q /\
  wallRects m = buildWallRects (cellSize m) (grid m) /\
  level m = lvl.
Proof.
  unfold init.
  destruct (generateMaze (levelCols lvl) (levelRows lvl) (SeededRandom.mk now))
    as [st| | |]; cbn [bind]; try discriminate.
  destruct (createEntryAndExits (levelCols lvl) (levelRows lvl) (fst st))
    as [ge| | |]; cbn [bind]; try discriminate.
  intros E. inversion E. subst m. cbn. repeat split; reflexivity.
Qed.

(* The grid init leaves behind, cell by cell, in terms of the grid that
   _generateMaze carved. *)
Lemma init_grid (zh : Q) (lvl : Z) (cw ch : Q) (now : float) (m : MazeGenerator.t) :
  init zh lvl cw ch now = Done m ->
  exists g0,
    fullyCarved (cols m) (rows m) g0 /\
    grows (cols m) (rows m) (allWalls (cols m) (rows m)) g0 /\
    keepsPillars (allWalls (cols m) (rows m)) g0 /\
    (forall x y,
       cellAt (grid m) x y =
       if (x =? cols m / 2) && (y =? 0) then Some ENTRY
       else if (x =? cols m / 2) && (y =? 1) then Some PATH
       else if (y =? rows m - 1) && existsb (Z.eqb x) (exitColumns m) then Some EXIT
       else cellAt g0 x y) /\
    Forall2 (fun pos c =>
               nearestOpen (cols m) (rows m) (grid m)
                           (Qfloor (pos * inject_Z (cols m))) c)
            exitPositions (exitColumns m).
Proof.
  unfold init.
  set (c := levelCols lvl). set (r := levelRows lvl).
  destruct (generateMaze c r (SeededRandom.mk now)) as [st| | |] eqn:Hgen;
    cbn [bind]; try discriminate.
  destruct (generateMaze_Done_dims c r _ st (levelCols_odd lvl)
              (levelRows_odd lvl) Hgen) as [Hc Hr].
  pose proof (generateMaze_spec c r Hc Hr (levelCols_odd lvl)
                (SeededRandom.mk now)) as Hspec.
  rewrite Hgen in Hspec.
  destruct (generateMaze_layout c r Hc Hr (levelCols_odd lvl) _ _ Hgen)
    as [Hgrow Hpil].
  destruct (createEntryAndExits c r (fst st)) as [ge| | |] eqn:Hce;
    cbn [bind]; try discriminate.
  destruct ge as [g' cs].
  destruct (createEntryAndExits_frame c r Hc Hr (levelRows_odd lvl)
              (fst st) g' cs Hspec Hce) as [Hcell Hnear].
  intros E. inversion E. subst m. cbn [grid cols rows exitColumns fst snd].
  exists (fst st).
  split; [exact Hspec|]. split; [exact Hgrow|]. split; [exact Hpil|].
  split; [exact Hcell | exact Hnear].
Qed.

Lemma init_cols_half (zh : Q) (lvl : Z) (cw ch : Q) (now : float) (m : MazeGenerator.t) :
  init zh lvl cw ch now = Done m ->
  cols m = 2 * (cols m / 2) + 1 /\ 0 < cols m / 2 < cols m - 1.
Proof.
  intros Hm.
  destruct (init_Done zh lvl cw ch now m Hm) as (Hc & _).
  destruct (init_fields zh lvl cw ch now m Hm) as (Ec & _).
  pose proof (levelCols_odd lvl) as Ho. rewrite <- Ec in Ho.
  apply Z.odd_spec in Ho. destruct Ho as [k Hk].
  assert (Hd : cols m / 2 = k).
  { rewrite Hk. rewrite Z.add_comm, Z.mul_comm, Z.div_add; [|lia]. reflexivity. }
  rewrite Hd. lia.
Qed.

End InitLayoutFacts.

Section MazeShapeFacts.
Import MazeGenerator Outcome.
Local Open Scope Z_scope.

(* The cells strictly inside the boundary after init. *)
Lemma init_interior_cells (zh : Q) (lvl : Z) (cw ch : Q) (now : float)
    (m : MazeGenerator.t) (x y : Z) :
  init zh lvl cw ch now = Done m ->
  interior (cols m) (rows m) (x, y) ->
  (exists c, cellAt (grid m) x y = Some c /\ (c = WALL \/ c = PATH)) /\
  (oddCell (x, y) -> cellAt (grid m) x y = Some PATH) /\
  (evenCell (x, y) -> cellAt (grid m) x y = Some WALL).
Proof.
  intros Hm [Hx Hy]. cbn [fst snd] in Hx, Hy.
  destruct (init_grid zh lvl cw ch now m Hm)
    as (g0 & (Hwf & Hwp & _ & _ & Hall) & Hgrow & Hpil & Hcell & _).
  destruct (wellFormed_cellAt _ _ g0 x y Hwf) as [c0 Hc0]; [lia|lia|].
  rewrite Hcell.
  destruct (Z.eqb_spec y 0) as [E0|E0]; [lia|]. rewrite andb_false_r.
  destruct (Z.eqb_spec y (rows m - 1)) as [E1|E1]; [lia|]. cbn [andb].
  destruct ((x =? cols m / 2) && (y =? 1)) eqn:Ecx.
  - apply andb_true_iff in Ecx. destruct Ecx as [_ Ey]. apply Z.eqb_eq in Ey.
    split; [exists PATH; auto|]. split; [reflexivity|].
    intros [_ He]. cbn [snd] in He. subst y. discriminate.
  - split; [exists c0; split; [exact Hc0 | eapply Hwp; eauto]|].
    split.
    + intros Ho. apply Hall; [split; assumption | exact Ho].
    + intros He. pose proof (Hpil (x, y) He) as Hk. cbn [fst snd] in Hk.
      rewrite Hk in Hc0. rewrite Hk, Hc0. f_equal.
      eapply cellAt_allWalls; eauto.
Qed.

(* The cells of the outer boundary after init. *)
Lemma init_boundary_cells (zh : Q) (lvl : Z) (cw ch : Q) (now : float)
    (m : MazeGenerator.t) (x y : Z) :
  init zh lvl cw ch now = Done m ->
  0 <= x < cols m -> 0 <= y < rows m ->
  onBoundary (cols m) (rows m) (x, y) ->
  cellAt (grid m) x y =
  Some (if (x =? cols m / 2) && (y =? 0) then ENTRY
        else if (y =? rows m - 1) && existsb (Z.eqb x) (exitColumns m) then EXIT
        else WALL).
Proof.
  intros Hm Hx Hy Hb. unfold onBoundary in Hb. cbn [fst snd] in Hb.
  destruct (init_grid zh lvl cw ch now m Hm)
    as (g0 & (Hwf & _) & Hgrow & _ & Hcell & _).
  destruct (init_Done zh lvl cw ch now m Hm) as (_ & Hr & _).
  destruct (init_cols_half zh lvl cw ch now m Hm) as [_ Hcx].
  rewrite Hcell.
  destruct ((x =? cols m / 2) && (y =? 0)); [reflexivity|].
  destruct ((x =? cols m / 2) && (y =? 1)) eqn:E1.
  { apply andb_true_iff in E1. destruct E1 as [Ex Ey].
    apply Z.eqb_eq in Ex. apply Z.eqb_eq in Ey. lia. }
  destruct ((y =? rows m - 1) && existsb (Z.eqb x) (exitColumns m));
    [reflexivity|].
  destruct (Hgrow x y) as [E | (_ & _ & [Hix Hiy])].
  - rewrite E.
    destruct (wellFormed_cellAt _ _ _ x y (allWalls_wellFormed (cols m) (rows m)) Hx Hy)
      as [c Hc].
    rewrite Hc. f_equal. eapply cellAt_allWalls; eauto.
  - cbn [fst snd] in Hix, Hiy. lia.
Qed.

Lemma Qfloor_tenths (k : positive) (c : Z) :
  Qfloor ((Z.pos k # 10) * inject_Z c) = Z.pos k * c / 10.
Proof.
  unfold Qfloor, Qmult, inject_Z. cbn [Qnum Qden].
  rewrite Pos.mul_1_r. reflexivity.
Qed.

(* With a Path cell at every odd column, the scan stops at the target or
   one column to its left. *)
Lemma nearestOpen_within_one (cols rows : Z) (g : Grid) (t c : Z) :
  1 <= t <= cols - 2 ->
  (forall x, 1 <= x <= cols - 2 -> Z.odd x = true ->
             cellAt g x (rows - 2) = Some PATH) ->
  nearestOpen cols rows g t c ->
  t - 1 <= c <= t /\ 1 <= c <= cols - 2.
Proof.
  intros Ht Hodd (Hc & Hp & Hmin).
  destruct (Z.odd t) eqn:Eo.
  - destruct (Hmin t Ht (Hodd t Ht Eo)) as [H1 _]. lia.
  - assert (Ho : Z.odd (t - 1) = true).
    { rewrite <- Z.negb_even in Eo. apply negb_false_iff in Eo.
      apply Z.even_spec in Eo. destruct Eo as [k Hk].
      apply Z.odd_spec. exists (k - 1). lia. }
    assert (Ht1 : 1 <= t - 1 <= cols - 2).
    { destruct (Z.eq_dec t 1) as [E|E]; [subst t; discriminate | lia]. }
    destruct (Hmin (t - 1) Ht1 (Hodd (t - 1) Ht1 Ho)) as [H1 H2]. lia.
Qed.

(* The maze of level 1 on an 800 x 600 canvas with zone height 60. *)
Lemma sample_maze_dims (now : float) (m : MazeGenerator.t) :
  init 60 1 800 600 now = Done m ->
  cols m = 11 /\ rows m = 13 /\ cellSize m = 38.
Proof.
  intros Hm.
  destruct (init_fields 60 1 800 600 now m Hm) as (Ec & Er & Ecs & _).
  rewrite Ec, Er in Ecs. rewrite Ec, Er, Ecs.
  vm_compute. repeat split; reflexivity.
Qed.

End MazeShapeFacts.

Section DimensionProperties.
Import MazeGenerator Outcome.

(** X4. After init(level, ...) the grid has cols = 11 + 2*floor(level/2) and
    rows = 13 + 2*floor(level/3), both odd (the even-correction branches
    never fire), and width = cols*cellSize, height = rows*cellSize. *)
Theorem grid_dimensions_odd :
  forall (zh : Q) (lvl : Z) (cw ch : Q) (now : float) (m : MazeGenerator.t),
    init zh lvl cw ch now = Done m ->
    (cols m = 11 + 2 * (lvl / 2) /\ rows m = 13 + 2 * (lvl / 3) /\
     Z.odd (cols m) = true /\ Z.odd (rows m) = true /\
     width m = cols m * cellSize m /\ height m = rows m * cellSize m)%Z.
Proof.
  intros zh lvl cw ch now m Hm.
  destruct (init_fields zh lvl cw ch now m Hm) as (Ec & Er & _).
  destruct (init_Done zh lvl cw ch now m Hm) as (_ & _ & _ & Hw & Hh & _).
  split; [rewrite Ec; apply levelCols_eq|].
  split; [rewrite Er; apply levelRows_eq|].
  split; [rewrite Ec; apply levelCols_odd|].
  split; [rewrite Er; apply levelRows_odd|].
  split; assumption.
Qed.

Lemma grid_dimensions_odd_witness :
  match init 60 1 800 600 1700000000000%float with
  | Done m => cols m = 11%Z /\ rows m = 13%Z
  | _ => False
  end.
Proof.
  destruct (init 60 1 800 600 1700000000000%float) as [m| | |] eqn:E;
    try (vm_compute in E; discriminate).
  destruct (grid_dimensions_odd 60 1 800 600 1700000000000%float m E)
    as (Hc & Hr & _).
  split; [exact Hc | exact Hr].
Defined.

(** X5. If a cell size of 20 fits (cols*20 <= canvasWidth - 40 and rows*20
    <= canvasHeight - zoneHeight - 40), cellSize is the largest integer
    that fits; if 20 does not fit, cellSize is 20 and the maze exceeds
    the space reserved for it. *)
Theorem cellSize_largest_fit :
  forall (zh : Q) (lvl : Z) (cw ch : Q) (now : float) (m : MazeGenerator.t),
    init zh lvl cw ch now = Done m ->
    let fits (s : Z) :=
      (inject_Z (cols m * s) <= cw - 40 /\
       inject_Z (rows m * s) <= ch - zh - 40)%Q in
    (fits 20%Z -> fits (cellSize m) /\ ~ fits (cellSize m + 1)%Z) /\
    (~ fits 20%Z -> cellSize m = 20%Z).
Proof.
  intros zh lvl cw ch now m Hm fits.
  destruct (init_fields zh lvl cw ch now m Hm) as (_ & _ & Ecs & _).
  destruct (init_Done zh lvl cw ch now m Hm) as (Hc & Hr & _).
  assert (Hcq : (0 < inject_Z (cols m))%Q).
  { change 0%Q with (inject_Z 0). rewrite <- Zlt_Qlt. lia. }
  assert (Hrq : (0 < inject_Z (rows m))%Q).
  { change 0%Q with (inject_Z 0). rewrite <- Zlt_Qlt. lia. }
  set (a := ((cw - 40) / inject_Z (cols m))%Q).
  set (b := ((ch - zh - 40) / inject_Z (rows m))%Q).
  assert (Hfit : forall s, fits s <-> (inject_Z s <= Qmin a b)%Q).
  { intros s. unfold fits. rewrite Q.min_glb_iff. rewrite !inject_Z_mult.
    subst a b. split; intros [H1 H2]; split.
    - apply Qle_shift_div_l; [exact Hcq|]. rewrite Qmult_comm. exact H1.
    - apply Qle_shift_div_l; [exact Hrq|]. rewrite Qmult_comm. exact H2.
    - apply (Qmult_le_r _ _ (inject_Z (cols m)) Hcq) in H1.
      rewrite Qmult_comm.
      setoid_replace (cw - 40)%Q
        with ((cw - 40) / inject_Z (cols m) * inject_Z (cols m))%Q
        by (field; lra).
      exact H1.
    - apply (Qmult_le_r _ _ (inject_Z (rows m)) Hrq) in H2.
      rewrite Qmult_comm.
      setoid_replace (ch - zh - 40)%Q
        with ((ch - zh - 40) / inject_Z (rows m) * inject_Z (rows m))%Q
        by (field; lra).
      exact H2. }
  unfold fitCellSize in Ecs. fold a b in Ecs.
  pose proof (Qfloor_le (Qmin a b)) as Hlo.
  pose proof (Qlt_floor (Qmin a b)) as Hhi.
  split.
  - intros H20. apply Hfit in H20.
    assert (Hge : (20 <= Qfloor (Qmin a b))%Z) by (apply Qfloor_ge; exact H20).
    assert (E : cellSize m = Qfloor (Qmin a b)) by lia.
    split.
    + apply Hfit. rewrite E. exact Hlo.
    + intros Hf. apply Hfit in Hf. rewrite E in Hf. lra.
  - intros H20. rewrite Ecs. apply Z.max_r.
    destruct (Z.le_gt_cases (Qfloor (Qmin a b)) 20) as [Hle|Hgt]; [exact Hle|].
    exfalso. apply H20. apply Hfit.
    assert (H21 : (inject_Z 21 <= inject_Z (Qfloor (Qmin a b)))%Q).
    { rewrite <- Zle_Qle. lia. }
    assert (H2021 : (inject_Z 20 <= inject_Z 21)%Q) by (rewrite <- Zle_Qle; lia).
    lra.
Qed.

Lemma cellSize_largest_fit_witness :
  match init 60 1 800 600 1700000000000%float with
  | Done m =>
      (inject_Z (cols m * cellSize m) <= 800 - 40 /\
       inject_Z (rows m * cellSize m) <= 600 - 60 - 40)%Q
  | _ => False
  end.
Proof.
  destruct (init 60 1 800 600 1700000000000%float) as [m| | |] eqn:E;
    try (vm_compute in E; discriminate).
  destruct (sample_maze_dims _ m E) as (Hc & Hr & _).
  apply (proj1 (cellSize_largest_fit 60 1 800 600 1700000000000%float m E)).
  rewrite Hc, Hr. split; vm_compute; discriminate.
Defined.

End DimensionProperties.

Section LayoutProperties.
Import MazeGenerator Outcome.

(** X6. After init every cell on the outer boundary of the grid is Wall,
    except the Entry cell at (floor(cols/2), 0) and the Exit cells of
    the bottom row at the columns of exitColumns. *)
Theorem boundary_closed_but_entry_and_exits :
  forall (zh : Q) (lvl : Z) (cw ch : Q) (now : float) (m : MazeGenerator.t)
         (x y : Z),
    init zh lvl cw ch now = Done m ->
    (0 <= x < cols m)%Z -> (0 <= y < rows m)%Z ->
    onBoundary (cols m) (rows m) (x, y) ->
    cellAt (grid m) x y =
    Some (if (x =? cols m / 2)%Z && (y =? 0)%Z then ENTRY
          else if (y =? rows m - 1)%Z && existsb (Z.eqb x) (exitColumns m)
               then EXIT
               else WALL).
Proof.
  intros zh lvl cw ch now m x y Hm Hx Hy Hb.
  apply (init_boundary_cells zh lvl cw ch now m x y Hm Hx Hy Hb).
Qed.

Lemma boundary_closed_but_entry_and_exits_witness :
  match init 60 1 800 600 1700000000000%float with
  | Done m => cellAt (grid m) 0 0 = Some WALL /\ cellAt (grid m) 5 0 = Some ENTRY
  | _ => False
  end.
Proof.
  destruct (init 60 1 800 600 1700000000000%float) as [m| | |] eqn:E;
    try (vm_compute in E; discriminate).
  destruct (sample_maze_dims _ m E) as (Hc & Hr & _).
  split.
  - rewrite (boundary_closed_but_entry_and_exits _ _ _ _ _ m 0 0 E).
    + rewrite Hc, Hr. reflexivity.
    + rewrite Hc. lia.
    + rewrite Hr. lia.
    + left. reflexivity.
  - rewrite (boundary_closed_but_entry_and_exits _ _ _ _ _ m 5 0 E).
    + rewrite Hc. reflexivity.
    + rewrite Hc. lia.
    + rewrite Hr. lia.
    + right. right. left. reflexivity.
Defined.

(** X7. After init every cell strictly inside the boundary is Wall or Path;
    the cells with two odd coordinates are all Path and the cells with
    two even coordinates are all Wall. *)
Theorem interior_rooms_and_pillars :
  forall (zh : Q) (lvl : Z) (cw ch : Q) (now : float) (m : MazeGenerator.t)
         (x y : Z),
    init zh lvl cw ch now = Done m ->
    interior (cols m) (rows m) (x, y) ->
    (exists c, cellAt (grid m) x y = Some c /\ (c = WALL \/ c = PATH)) /\
    (oddCell (x, y) -> cellAt (grid m) x y = Some PATH) /\
    (evenCell (x, y) -> cellAt (grid m) x y = Some WALL).
Proof.
  intros zh lvl cw ch now m x y Hm Hi.
  apply (init_interior_cells zh lvl cw ch now m x y Hm Hi).
Qed.

Lemma interior_rooms_and_pillars_witness :
  match init 60 1 800 600 1700000000000%float with
  | Done m => cellAt (grid m) 3 7 = Some PATH /\ cellAt (grid m) 4 6 = Some WALL
  | _ => False
  end.
Proof.
  destruct (init 60 1 800 600 1700000000000%float) as [m| | |] eqn:E;
    try (vm_compute in E; discriminate).
  destruct (sample_maze_dims _ m E) as (Hc & Hr & _).
  split.
  - apply (interior_rooms_and_pillars _ _ _ _ _ m 3 7 E).
    + unfold interior. rewrite Hc, Hr. cbn [fst snd]. lia.
    + split; reflexivity.
  - apply (interior_rooms_and_pillars _ _ _ _ _ m 4 6 E).
    + unfold interior. rewrite Hc, Hr. cbn [fst snd]. lia.
    + split; reflexivity.
Defined.

(** X8. For each exit position p the recorded exit column c lies in
    1..cols-2, has a Path cell at (c, rows-2) and an Exit cell at (c,
    rows-1), is at the least distance from floor(p*cols) among the
    columns 1..cols-2 with a Path cell in row rows-2, and is the
    leftmost column at that distance. *)
Theorem exits_at_nearest_open_column :
  forall (zh : Q) (lvl : Z) (cw ch : Q) (now : float) (m : MazeGenerator.t),
    init zh lvl cw ch now = Done m ->
    Forall2 (fun pos c =>
               nearestOpen (cols m) (rows m) (grid m)
                           (Qfloor (pos * inject_Z (cols m))) c /\
               cellAt (grid m) c (rows m - 1) = Some EXIT)
            exitPositions (exitColumns m).
Proof.
  intros zh lvl cw ch now m Hm.
  destruct (init_grid zh lvl cw ch now m Hm) as (_ & _ & _ & _ & _ & Hnear).
  destruct (init_Done zh lvl cw ch now m Hm)
    as (_ & _ & _ & _ & _ & _ & (_ & _ & _ & _ & _ & Hcs) & _).
  revert Hcs. induction Hnear as [|pos c ps cs Hpc _ IH]; intros Hcs.
  - constructor.
  - constructor.
    + split; [exact Hpc|]. apply Hcs. left. reflexivity.
    + apply IH. intros c' Hc'. apply Hcs. right. exact Hc'.
Qed.

Lemma exits_at_nearest_open_column_witness :
  match init 60 1 800 600 1700000000000%float with
  | Done m => List.length (exitColumns m) = 5%nat
  | _ => False
  end.
Proof.
  destruct (init 60 1 800 600 1700000000000%float) as [m| | |] eqn:E;
    try (vm_compute in E; discriminate).
  rewrite <- (Forall2_length
                (exits_at_nearest_open_column _ _ _ _ _ m E)).
  reflexivity.
Defined.

(** X9. For level >= 0 the five exit columns are strictly increasing (so all
    distinct), lie in 1..cols-2, and each is its target column
    floor(p*cols) or the column to the left of it. *)
Theorem exit_columns_increasing :
  forall (zh : Q) (lvl : Z) (cw ch : Q) (now : float) (m : MazeGenerator.t),
    (0 <= lvl)%Z ->
    init zh lvl cw ch now = Done m ->
    (exists c1 c2 c3 c4 c5,
       exitColumns m = [c1; c2; c3; c4; c5] /\
       1 <= c1 /\ c1 < c2 /\ c2 < c3 /\ c3 < c4 /\ c4 < c5 /\ c5 <= cols m - 2)%Z /\
    Forall2 (fun pos c =>
               let t := Qfloor (pos * inject_Z (cols m)) in (t - 1 <= c <= t)%Z)
            exitPositions (exitColumns m).
Proof.
  intros zh lvl cw ch now m Hl Hm.
  destruct (init_grid zh lvl cw ch now m Hm) as (_ & _ & _ & _ & _ & Hnear).
  destruct (init_fields zh lvl cw ch now m Hm) as (Ec & Er & _).
  pose proof (levelCols_ge lvl Hl) as Hc. rewrite <- Ec in Hc.
  pose proof (levelRows_ge lvl Hl) as Hr. rewrite <- Er in Hr.
  pose proof (levelRows_odd lvl) as Hro. rewrite <- Er in Hro.
  assert (Hodd : forall x, (1 <= x <= cols m - 2)%Z -> Z.odd x = true ->
                           cellAt (grid m) x (rows m - 2) = Some PATH).
  { intros x Hx Ho.
    apply (init_interior_cells zh lvl cw ch now m x (rows m - 2) Hm).
    - unfold interior. cbn [fst snd]. lia.
    - split; cbn [fst snd]; [exact Ho|].
      replace (rows m - 2)%Z with (rows m + 2 * (-1))%Z by lia.
      rewrite Z.odd_add_mul_2. exact Hro. }
  unfold exitPositions in *.
  inversion Hnear as [|p1 c1 ps1 l1 N1 R1]; subst.
  inversion R1 as [|p2 c2 ps2 l2 N2 R2]; subst.
  inversion R2 as [|p3 c3 ps3 l3 N3 R3]; subst.
  inversion R3 as [|p4 c4 ps4 l4 N4 R4]; subst.
  inversion R4 as [|p5 c5 ps5 l5 N5 R5]; subst.
  inversion R5; subst.
  rewrite Qfloor_tenths in N1, N2, N3, N4, N5.
  apply nearestOpen_within_one in N1; [|Z.div_mod_to_equations; lia|exact Hodd].
  apply nearestOpen_within_one in N2; [|Z.div_mod_to_equations; lia|exact Hodd].
  apply nearestOpen_within_one in N3; [|Z.div_mod_to_equations; lia|exact Hodd].
  apply nearestOpen_within_one in N4; [|Z.div_mod_to_equations; lia|exact Hodd].
  apply nearestOpen_within_one in N5; [|Z.div_mod_to_equations; lia|exact Hodd].
  split.
  - exists c1, c2, c3, c4, c5. split; [reflexivity|].
    Z.div_mod_to_equations. lia.
  - repeat constructor; cbv zeta; rewrite Qfloor_tenths; lia.
Qed.

Lemma exit_columns_increasing_witness :
  match init 60 1 800 600 1700000000000%float with
  | Done m => NoDup (exitColumns m)
  | _ => False
  end.
Proof.
  destruct (init 60 1 800 600 1700000000000%float) as [m| | |] eqn:E;
    try (vm_compute in E; discriminate).
  destruct (exit_columns_increasing 60 1 800 600 1700000000000%float m
              ltac:(lia) E) as [(c1 & c2 & c3 & c4 & c5 & Hcs & H) _].
  rewrite Hcs.
  repeat (constructor; [cbn [In]; lia|]). constructor.
Defined.

End LayoutProperties.

(* --------------------------------------------------------------------- *)
(*  MazeGenerator: wall rectangles and the entry point                   *)
(* --------------------------------------------------------------------- *)

Section WallRectFacts.
Import MazeGenerator Outcome.
Local Open Scope Z_scope.

Lemma in_combine_seq {A : Type} (l : list A) :
  forall (s i : nat) (a : A),
    In (i, a) (combine (seq s (List.length l)) l) <->
    (s <= i)%nat /\ nth_error l (i - s) = Some a.
Proof.
  induction l as [|b rest IH]; intros s i a; cbn [List.length seq combine In].
  - split; [intros [] | intros [_ H]]. destruct (i - s)%nat; discriminate.
  - rewrite IH. split.
    + intros [E | [Hs Hn]].
      * inversion E. subst. split; [lia|]. rewrite Nat.sub_diag. reflexivity.
      * split; [lia|]. replace (i - s)%nat with (S (i - S s)) by lia. exact Hn.
    + intros [Hs Hn]. destruct (Nat.eq_dec i s) as [->|Hne].
      * left. rewrite Nat.sub_diag in Hn. inversion Hn. reflexivity.
      * right. split; [lia|].
        replace (i - s)%nat with (S (i - S s)) in Hn by lia. exact Hn.
Qed.

Lemma cellAt_nth (g : Grid) (x y : nat) (c : CellType) :
  cellAt g (Z.of_nat x) (Z.of_nat y) = Some c <->
  exists row, nth_error g y = Some row /\ nth_error row x = Some c.
Proof.
  unfold cellAt, rowAt.
  destruct (Z.ltb_spec (Z.of_nat y) 0) as [?|_]; [lia|].
  destruct (Z.ltb_spec (Z.of_nat x) 0) as [?|_]; [lia|].
  rewrite !Nat2Z.id.
  destruct (nth_error g y) as [row|].
  - split; [intros H; exists row; auto | intros [row' [E H]]; inversion E; subst; exact H].
  - split; [discriminate | intros [row' [E _]]; discriminate].
Qed.

(* One rectangle per Wall cell, at the pixel position of the cell. *)
Lemma buildWallRects_In (cs : Z) (g : Grid) (r : WallRect) :
  In r (buildWallRects cs g) <->
  exists x y, 0 <= x /\ 0 <= y /\ cellAt g x y = Some WALL /\
              r = mkRect (x * cs) (y * cs) cs cs true.
Proof.
  unfold buildWallRects. rewrite in_concat. split.
  - intros [rs [Hrs Hr]]. apply in_map_iff in Hrs.
    destruct Hrs as [[y row] [<- Hy]]. cbn [fst snd] in Hr.
    apply in_combine_seq in Hy. destruct Hy as [_ Hy]. rewrite Nat.sub_0_r in Hy.
    apply in_concat in Hr. destruct Hr as [rs' [Hrs' Hr]].
    apply in_map_iff in Hrs'. destruct Hrs' as [[x c] [<- Hx]].
    cbn [fst snd] in Hr.
    apply in_combine_seq in Hx. destruct Hx as [_ Hx]. rewrite Nat.sub_0_r in Hx.
    destruct (cell_eqb c WALL) eqn:Ec; [|destruct Hr].
    apply cell_eqb_eq in Ec. subst c.
    destruct Hr as [<- | []].
    exists (Z.of_nat x), (Z.of_nat y). split; [lia|]. split; [lia|].
    split; [|reflexivity]. apply cellAt_nth. exists row. auto.
  - intros (x & y & Hx & Hy & Hc & ->).
    rewrite <- (Z2Nat.id x Hx), <- (Z2Nat.id y Hy) in Hc.
    apply cellAt_nth in Hc. destruct Hc as [row [Hrow Hcell]].
    exists (List.concat
              (map (fun xc : nat * CellType =>
                      if cell_eqb (snd xc) WALL
                      then [mkRect (Z.of_nat (fst xc) * cs)
                                   (Z.of_nat (Z.to_nat y) * cs) cs cs true]
                      else [])
                   (combine (seq 0 (List.length row)) row))).
    split.
    + apply in_map_iff. exists (Z.to_nat y, row). split; [reflexivity|].
      apply in_combine_seq. split; [lia|]. rewrite Nat.sub_0_r. exact Hrow.
    + apply in_concat.
      exists [mkRect (Z.of_nat (Z.to_nat x) * cs) (Z.of_nat (Z.to_nat y) * cs)
                     cs cs true].
      split.
      * apply in_map_iff. exists (Z.to_nat x, WALL). split; [reflexivity|].
        apply in_combine_seq. split; [lia|]. rewrite Nat.sub_0_r. exact Hcell.
      * left. rewrite !Z2Nat.id by assumption. reflexivity.
Qed.

Lemma rowRects_length (cs py : Z) (row : list CellType) :
  forall s,
    List.length
      (List.concat
         (map (fun xc : nat * CellType =>
                 if cell_eqb (snd xc) WALL
                 then [mkRect (Z.of_nat (fst xc) * cs) py cs cs true]
                 else [])
              (combine (seq s (List.length row)) row)))
    = countWalls row.
Proof.
  unfold countWalls.
  induction row as [|c rest IH]; intros s; cbn [List.length seq combine map List.concat filter].
  - reflexivity.
  - rewrite length_app, IH. cbn [snd].
    destruct (cell_eqb c WALL); reflexivity.
Qed.

Lemma gridRects_length (cs : Z) (g : Grid) :
  forall s,
    List.length
      (List.concat
         (map (fun yr : nat * list CellType =>
                 List.concat
                   (map (fun xc : nat * CellType =>
                           if cell_eqb (snd xc) WALL
                           then [mkRect (Z.of_nat (fst xc) * cs)
                                        (Z.of_nat (fst yr) * cs)
                                        cs cs true]
                           else [])
                        (combine (seq 0 (List.length (snd yr))) (snd yr))))
              (combine (seq s (List.length g)) g)))
    = wallCount g.
Proof.
  induction g as [|row rest IH]; intros s;
    cbn [List.length seq combine map List.concat wallCount fold_right].
  - reflexivity.
  - rewrite length_app. cbn [fst snd]. rewrite rowRects_length.
    f_equal. apply IH.
Qed.

(* As many rectangles as Wall cells. *)
Lemma buildWallRects_length (cs : Z) (g : Grid) :
  List.length (buildWallRects cs g) = wallCount g.
Proof. apply gridRects_length. Qed.

End WallRectFacts.

Section PixelFacts.
Import MazeGenerator Outcome.
Local Open Scope Q_scope.

Lemma cellAt_nonneg (g : Grid) (x y : Z) (c : CellType) :
  cellAt g x y = Some c -> (0 <= x /\ 0 <= y)%Z.
Proof.
  unfold cellAt, rowAt.
  destruct (Z.ltb_spec y 0) as [?|?]; [discriminate|].
  destruct (nth_error g (Z.to_nat y)); [|discriminate].
  destruct (Z.ltb_spec x 0) as [?|?]; [discriminate|]. intros _. lia.
Qed.

(* A pixel coordinate lies in the cell its quotient by the cell size
   names. *)
Lemma cell_of_pixel (x : Q) (cs : Z) :
  (0 < cs)%Z ->
  inject_Z (Qfloor (x / inject_Z cs) * cs) <= x /\
  x < inject_Z ((Qfloor (x / inject_Z cs) + 1) * cs).
Proof.
  intros Hcs.
  assert (Hq : 0 < inject_Z cs).
  { change 0 with (inject_Z 0). rewrite <- Zlt_Qlt. exact Hcs. }
  pose proof (Qfloor_le (x / inject_Z cs)) as Hlo.
  pose proof (Qlt_floor (x / inject_Z cs)) as Hhi.
  assert (Ex : x == x / inject_Z cs * inject_Z cs) by (field; lra).
  rewrite !inject_Z_mult. split.
  - rewrite Ex at 2. apply Qmult_le_compat_r; [exact Hlo | lra].
  - rewrite Ex at 1. apply Qmult_lt_compat_r; [exact Hq | exact Hhi].
Qed.

(* isWall at a point inside the maze reads the cell of the point. *)
Lemma isWall_inside (zh : Q) (lvl : Z) (cw ch : Q) (now : float)
    (m : MazeGenerator.t) (x y : Q) :
  init zh lvl cw ch now = Done m ->
  0 <= x -> x < inject_Z (width m) -> 0 <= y -> y < inject_Z (height m) ->
  let col := Qfloor (x / inject_Z (cellSize m)) in
  let row := Qfloor (y / inject_Z (cellSize m)) in
  (0 <= col < cols m)%Z /\ (0 <= row < rows m)%Z /\
  exists t, cellAt (grid m) col row = Some t /\
            isWall m x y = Done (cell_eqb t WALL).
Proof.
  intros Hm Hx0 Hx1 Hy0 Hy1 col row.
  destruct (init_Done zh lvl cw ch now m Hm)
    as (Hc & Hr & Hcs & Hw & Hh & _ & (Hwf & _) & _).
  assert (Hpos : (0 < cellSize m)%Z) by lia.
  destruct (cell_of_pixel x _ Hpos) as [Hxl Hxh]. fold col in Hxl, Hxh.
  destruct (cell_of_pixel y _ Hpos) as [Hyl Hyh]. fold row in Hyl, Hyh.
  assert (Hcr : (0 <= col < cols m)%Z).
  { rewrite Hw in Hx1.
    assert (H1 : inject_Z 0 < inject_Z ((col + 1) * cellSize m)).
    { change (inject_Z 0) with 0. lra. }
    assert (H2 : inject_Z (col * cellSize m) < inject_Z (cols m * cellSize m))
      by lra.
    rewrite <- Zlt_Qlt in H1, H2. nia. }
  assert (Hrr : (0 <= row < rows m)%Z).
  { rewrite Hh in Hy1.
    assert (H1 : inject_Z 0 < inject_Z ((row + 1) * cellSize m)).
    { change (inject_Z 0) with 0. lra. }
    assert (H2 : inject_Z (row * cellSize m) < inject_Z (rows m * cellSize m))
      by lra.
    rewrite <- Zlt_Qlt in H1, H2. nia. }
  split; [exact Hcr|]. split; [exact Hrr|].
  destruct (wellFormed_cellAt _ _ _ col row Hwf Hcr Hrr) as [t Ht].
  exists t. split; [exact Ht|].
  unfold isWall. fold col row.
  assert (Hb : (col <? 0)%Z || (col >=? cols m)%Z ||
               (row <? 0)%Z || (row >=? rows m)%Z = false).
  { rewrite !Z.geb_leb. rewrite !orb_false_iff. repeat split.
    - apply Z.ltb_ge. lia.
    - apply Z.leb_gt. lia.
    - apply Z.ltb_ge. lia.
    - apply Z.leb_gt. lia. }
  rewrite Hb. apply cellIs_cellAt. exact Ht.
Qed.

End PixelFacts.

Section WallRectProperties.
Import MazeGenerator Outcome.

(** X12. After init wallRects holds exactly the rectangles {x*cellSize,
    y*cellSize, cellSize, cellSize, isWall: true} of the Wall cells (x,
    y) of the grid, and its length is the number of Wall cells. *)
Theorem wall_rects_match_wall_cells :
  forall (zh : Q) (lvl : Z) (cw ch : Q) (now : float) (m : MazeGenerator.t),
    init zh lvl cw ch now = Done m ->
    (forall r,
       In r (wallRects m) <->
       exists x y,
         cellAt (grid m) x y = Some WALL /\
         r = mkRect (x * cellSize m) (y * cellSize m)
                    (cellSize m) (cellSize m) true) /\
    List.length (wallRects m) = wallCount (grid m).
Proof.
  intros zh lvl cw ch now m Hm.
  destruct (init_fields zh lvl cw ch now m Hm) as (_ & _ & _ & _ & _ & Er & _).
  rewrite Er. split; [|apply buildWallRects_length].
  intros r. rewrite buildWallRects_In. split.
  - intros (x & y & _ & _ & Hc & E). exists x, y. split; assumption.
  - intros (x & y & Hc & E). exists x, y.
    destruct (cellAt_nonneg _ _ _ _ Hc) as [Hx Hy].
    repeat split; assumption.
Qed.

Lemma wall_rects_match_wall_cells_witness :
  match init 60 1 800 600 1700000000000%float with
  | Done m => In (mkRect 0 0 38 38 true) (wallRects m)
  | _ => False
  end.
Proof.
  destruct (init 60 1 800 600 1700000000000%float) as [m| | |] eqn:E;
    try (vm_compute in E; discriminate).
  destruct (sample_maze_dims _ m E) as (Hc & Hr & Hcs).
  apply (proj1 (wall_rects_match_wall_cells _ _ _ _ _ m E)).
  exists 0%Z, 0%Z. rewrite Hcs. split; [|reflexivity].
  rewrite (init_boundary_cells _ _ _ _ _ m 0 0 E).
  - rewrite Hc, Hr. reflexivity.
  - rewrite Hc. lia.
  - rewrite Hr. lia.
  - left. reflexivity.
Defined.

(** X13. For a point inside the maze (0 <= x < width, 0 <= y < height),
    isWall(x, y) is true exactly when the point lies in one of the wall
    rectangles, low edges included and high edges excluded. *)
Theorem isWall_iff_in_wall_rect :
  forall (zh : Q) (lvl : Z) (cw ch : Q) (now : float) (m : MazeGenerator.t)
         (x y : Q),
    init zh lvl cw ch now = Done m ->
    (0 <= x)%Q -> (x < inject_Z (width m))%Q ->
    (0 <= y)%Q -> (y < inject_Z (height m))%Q ->
    (isWall m x y = Done true <->
     exists r, In r (wallRects m) /\ inRect r x y).
Proof.
  intros zh lvl cw ch now m x y Hm Hx0 Hx1 Hy0 Hy1.
  destruct (isWall_inside zh lvl cw ch now m x y Hm Hx0 Hx1 Hy0 Hy1)
    as (Hcr & Hrr & t & Ht & Hw).
  destruct (init_Done zh lvl cw ch now m Hm) as (_ & _ & Hcs & _).
  assert (Hpos : (0 < cellSize m)%Z) by lia.
  destruct (init_fields zh lvl cw ch now m Hm) as (_ & _ & _ & _ & _ & Er & _).
  destruct (cell_of_pixel x _ Hpos) as [Hxl Hxh].
  destruct (cell_of_pixel y _ Hpos) as [Hyl Hyh].
  set (col := Qfloor (x / inject_Z (cellSize m))) in *.
  set (row := Qfloor (y / inject_Z (cellSize m))) in *.
  rewrite Hw, Er. split.
  - intros E. inversion E as [Eb]. apply cell_eqb_eq in Eb. subst t.
    exists (mkRect (col * cellSize m) (row * cellSize m)
                   (cellSize m) (cellSize m) true).
    split.
    + apply buildWallRects_In. exists col, row.
      split; [lia|]. split; [lia|]. split; [exact Ht | reflexivity].
    + unfold inRect. cbn [rectX rectY rectWidth rectHeight].
      replace (col * cellSize m + cellSize m)%Z with ((col + 1) * cellSize m)%Z by lia.
      replace (row * cellSize m + cellSize m)%Z with ((row + 1) * cellSize m)%Z by lia.
      repeat split; assumption.
  - intros (r & Hin & Hr).
    apply buildWallRects_In in Hin.
    destruct Hin as (cx & cy & _ & _ & Hc & ->).
    unfold inRect in Hr. cbn [rectX rectY rectWidth rectHeight] in Hr.
    destruct Hr as (H1 & H2 & H3 & H4).
    replace (cx * cellSize m + cellSize m)%Z with ((cx + 1) * cellSize m)%Z in H2 by lia.
    replace (cy * cellSize m + cellSize m)%Z with ((cy + 1) * cellSize m)%Z in H4 by lia.
    assert (Ec : col = cx) by (apply Qfloor_cell; assumption).
    assert (Er' : row = cy) by (apply Qfloor_cell; assumption).
    rewrite Ec, Er' in Ht. rewrite Hc in Ht. inversion Ht. reflexivity.
Qed.

Lemma isWall_iff_in_wall_rect_witness :
  match init 60 1 800 600 1700000000000%float with
  | Done m => exists r, In r (wallRects m) /\ inRect r 10 10
  | _ => False
  end.
Proof.
  destruct (init 60 1 800 600 1700000000000%float) as [m| | |] eqn:E;
    try (vm_compute in E; discriminate).
  destruct (sample_maze_dims _ m E) as (Hc & Hr & Hcs).
  destruct (init_Done _ _ _ _ _ m E) as (_ & _ & _ & Hw & Hh & _).
  assert (Hx : (10 < inject_Z (width m))%Q).
  { rewrite Hw, Hc, Hcs. reflexivity. }
  assert (Hy : (10 < inject_Z (height m))%Q).
  { rewrite Hh, Hr, Hcs. reflexivity. }
  apply (isWall_iff_in_wall_rect _ _ _ _ _ m 10 10 E
           ltac:(discriminate) Hx ltac:(discriminate) Hy).
  destruct (isWall_inside _ _ _ _ _ m 10 10 E ltac:(discriminate) Hx
              ltac:(discriminate) Hy) as (_ & _ & t & Ht & Hwall).
  rewrite Hwall. f_equal.
  rewrite Hcs in Ht. change (Qfloor (10 / inject_Z 38)) with 0%Z in Ht.
  rewrite (init_boundary_cells _ _ _ _ _ m 0 0 E) in Ht.
  - rewrite Hc, Hr in Ht. inversion Ht. reflexivity.
  - rewrite Hc. lia.
  - rewrite Hr. lia.
  - left. reflexivity.
Defined.

(** X14. The entry point (entryX, entryY) that init stores lies in the cell
    (floor(cols/2), 1), which is a Path cell: isWall(entryX, entryY) is
    false. *)
Theorem entry_point_is_open :
  forall (zh : Q) (lvl : Z) (cw ch : Q) (now : float) (m : MazeGenerator.t),
    init zh lvl cw ch now = Done m ->
    isWall m (entryX m) (entryY m) = Done false /\
    Qfloor (entryX m / inject_Z (cellSize m)) = (cols m / 2)%Z /\
    Qfloor (entryY m / inject_Z (cellSize m)) = 1%Z.
Proof.
  intros zh lvl cw ch now m Hm.
  destruct (init_Done zh lvl cw ch now m Hm)
    as (Hc & Hr & Hcs & Hw & Hh & _ & (Hwf & _) & _).
  destruct (init_fields zh lvl cw ch now m Hm) as (_ & _ & _ & Ex & Ey & _).
  destruct (init_cols_half zh lvl cw ch now m Hm) as [Hhalf Hcx].
  assert (Hpos : (0 < cellSize m)%Z) by lia.
  assert (Hq : (0 < inject_Z (cellSize m))%Q).
  { change 0%Q with (inject_Z 0). rewrite <- Zlt_Qlt. exact Hpos. }
  assert (Ecol : Qfloor (entryX m / inject_Z (cellSize m)) = (cols m / 2)%Z).
  { rewrite Ex, Hw.
    set (k := (cols m / 2)%Z) in *. clearbody k. rewrite Hhalf.
    assert (E1 : ((2 * inject_Z k + 1) * inject_Z (cellSize m) / 2
                  == inject_Z k * inject_Z (cellSize m)
                     + inject_Z (cellSize m) * (1 # 2))%Q)
      by field.
    assert (E2 : ((inject_Z k + 1) * inject_Z (cellSize m)
                  == inject_Z k * inject_Z (cellSize m) + inject_Z (cellSize m))%Q)
      by ring.
    apply Qfloor_cell; [exact Hpos | |];
      rewrite !inject_Z_mult, !inject_Z_plus, !inject_Z_mult;
      change (inject_Z 2) with 2%Q; change (inject_Z 1) with 1%Q;
      rewrite ?E2, E1;
      set (p := (inject_Z k * inject_Z (cellSize m))%Q); clearbody p;
      clear E1 E2; lra. }
  assert (Erow : Qfloor (entryY m / inject_Z (cellSize m)) = 1%Z).
  { rewrite Ey. apply Qfloor_cell; [exact Hpos | |].
    - rewrite !inject_Z_mult. change (inject_Z 1) with 1%Q. lra.
    - rewrite !inject_Z_mult. change (inject_Z (1 + 1)) with 2%Q. lra. }
  split; [|split; assumption].
  unfold isWall. rewrite Ecol, Erow.
  assert (Hb : (cols m / 2 <? 0)%Z || (cols m / 2 >=? cols m)%Z ||
               (1 <? 0)%Z || (1 >=? rows m)%Z = false).
  { rewrite !Z.geb_leb. rewrite !orb_false_iff. repeat split.
    - apply Z.ltb_ge. lia.
    - apply Z.leb_gt. lia.
    - apply Z.leb_gt. lia. }
  rewrite Hb.
  destruct (init_grid zh lvl cw ch now m Hm) as (g0 & _ & _ & _ & Hcell & _).
  rewrite (cellIs_cellAt _ _ _ PATH); [reflexivity|].
  rewrite Hcell. rewrite Z.eqb_refl. reflexivity.
Qed.

Lemma entry_point_is_open_witness :
  match init 60 1 800 600 1700000000000%float with
  | Done m => isWall m 209 57 = Done false
  | _ => False
  end.
Proof.
  destruct (init 60 1 800 600 1700000000000%float) as [m| | |] eqn:E;
    try (vm_compute in E; discriminate).
  destruct (sample_maze_dims _ m E) as (Hc & Hr & Hcs).
  destruct (init_fields _ _ _ _ _ m E) as (_ & _ & _ & Ex & Ey & _).
  destruct (init_Done _ _ _ _ _ m E) as (_ & _ & _ & Hw & _).
  pose proof (proj1 (entry_point_is_open _ _ _ _ _ m E)) as H.
  rewrite Ex, Ey, Hw, Hc, Hcs in H.
  unfold isWall in *. rewrite Hcs, Hc in *. exact H.
Defined.

End WallRectProperties.

(* --------------------------------------------------------------------- *)
(*  MazeGenerator: exit zones and spawn positions                        *)
(* --------------------------------------------------------------------- *)

Section ZoneFacts.
Import MazeGenerator Outcome.
Local Open Scope Z_scope.

(* this.exitColumns after init: five columns inside the side walls. *)
Lemma init_exit_columns (zh : Q) (lvl : Z) (cw ch : Q) (now : float)
    (m : MazeGenerator.t) :
  init zh lvl cw ch now = Done m ->
  exists c1 c2 c3 c4 c5,
    exitColumns m = [c1; c2; c3; c4; c5] /\
    Forall (fun c => 1 <= c <= cols m - 2) (exitColumns m).
Proof.
  intros Hm.
  destruct (init_grid zh lvl cw ch now m Hm) as (_ & _ & _ & _ & _ & Hnear).
  remember (exitColumns m) as cs eqn:Ecs. clear Ecs.
  assert (Hall : Forall (fun c => 1 <= c <= cols m - 2) cs).
  { clear - Hnear. induction Hnear as [|p c ps cs (Hc & _) _ IH]; constructor; auto. }
  unfold exitPositions in Hnear.
  inversion Hnear as [|p1 c1 ps1 l1 N1 R1 E1 F1]. subst.
  inversion R1 as [|p2 c2 ps2 l2 N2 R2 E2 F2]. subst.
  inversion R2 as [|p3 c3 ps3 l3 N3 R3 E3 F3]. subst.
  inversion R3 as [|p4 c4 ps4 l4 N4 R4 E4 F4]. subst.
  inversion R4 as [|p5 c5 ps5 l5 N5 R5 E5 F5]. subst.
  inversion R5. subst.
  exists c1, c2, c3, c4, c5. split; [reflexivity | exact Hall].
Qed.

End ZoneFacts.

Section ZoneProperties.
Import MazeGenerator Outcome.

(** X10. After init the exit zones 0..4 carry the scores 500, 100, 1000, 0,
    250, y = height and the configured zone height, and zone i's column
    is exitColumns[i], which lies in 1..cols-2: the fallback of
    `exitColumns[i] || ...` is never used. *)
Theorem exit_zone_scores_and_columns :
  forall (zh : Q) (lvl : Z) (cw ch : Q) (now : float) (m : MazeGenerator.t)
         (i : nat) (z : ExitZone),
    init zh lvl cw ch now = Done m ->
    nth_error (exitZones m) i = Some z ->
    nth_error (exitColumns m) i = Some (column z) /\
    nth_error [500; 100; 1000; 0; 250]%Z i = Some (score z) /\
    (1 <= column z <= cols m - 2)%Z /\
    zoneY z = inject_Z (height m) /\ zoneHeight z = zh.
Proof.
  intros zh lvl cw ch now m i z Hm Hz.
  destruct (init_Done zh lvl cw ch now m Hm) as (_ & _ & _ & _ & _ & Ez & _).
  destruct (init_exit_columns zh lvl cw ch now m Hm)
    as (c1 & c2 & c3 & c4 & c5 & Ecs & Hall).
  rewrite Ez in Hz. rewrite Ecs in Hz, Hall |- *.
  assert (Hnz : forall c, (1 <= c <= cols m - 2)%Z -> (c =? 0)%Z = false).
  { intros c Hc. apply Z.eqb_neq. lia. }
  inversion Hall as [|? ? A1 Hall1]; subst.
  inversion Hall1 as [|? ? A2 Hall2]; subst.
  inversion Hall2 as [|? ? A3 Hall3]; subst.
  inversion Hall3 as [|? ? A4 Hall4]; subst.
  inversion Hall4 as [|? ? A5 _]; subst.
  unfold buildExitZones in Hz. cbn [seq map] in Hz.
  do 5 (destruct i as [|i];
        [inversion Hz; subst z; unfold zoneColumn;
         cbn [nth_error nth exitScores column score zoneY zoneHeight fst snd];
         rewrite Hnz by assumption; repeat split; (reflexivity || lia)|]).
  destruct i; discriminate.
Qed.

Lemma exit_zone_scores_and_columns_witness :
  match init 60 1 800 600 1700000000000%float with
  | Done m => forall z, nth_error (exitZones m) 2 = Some z -> score z = 1000%Z
  | _ => False
  end.
Proof.
  destruct (init 60 1 800 600 1700000000000%float) as [m| | |] eqn:E;
    try (vm_compute in E; discriminate).
  intros z Hz.
  destruct (exit_zone_scores_and_columns _ _ _ _ _ m 2 z E Hz) as (_ & Hs & _).
  inversion Hs. reflexivity.
Defined.

Ltac qle_case :=
  match goal with
  | |- context [Qle_bool ?a ?b] =>
      let H := fresh "Hq" in
      destruct (Qle_bool a b) eqn:H;
      [apply Qle_bool_iff in H
      |apply not_true_iff_false in H; rewrite Qle_bool_iff in H;
       apply Qnot_le_lt in H];
      cbn [andb]
  end.

(** X11. getExitZoneForX(x) is null for x < 0 and for x > width; for 0 <= x
    <= width it returns a zone whose closed x-range contains x: the zone
    with zone.x < x <= zone.x + zone.width (the left zone on a shared
    edge), and the first zone for x = 0. *)
Theorem getExitZoneForX_first_match :
  forall (zh : Q) (lvl : Z) (cw ch : Q) (now : float) (m : MazeGenerator.t)
         (x : Q),
    init zh lvl cw ch now = Done m ->
    let W := inject_Z (width m) in
    ((x < 0 \/ W < x)%Q -> getExitZoneForX m x = None) /\
    ((0 <= x <= W)%Q ->
     exists z, getExitZoneForX m x = Some z /\
               (zoneX z <= x <= zoneX z + zoneWidth z)%Q) /\
    (forall i z, nth_error (exitZones m) i = Some z ->
                 (zoneX z < x)%Q -> (x <= zoneX z + zoneWidth z)%Q ->
                 getExitZoneForX m x = Some z) /\
    ((x == 0)%Q -> getExitZoneForX m x = nth_error (exitZones m) 0).
Proof.
  intros zh lvl cw ch now m x Hm W.
  destruct (init_Done zh lvl cw ch now m Hm)
    as (Hc & Hr & Hcs & Hw & _ & Hz & _ & _).
  assert (HW : (0 < W)%Q).
  { subst W. change 0%Q with (inject_Z 0). rewrite <- Zlt_Qlt. nia. }
  unfold getExitZoneForX. rewrite Hz. unfold buildExitZones. fold W.
  cbn [seq map find zoneX zoneWidth].
  change (inject_Z (Z.of_nat 0)) with 0%Q.
  change (inject_Z (Z.of_nat 1)) with 1%Q.
  change (inject_Z (Z.of_nat 2)) with 2%Q.
  change (inject_Z (Z.of_nat 3)) with 3%Q.
  change (inject_Z (Z.of_nat 4)) with 4%Q.
  assert (E5 : (W == 5 * (W / 5))%Q) by field.
  assert (H5 : (0 < W / 5)%Q) by (apply Qlt_shift_div_l; lra).
  set (w := (W / 5)%Q) in *. clearbody w.
  split; [|split; [|split]].
  - intros Hout. repeat qle_case; try reflexivity; exfalso; lra.
  - intros Hin.
    repeat qle_case;
      try (eexists; split; [reflexivity|]; cbn [zoneX zoneWidth]; lra);
      exfalso; lra.
  - intros i z Hi Hlo Hhi.
    do 5 (destruct i as [|i];
          [inversion Hi; subst z; cbn [zoneX zoneWidth] in Hlo, Hhi;
           repeat qle_case; try reflexivity; exfalso; lra|]).
    destruct i; discriminate.
  - intros E0. cbn [nth_error].
    repeat qle_case; try reflexivity; exfalso; lra.
Qed.

Lemma getExitZoneForX_first_match_witness :
  match init 60 1 800 600 1700000000000%float with
  | Done m => getExitZoneForX m (-1) = None /\
              exists z, getExitZoneForX m 200 = Some z
  | _ => False
  end.
Proof.
  destruct (init 60 1 800 600 1700000000000%float) as [m| | |] eqn:E;
    try (vm_compute in E; discriminate).
  destruct (getExitZoneForX_first_match _ _ _ _ _ m (-1) E) as (H1 & _).
  destruct (getExitZoneForX_first_match _ _ _ _ _ m 200 E) as (_ & H2 & _).
  destruct (sample_maze_dims _ m E) as (Hc & _ & Hcs).
  destruct (init_Done _ _ _ _ _ m E) as (_ & _ & _ & Hw & _).
  split.
  - apply H1. left. reflexivity.
  - destruct H2 as [z [Hz _]].
    + rewrite Hw, Hc, Hcs. split; discriminate.
    + exists z. exact Hz.
Defined.

End ZoneProperties.

Section SpawnFacts.
Import MazeGenerator Outcome.
Local Open Scope Q_scope.

(* The i-th spawn position, relative to the entry point. *)
Lemma getSpawnPositions_nth (zh : Q) (lvl : Z) (cw ch : Q) (now : float)
    (m : MazeGenerator.t) (r : Q) (n i : nat) (p : Position) :
  init zh lvl cw ch now = Done m ->
  nth_error (getSpawnPositions r m n) i = Some p ->
  (i < n)%nat /\
  posX p == entryX m
            + (inject_Z (Z.of_nat i) * r
               - (inject_Z (Z.of_nat n) - 1) * r * (1 # 2)) * (66 # 100) /\
  posY p == entryY m + inject_Z (Z.of_nat i) * r * (1 # 2).
Proof.
  intros Hm Hp.
  destruct (init_Done zh lvl cw ch now m Hm) as (_ & _ & _ & Hw & _).
  destruct (init_fields zh lvl cw ch now m Hm) as (_ & _ & _ & Ex & Ey & _).
  destruct (init_cols_half zh lvl cw ch now m Hm) as [Hhalf _].
  assert (Ecx : (inject_Z (cols m / 2) + (1 # 2)) * inject_Z (cellSize m)
                == entryX m).
  { rewrite Ex, Hw. set (k := (cols m / 2)%Z) in *. clearbody k. rewrite Hhalf.
    rewrite !inject_Z_mult, !inject_Z_plus, !inject_Z_mult.
    change (inject_Z 2) with 2. change (inject_Z 1) with 1. field. }
  unfold getSpawnPositions in Hp.
  rewrite nth_error_map, nth_error_seq in Hp.
  destruct (Nat.ltb_spec i n) as [Hi|Hi]; [|discriminate].
  cbn [option_map Nat.add] in Hp. inversion Hp. subst p. clear Hp.
  cbn [posX posY]. split; [exact Hi|]. split.
  - rewrite Ecx. field.
  - rewrite Ey. field.
Qed.

End SpawnFacts.

Section SpawnProperties.
Import MazeGenerator Outcome.

(** X15. getSpawnPositions(n) returns n positions whose x coordinates are
    symmetric about entryX (x_i + x_(n-1-i) = 2*entryX) and whose y
    coordinates are entryY + i*ballRadius/2; a single ball is placed
    exactly at (entryX, entryY). *)
Theorem spawn_positions_centred_on_entry :
  forall (zh : Q) (lvl : Z) (cw ch : Q) (now : float) (m : MazeGenerator.t)
         (ballRadius : Q) (n : nat),
    init zh lvl cw ch now = Done m ->
    let ps := getSpawnPositions ballRadius m n in
    List.length ps = n /\
    (forall i p q,
       nth_error ps i = Some p -> nth_error ps (n - 1 - i) = Some q ->
       (posX p + posX q == 2 * entryX m)%Q) /\
    (forall i p,
       nth_error ps i = Some p ->
       (posY p == entryY m + inject_Z (Z.of_nat i) * (ballRadius / 2))%Q) /\
    (forall p, n = 1%nat -> nth_error ps 0 = Some p ->
               (posX p == entryX m /\ posY p == entryY m)%Q).
Proof.
  intros zh lvl cw ch now m r n Hm ps.
  split.
  { subst ps. unfold getSpawnPositions. rewrite length_map, length_seq.
    reflexivity. }
  split.
  { intros i p q Hp Hq.
    destruct (getSpawnPositions_nth zh lvl cw ch now m r n i p Hm Hp)
      as (Hi & Hx & _).
    destruct (getSpawnPositions_nth zh lvl cw ch now m r n _ q Hm Hq)
      as (_ & Hx' & _).
    rewrite Hx, Hx'.
    replace (Z.of_nat (n - 1 - i)) with (Z.of_nat n - 1 - Z.of_nat i)%Z by lia.
    unfold Zminus. rewrite !inject_Z_plus, !inject_Z_opp.
    change (inject_Z 1) with 1%Q. ring. }
  split.
  { intros i p Hp.
    destruct (getSpawnPositions_nth zh lvl cw ch now m r n i p Hm Hp)
      as (_ & _ & Hy).
    rewrite Hy. field. }
  intros p Hn Hp.
  destruct (getSpawnPositions_nth zh lvl cw ch now m r n 0 p Hm Hp)
    as (_ & Hx & Hy).
  subst n. rewrite Hx, Hy.
  change (inject_Z (Z.of_nat 0)) with 0%Q.
  change (inject_Z (Z.of_nat 1)) with 1%Q.
  split; ring.
Qed.

Lemma spawn_positions_centred_on_entry_witness :
  match init 60 1 800 600 1700000000000%float with
  | Done m => List.length (getSpawnPositions 8 m 5) = 5%nat
  | _ => False
  end.
Proof.
  destruct (init 60 1 800 600 1700000000000%float) as [m| | |] eqn:E;
    try (vm_compute in E; discriminate).
  exact (proj1 (spawn_positions_centred_on_entry _ _ _ _ _ m 8 5 E)).
Defined.



End SpawnProperties.

(* --------------------------------------------------------------------- *)
(*  MazeGenerator: the carved cells as a tree                            *)
(* --------------------------------------------------------------------- *)

Section CountFacts.
Import MazeGenerator Outcome JsArray.
Local Open Scope Z_scope.

Lemma countRow_listSet (f : Z -> CellType -> bool) (r : list CellType) :
  forall (n : nat) (x0 : Z) (c v : CellType),
    nth_error r n = Some c ->
    (countRow f x0 (listSet n v r) + (if f (x0 + Z.of_nat n)%Z c then 1 else 0)
     = countRow f x0 r + (if f (x0 + Z.of_nat n)%Z v then 1 else 0))%nat.
Proof.
  induction r as [|h tl IH]; intros [|n] x0 c v Hn; cbn [nth_error] in Hn;
    try discriminate; cbn [listSet countRow].
  - inversion Hn. subst h. rewrite Z.add_0_r. lia.
  - specialize (IH n (x0 + 1) c v Hn).
    replace (x0 + Z.of_nat (S n)) with (x0 + 1 + Z.of_nat n) by lia. lia.
Qed.

Lemma countFrom_listSet (f : Z -> Z -> CellType -> bool) (g : Grid) :
  forall (n : nat) (y0 : Z) (r r' : list CellType),
    nth_error g n = Some r ->
    (countFrom f y0 (listSet n r' g)
     + countRow (fun x => f x (y0 + Z.of_nat n)%Z) 0 r
     = countFrom f y0 g
       + countRow (fun x => f x (y0 + Z.of_nat n)%Z) 0 r')%nat.
Proof.
  induction g as [|h tl IH]; intros [|n] y0 r r' Hn; cbn [nth_error] in Hn;
    try discriminate; cbn [listSet countFrom].
  - inversion Hn. subst h. rewrite Z.add_0_r. lia.
  - specialize (IH n (y0 + 1) r r' Hn).
    replace (y0 + Z.of_nat (S n)) with (y0 + 1 + Z.of_nat n) by lia. lia.
Qed.

(* Writing a cell changes a count by the cell's own contribution. *)
Lemma countCells_setCell (f : Z -> Z -> CellType -> bool) (g g' : Grid)
    (x y : Z) (c v : CellType) :
  cellAt g x y = Some c ->
  setCell g x y v = Done g' ->
  (countCells f g' + (if f x y c then 1 else 0)
   = countCells f g + (if f x y v then 1 else 0))%nat.
Proof.
  intros Hc Hset.
  apply setCell_Done in Hset. destruct Hset as (r & Hr & Hx & ->).
  unfold cellAt in Hc. rewrite Hr in Hc.
  destruct (Z.ltb_spec x 0) as [?|_]; [discriminate|].
  apply rowAt_Some in Hr. destruct Hr as (Hy & _ & Hnth).
  unfold countCells.
  pose proof (countFrom_listSet f g (Z.to_nat y) 0 r
                (listSet (Z.to_nat x) v r) Hnth) as H1.
  pose proof (countRow_listSet (fun x0 => f x0 (0 + Z.of_nat (Z.to_nat y))) r
                (Z.to_nat x) 0 c v Hc) as H2.
  cbv beta in H2.
  rewrite !Z.add_0_l, !Z2Nat.id in * by lia. lia.
Qed.

Lemma countRow_none (f : Z -> CellType -> bool) (r : list CellType) :
  (forall x c, In c r -> f x c = false) ->
  forall x0, countRow f x0 r = 0%nat.
Proof.
  induction r as [|h tl IH]; intros Hf x0; cbn [countRow]; [reflexivity|].
  rewrite (Hf x0 h) by (left; reflexivity).
  rewrite IH; [reflexivity|]. intros x c Hc. apply Hf. right. exact Hc.
Qed.

Lemma countFrom_none (f : Z -> Z -> CellType -> bool) (g : Grid) :
  (forall x y c r, In r g -> In c r -> f x y c = false) ->
  forall y0, countFrom f y0 g = 0%nat.
Proof.
  induction g as [|h tl IH]; intros Hf y0; cbn [countFrom]; [reflexivity|].
  rewrite countRow_none.
  - rewrite IH; [reflexivity|]. intros x y c r Hr Hc. eapply Hf; [right|]; eauto.
  - intros x c Hc. eapply Hf; [left; reflexivity | exact Hc].
Qed.

Lemma allWalls_no_paths (cols rows : Z) :
  pathRooms (allWalls cols rows) = 0%nat /\
  pathPassages (allWalls cols rows) = 0%nat.
Proof.
  assert (H : forall c r, In r (allWalls cols rows) -> In c r -> c = WALL).
  { intros c r Hr Hc. unfold allWalls in Hr.
    apply repeat_spec in Hr. subst r. apply repeat_spec in Hc. exact Hc. }
  split; apply countFrom_none; intros x y c r Hr Hc;
    rewrite (H c r Hr Hc); unfold isRoom, isPassage; cbn [cell_eqb];
    apply andb_false_r.
Qed.

Lemma setCell_cellAt (g g' : Grid) (x y : Z) (v : CellType) :
  setCell g x y v = Done g' -> exists c, cellAt g x y = Some c.
Proof.
  intros Hset. apply setCell_Done in Hset.
  destruct Hset as (r & Hr & Hx & _).
  unfold cellAt. rewrite Hr.
  destruct (Z.ltb_spec x 0) as [?|_]; [lia|].
  destruct (nth_error r (Z.to_nat x)) as [c|] eqn:E; [eauto|].
  apply nth_error_None in E. lia.
Qed.

Lemma opposite_direction (d : Direction) :
  In d DIRECTIONS ->
  exists d', In d' DIRECTIONS /\ dx d' = - dx d /\ dy d' = - dy d.
Proof.
  intros Hd. cbn [DIRECTIONS In] in Hd.
  destruct Hd as [<-|[<-|[<-|[<-|[]]]]].
  - exists (mkDir 0 1 "down"). cbn. tauto.
  - exists (mkDir (-1) 0 "left"). cbn. tauto.
  - exists (mkDir 0 (-1) "up"). cbn. tauto.
  - exists (mkDir 1 0 "right"). cbn. tauto.
Qed.

End CountFacts.

Section TreeFacts.
Import MazeGenerator Outcome.
Local Open Scope Z_scope.
Variables cols rows : Z.

Lemma keepsPaths_refl (g : Grid) : keepsPaths g g.
Proof. intros x y H. exact H. Qed.

Lemma keepsPaths_trans (g1 g2 g3 : Grid) :
  keepsPaths g1 g2 -> keepsPaths g2 g3 -> keepsPaths g1 g3.
Proof. intros H1 H2 x y H. apply H2, H1, H. Qed.

Lemma keepsPaths_setCell (g g' : Grid) (x y : Z) :
  setCell g x y PATH = Done g' -> keepsPaths g g'.
Proof.
  intros Hset a b H. rewrite (cellAt_setCell _ _ _ _ _ Hset).
  destruct ((a =? x) && (b =? y)); [reflexivity | exact H].
Qed.

Lemma odd_mod2 (a : Z) : Z.odd a = true -> a mod 2 = 1.
Proof. intros H. rewrite Zmod_odd, H. reflexivity. Qed.

Lemma room_position (x y : Z) (c : CellType) :
  oddCell (x, y) ->
  isRoom x y c = cell_eqb c PATH /\ isPassage x y c = false.
Proof.
  intros [Hx Hy]. cbn [fst snd] in Hx, Hy. unfold isRoom, isPassage.
  rewrite Hx, Hy. split; reflexivity.
Qed.

Lemma passage_position (x y : Z) (d : Direction) (c : CellType) :
  In d DIRECTIONS -> oddCell (x, y) ->
  isRoom (x + dx d) (y + dy d) c = false /\
  isPassage (x + dx d) (y + dy d) c = cell_eqb c PATH.
Proof.
  intros Hd [Hx Hy]. cbn [fst snd] in Hx, Hy. unfold isRoom, isPassage.
  destruct (direction_cases d Hd) as [[E1 E2]|[[E1 E2]|[[E1 E2]|[E1 E2]]]];
    rewrite E1, E2, !Z.odd_add, Hx, Hy; split; reflexivity.
Qed.

(* Carving a room. *)
Lemma carve_room_counts (g g' : Grid) (x y : Z) :
  oddCell (x, y) -> cellAt g x y = Some WALL ->
  setCell g x y PATH = Done g' ->
  pathRooms g' = S (pathRooms g) /\ pathPassages g' = pathPassages g.
Proof.
  intros Ho Hc Hset.
  pose proof (countCells_setCell isRoom g g' x y WALL PATH Hc Hset) as H1.
  pose proof (countCells_setCell isPassage g g' x y WALL PATH Hc Hset) as H2.
  rewrite !(proj1 (room_position x y _ Ho)) in H1.
  rewrite !(proj2 (room_position x y _ Ho)) in H2.
  cbn [cell_eqb] in H1. unfold pathRooms, pathPassages. lia.
Qed.

(* Carving the passage towards an uncarved room. *)
Lemma carve_passage_counts (g g' : Grid) (x y : Z) (d : Direction) :
  In d DIRECTIONS -> oddCell (x, y) ->
  passagesJoin g ->
  cellAt g (x + dx d * 2) (y + dy d * 2) = Some WALL ->
  setCell g (x + dx d) (y + dy d) PATH = Done g' ->
  pathRooms g' = pathRooms g /\ pathPassages g' = S (pathPassages g).
Proof.
  intros Hd Ho Hj Hn Hset.
  destruct (setCell_cellAt _ _ _ _ _ Hset) as [c0 Hc0].
  assert (Hne : c0 <> PATH).
  { intros ->.
    destruct (opposite_direction d Hd) as (d' & Hd' & Ex & Ey).
    assert (Hroom : cellAt g (x + dx d * 2) (y + dy d * 2) = Some PATH).
    { apply (Hj _ _ d' Hd').
      - destruct Ho as [Hx Hy]. cbn [fst snd] in Hx, Hy.
        split; cbn [fst snd]; rewrite (Z.mul_comm _ 2), Z.odd_add_mul_2; assumption.
      - rewrite Ex, Ey.
        replace (x + dx d * 2 + - dx d) with (x + dx d) by lia.
        replace (y + dy d * 2 + - dy d) with (y + dy d) by lia.
        exact Hc0. }
    rewrite Hroom in Hn. discriminate. }
  pose proof (countCells_setCell isRoom g g' _ _ c0 PATH Hc0 Hset) as H1.
  pose proof (countCells_setCell isPassage g g' _ _ c0 PATH Hc0 Hset) as H2.
  rewrite !(proj1 (passage_position x y d _ Hd Ho)) in H1.
  rewrite !(proj2 (passage_position x y d _ Hd Ho)) in H2.
  assert (Ec : cell_eqb c0 PATH = false) by (destruct c0; try reflexivity; contradiction).
  rewrite Ec in H2. cbn [cell_eqb] in H2.
  unfold pathRooms, pathPassages. lia.
Qed.

(* After the passage towards a room is carved, carving that room
   restores the invariant. *)
Lemma passagesJoin_step (g g1 g2 : Grid) (x y : Z) (d : Direction) :
  In d DIRECTIONS -> oddCell (x, y) ->
  passagesJoin g -> cellAt g x y = Some PATH ->
  setCell g (x + dx d) (y + dy d) PATH = Done g1 ->
  setCell g1 (x + dx d * 2) (y + dy d * 2) PATH = Done g2 ->
  passagesJoin g2.
Proof.
  intros Hd [Hx Hy] Hj Hxy H1 H2 a b d' Hd' [Ha Hb] Hp.
  cbn [fst snd] in Hx, Hy, Ha, Hb.
  apply odd_mod2 in Hx, Hy, Ha, Hb.
  assert (Hk : keepsPaths g g2).
  { eapply keepsPaths_trans; eapply keepsPaths_setCell; eauto. }
  assert (Hcases : (a = x + dx d * 2 /\ b = y + dy d * 2) \/
                   (a = x /\ b = y) \/
                   ((a <> x + dx d * 2 \/ b <> y + dy d * 2) /\
                    (a <> x \/ b <> y))) by lia.
  destruct Hcases as [[Ea Eb]|[[Ea Eb]|[Hn1 Hn2]]].
  - rewrite Ea, Eb. eapply cellAt_setCell_same; eauto.
  - rewrite Ea, Eb. apply Hk. exact Hxy.
  - apply Hk. apply (Hj a b d' Hd').
    + split; cbn [fst snd]; rewrite Zodd_mod; [rewrite Ha | rewrite Hb]; reflexivity.
    + rewrite (cellAt_setCell_other _ _ _ _ _ _ _ H2) in Hp.
      2:{ intros E. inversion E.
          destruct (direction_cases d Hd) as [[F1 F2]|[[F1 F2]|[[F1 F2]|[F1 F2]]]];
          destruct (direction_cases d' Hd') as [[G1 G2]|[[G1 G2]|[[G1 G2]|[G1 G2]]]];
          rewrite F1, F2, G1, G2 in *; Z.div_mod_to_equations; lia. }
      rewrite (cellAt_setCell_other _ _ _ _ _ _ _ H1) in Hp; [exact Hp|].
      intros E. inversion E.
      destruct (direction_cases d Hd) as [[F1 F2]|[[F1 F2]|[[F1 F2]|[F1 F2]]]];
      destruct (direction_cases d' Hd') as [[G1 G2]|[[G1 G2]|[[G1 G2]|[G1 G2]]]];
      rewrite F1, F2, G1, G2 in *; Z.div_mod_to_equations; lia.
Qed.

End TreeFacts.

Section CarveTreeFacts.
Import MazeGenerator Outcome.
Local Open Scope Z_scope.
Variables cols rows : Z.

(* The loop over the directions carves as many passages as rooms. *)
Lemma carveDirs_tree
    (rec : Z -> Z -> CarveState -> Outcome.t CarveState) :
  (forall x y st st',
     oddCell (x, y) -> cellAt (fst st) x y = Some WALL ->
     (forall g1, setCell (fst st) x y PATH = Done g1 -> passagesJoin g1) ->
     rec x y st = Done st' ->
     passagesJoin (fst st') /\ keepsPaths (fst st) (fst st') /\
     (pathPassages (fst st') + pathRooms (fst st) + 1
      = pathPassages (fst st) + pathRooms (fst st'))%nat) ->
  forall (ds : list (option Direction)) (x y : Z) (st st' : CarveState),
    oddCell (x, y) ->
    (forall d, In (Some d) ds -> In d DIRECTIONS) ->
    cellAt (fst st) x y = Some PATH ->
    passagesJoin (fst st) ->
    carveDirs rec cols rows x y ds st = Done st' ->
    passagesJoin (fst st') /\ keepsPaths (fst st) (fst st') /\
    (pathPassages (fst st') + pathRooms (fst st)
     = pathPassages (fst st) + pathRooms (fst st'))%nat.
Proof.
  intros Hrec. induction ds as [|o rest IH]; intros x y st st' Ho Hds Hxy Hj Hrun.
  - cbn [carveDirs] in Hrun. inversion Hrun. subst st'.
    split; [exact Hj|]. split; [apply keepsPaths_refl | lia].
  - destruct o as [d|]; cbn [carveDirs] in Hrun; [|discriminate].
    assert (Hd : In d DIRECTIONS) by (apply Hds; left; reflexivity).
    assert (Hrest : forall d', In (Some d') rest -> In d' DIRECTIONS).
    { intros d' H'. apply Hds. right. exact H'. }
    destruct (if (0 <? x + dx d * 2) && (x + dx d * 2 <? cols - 1) &&
                 (0 <? y + dy d * 2) && (y + dy d * 2 <? rows - 1)
              then cellIs (fst st) (x + dx d * 2) (y + dy d * 2) WALL
              else Done false) as [unv| | |] eqn:Hunv;
      cbn [bind] in Hrun; try discriminate.
    destruct unv.
    + assert (Hn : cellAt (fst st) (x + dx d * 2) (y + dy d * 2) = Some WALL).
      { destruct ((0 <? x + dx d * 2) && (x + dx d * 2 <? cols - 1) &&
                  (0 <? y + dy d * 2) && (y + dy d * 2 <? rows - 1));
          [apply cellIs_true; exact Hunv | discriminate]. }
      destruct (setCell (fst st) (x + dx d) (y + dy d) PATH) as [g1| | |] eqn:Hset;
        cbn [bind] in Hrun; try discriminate.
      destruct (rec (x + dx d * 2) (y + dy d * 2) (g1, snd st)) as [st1| | |] eqn:Hr;
        cbn [bind] in Hrun; try discriminate.
      destruct (carve_passage_counts _ _ _ _ d Hd Ho Hj Hn Hset) as [Er Ep].
      assert (Ho' : oddCell (x + dx d * 2, y + dy d * 2)).
      { destruct Ho as [Hx Hy]. cbn [fst snd] in Hx, Hy.
        split; cbn [fst snd]; rewrite (Z.mul_comm _ 2), Z.odd_add_mul_2; assumption. }
      assert (Hn1 : cellAt g1 (x + dx d * 2) (y + dy d * 2) = Some WALL).
      { rewrite (cellAt_setCell_other _ _ _ _ _ _ _ Hset); [exact Hn|].
        intros E. inversion E.
        destruct (direction_cases d Hd) as [[F1 F2]|[[F1 F2]|[[F1 F2]|[F1 F2]]]];
          rewrite F1, F2 in *; lia. }
      destruct (Hrec _ _ (g1, snd st) st1 Ho' Hn1) as (Hj1 & Hk1 & Hc1).
      { intros g2 Hg2. cbn [fst] in Hg2.
        eapply (passagesJoin_step (fst st) g1 g2 x y d); eauto. }
      { exact Hr. }
      cbn [fst] in Hk1, Hc1.
      assert (Hxy1 : cellAt (fst st1) x y = Some PATH).
      { apply Hk1. eapply keepsPaths_setCell; eauto. }
      destruct (IH x y st1 st' Ho Hrest Hxy1 Hj1 Hrun) as (Hj' & Hk' & Hc').
      split; [exact Hj'|]. split.
      * eapply keepsPaths_trans; [|exact Hk'].
        eapply keepsPaths_trans; [|exact Hk1].
        eapply keepsPaths_setCell; eauto.
      * lia.
    + cbn [bind] in Hrun. eapply IH; eauto.
Qed.

(* _carve(x, y) carves one room more than passages. *)
Lemma carve_tree (fuel : nat) :
  forall (x y : Z) (st st' : CarveState),
    oddCell (x, y) -> cellAt (fst st) x y = Some WALL ->
    (forall g1, setCell (fst st) x y PATH = Done g1 -> passagesJoin g1) ->
    carve fuel cols rows x y st = Done st' ->
    passagesJoin (fst st') /\ keepsPaths (fst st) (fst st') /\
    (pathPassages (fst st') + pathRooms (fst st) + 1
     = pathPassages (fst st) + pathRooms (fst st'))%nat.
Proof.
  induction fuel as [|f IH]; intros x y st st' Ho Hw Hj Hrun; cbn [carve] in Hrun.
  - discriminate.
  - destruct (setCell (fst st) x y PATH) as [g1| | |] eqn:Hset;
      cbn [bind] in Hrun; try discriminate.
    pose proof (shuffle_spec DIRECTIONS (snd st)) as [Hfrom _].
    destruct (SeededRandom.shuffle DIRECTIONS (snd st)) as [directions r1].
    cbn [fst] in Hfrom.
    destruct (carve_room_counts _ _ _ _ Ho Hw Hset) as [Er Ep].
    destruct (carveDirs_tree (carve f cols rows) IH (JsArray.items directions)
                x y (g1, r1) st' Ho) as (Hj' & Hk' & Hc').
    + intros d Hd. destruct (Hfrom _ Hd) as [E | [a [Ha E]]]; [discriminate|].
      inversion E. subst. exact Ha.
    + cbn [fst]. eapply cellAt_setCell_same; eauto.
    + cbn [fst]. apply Hj. reflexivity.
    + exact Hrun.
    + cbn [fst] in Hk', Hc'.
      split; [exact Hj'|]. split.
      * eapply keepsPaths_trans; [|exact Hk']. eapply keepsPaths_setCell; eauto.
      * lia.
Qed.

(* The carved grid is a tree of rooms: one passage fewer than rooms. *)
Lemma generateMaze_tree (r : SeededRandom.t) (st : CarveState) :
  3 <= cols -> 3 <= rows ->
  generateMaze cols rows r = Done st ->
  (pathPassages (fst st) + 1 = pathRooms (fst st))%nat /\
  passagesJoin (fst st).
Proof.
  intros Hc Hr Hrun. unfold generateMaze in Hrun.
  destruct (allWalls_no_paths cols rows) as [E1 E2].
  assert (Hint : 0 <= actualStartX cols < cols).
  { destruct (actualStartX_cases cols) as [E|E]; rewrite E;
      Z.div_mod_to_equations; lia. }
  assert (Hw : cellAt (allWalls cols rows) (actualStartX cols) 1 = Some WALL).
  { destruct (wellFormed_cellAt cols rows _ (actualStartX cols) 1
                (allWalls_wellFormed cols rows)) as [c Hcell]; [lia|lia|].
    rewrite Hcell. f_equal. eapply cellAt_allWalls; eauto. }
  assert (Hodd : oddCell (actualStartX cols, 1)).
  { split; [apply actualStartX_odd; exact Hc | reflexivity]. }
  destruct (carve_tree (carveFuel cols rows) (actualStartX cols) 1
              (allWalls cols rows, r) st Hodd Hw) as (Hj & _ & Hcnt).
  - intros g1 Hg1 a b d Hd Ho Hp. exfalso.
    rewrite (cellAt_setCell _ _ _ _ _ Hg1) in Hp.
    destruct (Z.eqb_spec (a + dx d) (actualStartX cols)) as [Ea|Ea];
      destruct (Z.eqb_spec (b + dy d) 1) as [Eb|Eb]; cbn [andb] in Hp;
      try (apply cellAt_allWalls in Hp; discriminate).
    destruct Ho as [Hoa Hob]. cbn [fst snd] in Hoa, Hob.
    pose proof (actualStartX_odd cols Hc) as Hos.
    apply odd_mod2 in Hoa, Hob, Hos.
    destruct (direction_cases d Hd) as [[F1 F2]|[[F1 F2]|[[F1 F2]|[F1 F2]]]];
      rewrite F1, F2 in *; Z.div_mod_to_equations; lia.
  - exact Hrun.
  - cbn [fst] in Hcnt. rewrite E1, E2 in Hcnt. split; [lia | exact Hj].
Qed.

End CarveTreeFacts.

Section ExitTreeFacts.
Import MazeGenerator Outcome.
Local Open Scope Z_scope.
Variables cols rows : Z.
Hypothesis cols_ge : 3 <= cols.
Hypothesis rows_ge : 3 <= rows.
Hypothesis cols_odd : Z.odd cols = true.
Hypothesis rows_odd : Z.odd rows = true.

(* Writing a cell that is not Path over a cell that is not Path. *)
Lemma counts_setCell_other (g g' : Grid) (x y : Z) (c v : CellType) :
  cellAt g x y = Some c -> c <> PATH -> v <> PATH ->
  setCell g x y v = Done g' ->
  pathRooms g' = pathRooms g /\ pathPassages g' = pathPassages g.
Proof.
  intros Hc Hne Hv Hset.
  pose proof (countCells_setCell isRoom g g' x y c v Hc Hset) as H1.
  pose proof (countCells_setCell isPassage g g' x y c v Hc Hset) as H2.
  assert (Ec : cell_eqb c PATH = false) by (destruct c; try reflexivity; contradiction).
  assert (Ev : cell_eqb v PATH = false) by (destruct v; try reflexivity; contradiction).
  assert (F1 : isRoom x y c = false) by (unfold isRoom; rewrite Ec; apply andb_false_r).
  assert (F2 : isRoom x y v = false) by (unfold isRoom; rewrite Ev; apply andb_false_r).
  assert (F3 : isPassage x y c = false)
    by (unfold isPassage; rewrite Ec; apply andb_false_r).
  assert (F4 : isPassage x y v = false)
    by (unfold isPassage; rewrite Ev; apply andb_false_r).
  rewrite F1, F2 in H1. rewrite F3, F4 in H2.
  unfold pathRooms, pathPassages. lia.
Qed.

Lemma placeExits_counts (ps : list Q) :
  forall (g : Grid) (cs : list Z) (g' : Grid) (cs' : list Z),
    (forall x, cellAt g x (rows - 1) <> Some PATH) ->
    placeExits cols rows ps (g, cs) = Done (g', cs') ->
    pathRooms g' = pathRooms g /\ pathPassages g' = pathPassages g.
Proof.
  induction ps as [|pos rest IH]; intros g cs g' cs' Hrow Hrun.
  - cbn [placeExits] in Hrun. inversion Hrun. subst. split; reflexivity.
  - cbn [placeExits fst snd] in Hrun.
    destruct (nearestPath g rows (Qfloor (pos * inject_Z cols)) (scanColumns cols)
                (Qfloor (pos * inject_Z cols), None))
      as [best| | |]; cbn [bind] in Hrun; try discriminate.
    destruct (setCell g (fst best) (rows - 1) EXIT) as [g1| | |] eqn:Hset;
      cbn [bind] in Hrun; try discriminate.
    destruct (setCell_cellAt _ _ _ _ _ Hset) as [c0 Hc0].
    destruct (counts_setCell_other g g1 _ _ c0 EXIT Hc0) as [E1 E2].
    { intros ->. exact (Hrow _ Hc0). }
    { discriminate. }
    { exact Hset. }
    destruct (IH g1 (cs ++ [fst best]) g' cs') as [E1' E2'].
    + intros x Hx. rewrite (cellAt_setCell _ _ _ _ _ Hset) in Hx.
      destruct ((x =? fst best) && (rows - 1 =? rows - 1)); [discriminate|].
      exact (Hrow x Hx).
    + exact Hrun.
    + split; congruence.
Qed.

(* _createEntryAndExits keeps the rooms; it adds a passage only when it
   opens a Wall cell below the entry, between two rooms. *)
Lemma createEntryAndExits_counts (g g' : Grid) (cs : list Z) :
  fullyCarved cols rows g ->
  grows cols rows (allWalls cols rows) g ->
  createEntryAndExits cols rows g = Done (g', cs) ->
  pathRooms g' = pathRooms g /\
  (pathPassages g' = pathPassages g \/
   (Z.even (cols / 2) = true /\ cellAt g (cols / 2) 1 = Some WALL /\
    pathPassages g' = S (pathPassages g))).
Proof.
  intros (Hwf & Hwp & _ & _ & Hall) Hgrow Hrun.
  assert (Hborder : forall x y, y = 0 \/ y = rows - 1 ->
                      cellAt g x y <> Some PATH).
  { intros x y Hy Hp.
    destruct (Hgrow x y) as [E | (_ & _ & [_ Hi])].
    - rewrite E in Hp. apply cellAt_allWalls in Hp. discriminate.
    - cbn [snd] in Hi. lia. }
  unfold createEntryAndExits in Hrun.
  set (cx := cols / 2) in *.
  assert (Hcx : 0 < cx < cols - 1).
  { subst cx. apply Z.odd_spec in cols_odd. destruct cols_odd as [k Hk].
    assert (Hd : cols / 2 = k).
    { rewrite Hk. rewrite Z.add_comm, Z.mul_comm, Z.div_add; [|lia]. reflexivity. }
    rewrite Hd. lia. }
  destruct (setCell g cx 0 ENTRY) as [g1| | |] eqn:Hg1; cbn [bind] in Hrun;
    try discriminate.
  destruct (setCell g1 cx 1 PATH) as [g2| | |] eqn:Hg2; cbn [bind] in Hrun;
    try discriminate.
  destruct (placeExits cols rows exitPositions (g2, [])) as [st| | |] eqn:Hpl;
    cbn [bind] in Hrun; try discriminate.
  destruct st as [g3 cs3]. cbn [fst snd] in Hrun.
  assert (Hwf2 : wellFormed cols rows g2).
  { eapply setCell_wellFormed; eauto. eapply setCell_wellFormed; eauto. }
  assert (Hone2 : cellAt g2 1 (rows - 2) = Some PATH).
  { rewrite (cellAt_setCell _ _ _ _ _ Hg2).
    destruct ((1 =? cx) && (rows - 2 =? 1)); [reflexivity|].
    rewrite (cellAt_setCell_other _ _ _ _ _ _ _ Hg1).
    - apply Hall.
      + unfold interior. cbn [fst snd]. lia.
      + unfold oddCell. cbn [fst snd]. split; [reflexivity|].
        replace (rows - 2) with (rows + 2 * (-1)) by lia.
        rewrite Z.odd_add_mul_2. exact rows_odd.
    - intros E. inversion E. lia. }
  destruct (placeExits_frame cols rows cols_ge rows_ge exitPositions g2 [] g3 cs3
              Hwf2 Hone2 Hpl) as (chosen & _ & Hwf3 & Hcell & Hnear).
  rewrite (connectExits_skip cols rows g3 cs3 Hwf3) in Hrun.
  2:{ intros c Hc.
      destruct (placeExits_frame cols rows cols_ge rows_ge exitPositions g2 [] g3 cs3
                  Hwf2 Hone2 Hpl) as (ch & Hcs & _ & Hcell' & Hnear').
      cbn [app] in Hcs. subst ch.
      assert (Hn : exists pos, nearestOpen cols rows g2 (Qfloor (pos * inject_Z cols)) c).
      { clear - Hnear' Hc. induction Hnear' as [|a b la lb Hab _ IH]; [destruct Hc|].
        destruct Hc as [<- | Hc]; [exists a; exact Hab | apply IH; exact Hc]. }
      destruct Hn as [pos (_ & Hp & _)]. rewrite Hcell'.
      destruct (Z.eqb_spec (rows - 2) (rows - 1)) as [E|E]; [lia|]. exact Hp. }
  cbn [bind] in Hrun. inversion Hrun. subst g3 cs3. clear Hrun.
  (* the entry *)
  destruct (setCell_cellAt _ _ _ _ _ Hg1) as [c0 Hc0].
  destruct (counts_setCell_other g g1 cx 0 c0 ENTRY Hc0) as [R1 P1].
  { intros ->. exact (Hborder cx 0 (or_introl eq_refl) Hc0). }
  { discriminate. }
  { exact Hg1. }
  (* the exits *)
  destruct (placeExits_counts exitPositions g2 [] g' cs) as [R3 P3].
  { intros x Hx.
    rewrite (cellAt_setCell_other _ _ _ _ _ _ _ Hg2) in Hx
      by (intros E; inversion E; lia).
    rewrite (cellAt_setCell_other _ _ _ _ _ _ _ Hg1) in Hx
      by (intros E; inversion E; lia).
    exact (Hborder x (rows - 1) (or_intror eq_refl) Hx). }
  { exact Hpl. }
  (* the cell below the entry *)
  assert (Hc1 : cellAt g1 cx 1 = cellAt g cx 1).
  { eapply cellAt_setCell_other; eauto. intros E. inversion E. }
  destruct (setCell_cellAt _ _ _ _ _ Hg2) as [c1 Hc1'].
  rewrite Hc1 in Hc1'.
  pose proof (countCells_setCell isRoom g1 g2 cx 1 c1 PATH
                ltac:(rewrite Hc1; exact Hc1') Hg2) as Q1.
  pose proof (countCells_setCell isPassage g1 g2 cx 1 c1 PATH
                ltac:(rewrite Hc1; exact Hc1') Hg2) as Q2.
  fold (pathRooms g2) (pathRooms g1) in Q1.
  fold (pathPassages g2) (pathPassages g1) in Q2.
  destruct (Z.odd cx) eqn:Eodd.
  - assert (Ep : c1 = PATH).
    { assert (H : cellAt g cx 1 = Some PATH).
      { apply Hall; [unfold interior; cbn [fst snd]; lia|].
        split; [exact Eodd | reflexivity]. }
      congruence. }
    subst c1. split; [lia|]. left. lia.
  - unfold isRoom in Q1. unfold isPassage in Q2. rewrite Eodd in Q1, Q2.
    cbn [andb xorb Z.odd negb] in Q1, Q2.
    destruct (Hwp _ _ _ Hc1') as [-> | ->]; cbn [cell_eqb] in Q2.
    + split; [lia|]. right. split; [|split; [exact Hc1' | lia]].
      rewrite <- Z.negb_odd, Eodd. reflexivity.
    + split; [lia|]. left. lia.
Qed.

End ExitTreeFacts.

Section TreeProperties.
Import MazeGenerator Outcome.

(** X17. After init the Path cells with two odd coordinates (rooms) are one
    more than the Path cells with exactly one odd coordinate (passages),
    as in a tree; the only exception is a grid with floor(cols/2) even,
    where opening the cell below the entry can add one passage and so
    one loop (lemma loop_below_entry_at_level_2 shows such a maze). *)
Theorem carved_cells_form_a_tree :
  forall (zh : Q) (lvl : Z) (cw ch : Q) (now : float) (m : MazeGenerator.t),
    init zh lvl cw ch now = Done m ->
    (pathPassages (grid m) + 1 = pathRooms (grid m))%nat \/
    (Z.even (cols m / 2) = true /\
     pathPassages (grid m) = pathRooms (grid m)).
Proof.
  intros zh lvl cw ch now m. unfold init.
  set (c := levelCols lvl). set (r := levelRows lvl).
  destruct (generateMaze c r (SeededRandom.mk now)) as [st| | |] eqn:Hgen;
    cbn [bind]; try discriminate.
  destruct (generateMaze_Done_dims c r _ st (levelCols_odd lvl)
              (levelRows_odd lvl) Hgen) as [Hc Hr].
  pose proof (generateMaze_spec c r Hc Hr (levelCols_odd lvl)
                (SeededRandom.mk now)) as Hspec.
  rewrite Hgen in Hspec.
  destruct (generateMaze_layout c r Hc Hr (levelCols_odd lvl) _ _ Hgen)
    as [Hgrow _].
  destruct (generateMaze_tree c r _ st Hc Hr Hgen) as [Htree _].
  destruct (createEntryAndExits c r (fst st)) as [ge| | |] eqn:Hce;
    cbn [bind]; try discriminate.
  destruct ge as [g' cs].
  destruct (createEntryAndExits_counts c r Hc Hr (levelCols_odd lvl)
              (levelRows_odd lvl) (fst st) g' cs Hspec Hgrow Hce)
    as [ER [EP | (Hev & _ & EP)]].
  - intros E. inversion E. subst m. cbn [grid cols fst snd]. left. lia.
  - intros E. inversion E. subst m. cbn [grid cols fst snd]. right.
    split; [exact Hev | lia].
Qed.

Lemma carved_cells_form_a_tree_witness :
  match init 60 1 800 600 1700000000000%float with
  | Done m => (pathPassages (grid m) + 1 = pathRooms (grid m))%nat
  | _ => False
  end.
Proof.
  destruct (init 60 1 800 600 1700000000000%float) as [m| | |] eqn:E;
    try (vm_compute in E; discriminate).
  destruct (sample_maze_dims _ m E) as (Hc & _).
  destruct (carved_cells_form_a_tree _ _ _ _ _ m E) as [H | [Hev _]].
  - exact H.
  - rewrite Hc in Hev. discriminate.
Defined.

(* The exception occurs: the maze of level 2 seeded with 1700000000000
   has as many passages as rooms. *)
Lemma loop_below_entry_at_level_2 :
  match init 60 2 800 600 1700000000000%float with
  | Done m =>
      Z.even (cols m / 2) = true /\
      pathPassages (grid m) = pathRooms (grid m)
  | _ => False
  end.
Proof.
  destruct (init 60 2 800 600 1700000000000%float) as [m| | |] eqn:E;
    try (vm_compute in E; discriminate).
  assert (E' : Outcome.bind (init 60 2 800 600 1700000000000%float)
                 (fun m0 => Done (Z.even (cols m0 / 2),
                                  Nat.eqb (pathPassages (grid m0))
                                          (pathRooms (grid m0))))
               = Done (Z.even (cols m / 2),
                       Nat.eqb (pathPassages (grid m)) (pathRooms (grid m)))).
  { rewrite E. reflexivity. }
  vm_compute in E'. inversion E' as [[H1 H2]].
  split; [symmetry; exact H1|]. apply Nat.eqb_eq. symmetry. exact H2.
Qed.

End TreeProperties.

(* --------------------------------------------------------------------- *)
(*  MazeGenerator: exits against their score zones                       *)
(* --------------------------------------------------------------------- *)

Section ExitZoneFacts.
Import MazeGenerator Outcome.
Local Open Scope Z_scope.

(* With a Path cell at every odd column, an odd target is an exit
   column. *)
Lemma nearestOpen_odd_target (cols rows : Z) (g : Grid) (t c : Z) :
  1 <= t <= cols - 2 ->
  (forall x, 1 <= x <= cols - 2 -> Z.odd x = true ->
             cellAt g x (rows - 2) = Some PATH) ->
  nearestOpen cols rows g t c ->
  Z.odd t = true -> c = t.
Proof.
  intros Ht Hodd (Hc & Hp & Hmin) Eo.
  destruct (Hmin t Ht (Hodd t Ht Eo)) as [H1 _]. lia.
Qed.

(* The exit columns of a maze of level 0 or more, against their targets
   floor(p * cols) = (10 p) * cols / 10. *)
Lemma init_exit_targets (zh : Q) (lvl : Z) (cw ch : Q) (now : float)
    (m : MazeGenerator.t) :
  0 <= lvl ->
  init zh lvl cw ch now = Done m ->
  11 <= cols m /\ Z.odd (cols m) = true /\
  exists c1 c2 c3 c4 c5,
    exitColumns m = [c1; c2; c3; c4; c5] /\
    Forall2 (fun k c =>
               k * cols m / 10 - 1 <= c <= k * cols m / 10 /\
               (Z.odd (k * cols m / 10) = true -> c = k * cols m / 10))
            [1; 3; 5; 7; 9] [c1; c2; c3; c4; c5].
Proof.
  intros Hl Hm.
  destruct (init_grid zh lvl cw ch now m Hm) as (_ & _ & _ & _ & _ & Hnear).
  destruct (init_fields zh lvl cw ch now m Hm) as (Ec & Er & _).
  pose proof (levelCols_ge lvl Hl) as Hc. rewrite <- Ec in Hc.
  pose proof (levelRows_ge lvl Hl) as Hr. rewrite <- Er in Hr.
  pose proof (levelRows_odd lvl) as Hro. rewrite <- Er in Hro.
  pose proof (levelCols_odd lvl) as Hco. rewrite <- Ec in Hco.
  assert (Hodd : forall x, (1 <= x <= cols m - 2)%Z -> Z.odd x = true ->
                           cellAt (grid m) x (rows m - 2) = Some PATH).
  { intros x Hx Ho.
    apply (init_interior_cells zh lvl cw ch now m x (rows m - 2) Hm).
    - unfold interior. cbn [fst snd]. lia.
    - split; cbn [fst snd]; [exact Ho|].
      replace (rows m - 2)%Z with (rows m + 2 * (-1))%Z by lia.
      rewrite Z.odd_add_mul_2. exact Hro. }
  split; [exact Hc|]. split; [exact Hco|].
  remember (exitColumns m) as cs eqn:Ecs. clear Ecs.
  unfold exitPositions in Hnear.
  inversion Hnear as [|p1 c1 ps1 l1 N1 R1]; subst.
  inversion R1 as [|p2 c2 ps2 l2 N2 R2]; subst.
  inversion R2 as [|p3 c3 ps3 l3 N3 R3]; subst.
  inversion R3 as [|p4 c4 ps4 l4 N4 R4]; subst.
  inversion R4 as [|p5 c5 ps5 l5 N5 R5]; subst.
  inversion R5; subst.
  rewrite Qfloor_tenths in N1, N2, N3, N4, N5.
  exists c1, c2, c3, c4, c5. split; [reflexivity|].
  assert (A : forall k c,
            1 <= k * cols m / 10 <= cols m - 2 ->
            nearestOpen (cols m) (rows m) (grid m) (k * cols m / 10) c ->
            k * cols m / 10 - 1 <= c <= k * cols m / 10 /\
            (Z.odd (k * cols m / 10) = true -> c = k * cols m / 10)).
  { intros k c Hk Hn. split.
    - apply (nearestOpen_within_one _ _ _ _ _ Hk Hodd Hn).
    - apply (nearestOpen_odd_target _ _ _ _ _ Hk Hodd Hn). }
  repeat (apply Forall2_cons;
          [apply A; [Z.div_mod_to_equations; lia | assumption]|]).
  apply Forall2_nil.
Qed.

(* The centre of column [c] lies in the fifth [i] of the width. *)
Lemma centre_in_fifth (cols cs c i : Z) :
  0 < cs ->
  2 * i * cols < 10 * c + 5 -> 10 * c + 5 <= 2 * (i + 1) * cols ->
  let x := ((inject_Z c + (1 # 2)) * inject_Z cs)%Q in
  let W := inject_Z (cols * cs) in
  (inject_Z i * (W / 5) < x /\ x <= inject_Z i * (W / 5) + W / 5)%Q.
Proof.
  intros Hcs Hlo Hhi x W. subst x W.
  assert (Hq : (0 < inject_Z cs)%Q).
  { change 0%Q with (inject_Z 0). rewrite <- Zlt_Qlt. exact Hcs. }
  rewrite Zlt_Qlt in Hlo. rewrite Zle_Qle in Hhi.
  rewrite !inject_Z_plus, !inject_Z_mult in Hlo, Hhi.
  rewrite ?inject_Z_plus in Hhi.
  change (inject_Z 2) with 2%Q in *. change (inject_Z 10) with 10%Q in *.
  change (inject_Z 5) with 5%Q in *. change (inject_Z 1) with 1%Q in *.
  rewrite inject_Z_mult.
  set (I := inject_Z i) in *. set (K := inject_Z cols) in *.
  set (C := inject_Z cs) in *. set (Cc := inject_Z c) in *.
  clearbody I K C Cc.
  assert (H1 : (2 * I * K * C < (10 * Cc + 5) * C)%Q)
    by (apply Qmult_lt_compat_r; assumption).
  assert (H2 : ((10 * Cc + 5) * C <= 2 * (I + 1) * K * C)%Q)
    by (apply Qmult_le_compat_r; [assumption | lra]).
  assert (E1 : (I * (K * C / 5) == 2 * I * K * C * (1 # 10))%Q) by field.
  assert (E2 : ((Cc + (1 # 2)) * C == (10 * Cc + 5) * C * (1 # 10))%Q) by field.
  assert (E3 : (I * (K * C / 5) + K * C / 5 == 2 * (I + 1) * K * C * (1 # 10))%Q)
    by field.
  rewrite E3, E1, E2.
  set (u := (2 * I * K * C)%Q) in *. set (v := ((10 * Cc + 5) * C)%Q) in *.
  set (w := (2 * (I + 1) * K * C)%Q) in *. clearbody u v w.
  clear E1 E2 E3 Hlo Hhi. split; lra.
Qed.

End ExitZoneFacts.

Section ExitScoreFacts.
Import MazeGenerator Outcome.
Local Open Scope Z_scope.

Ltac qle_split :=
  match goal with
  | |- context [Qle_bool ?a ?b] =>
      let H := fresh "Hq" in
      destruct (Qle_bool a b) eqn:H;
      [apply Qle_bool_iff in H
      |apply not_true_iff_false in H; rewrite Qle_bool_iff in H;
       apply Qnot_le_lt in H];
      cbn [andb]
  end.

(* A point past the left edge of a zone and not past its right edge is
   given that zone. *)
Lemma zone_lookup (zh : Q) (lvl : Z) (cw ch : Q) (now : float)
    (m : MazeGenerator.t) (x : Q) (i : nat) (z : ExitZone) :
  init zh lvl cw ch now = Done m ->
  nth_error (exitZones m) i = Some z ->
  (zoneX z < x)%Q -> (x <= zoneX z + zoneWidth z)%Q ->
  getExitZoneForX m x = Some z.
Proof.
  intros Hm Hi Hlo Hhi.
  destruct (init_Done zh lvl cw ch now m Hm)
    as (Hc & Hr & Hcs & Hw & _ & Hz & _ & _).
  set (W := inject_Z (width m)) in *.
  assert (HW : (0 < W)%Q).
  { subst W. change 0%Q with (inject_Z 0). rewrite <- Zlt_Qlt. nia. }
  unfold getExitZoneForX. rewrite Hz in Hi |- *.
  unfold buildExitZones in Hi |- *. fold W in Hi |- *.
  cbn [seq map find zoneX zoneWidth] in Hi |- *.
  change (inject_Z (Z.of_nat 0)) with 0%Q in *.
  change (inject_Z (Z.of_nat 1)) with 1%Q in *.
  change (inject_Z (Z.of_nat 2)) with 2%Q in *.
  change (inject_Z (Z.of_nat 3)) with 3%Q in *.
  change (inject_Z (Z.of_nat 4)) with 4%Q in *.
  assert (H5 : (0 < W / 5)%Q) by (apply Qlt_shift_div_l; lra).
  set (w := (W / 5)%Q) in *. clearbody w.
  do 5 (destruct i as [|i];
        [inversion Hi; subst z; cbn [zoneX zoneWidth] in Hlo, Hhi;
         repeat qle_split; try reflexivity; exfalso; lra|]).
  destruct i; discriminate.
Qed.

End ExitScoreFacts.

Section ExitScoreProperties.
Import MazeGenerator Outcome.

(** X18. For level >= 0 the horizontal centre of the i-th exit cell, x =
    (exitColumns[i] + 0.5)*cellSize, lies in the i-th exit zone:
    getExitZoneForX(x) returns zone i, so a ball leaving through the
    middle of an exit gets the score of that exit's zone. The exit cell
    as a whole can reach into the zone on its left (lemma
    exit_cell_straddles_zone_edge_at_level_2). *)
Theorem exit_centre_in_own_zone :
  forall (zh : Q) (lvl : Z) (cw ch : Q) (now : float) (m : MazeGenerator.t)
         (i : nat) (c : Z) (z : ExitZone),
    (0 <= lvl)%Z ->
    init zh lvl cw ch now = Done m ->
    nth_error (exitColumns m) i = Some c ->
    nth_error (exitZones m) i = Some z ->
    getExitZoneForX m ((inject_Z c + (1 # 2)) * inject_Z (cellSize m)) = Some z.
Proof.
  intros zh lvl cw ch now m i c z Hl Hm Hc Hz.
  destruct (init_exit_targets zh lvl cw ch now m Hl Hm)
    as (Hcols & Hodd & c1 & c2 & c3 & c4 & c5 & Ecs & Hall).
  destruct (init_Done zh lvl cw ch now m Hm)
    as (_ & _ & Hcs & Hw & _ & Ez & _ & _).
  assert (Hpos : (0 < cellSize m)%Z) by lia.
  assert (Hcase : (cols m = 11 \/ cols m = 13 \/ 15 <= cols m)%Z).
  { apply Z.odd_spec in Hodd. destruct Hodd as [k Hk]. lia. }
  assert (Hint : (2 * Z.of_nat i * cols m < 10 * c + 5 /\
                  10 * c + 5 <= 2 * (Z.of_nat i + 1) * cols m)%Z).
  { rewrite Ecs in Hc.
    inversion Hall as [|k1 d1 ks1 ds1 F1 G1]; subst.
    inversion G1 as [|k2 d2 ks2 ds2 F2 G2]; subst.
    inversion G2 as [|k3 d3 ks3 ds3 F3 G3]; subst.
    inversion G3 as [|k4 d4 ks4 ds4 F4 G4]; subst.
    inversion G4 as [|k5 d5 ks5 ds5 F5 G5]; subst.
    clear Hall G1 G2 G3 G4 G5.
    destruct F1 as [B1 O1]. destruct F2 as [B2 O2]. destruct F3 as [B3 O3].
    destruct F4 as [B4 O4]. destruct F5 as [B5 O5].
    destruct Hcase as [E|[E|E]].
    - rewrite E in *.
      change (1 * 11 / 10)%Z with 1%Z in *. change (3 * 11 / 10)%Z with 3%Z in *.
      change (5 * 11 / 10)%Z with 5%Z in *. change (7 * 11 / 10)%Z with 7%Z in *.
      change (9 * 11 / 10)%Z with 9%Z in *.
      specialize (O1 eq_refl). specialize (O2 eq_refl). specialize (O3 eq_refl).
      specialize (O4 eq_refl). specialize (O5 eq_refl).
      do 5 (destruct i as [|i]; [inversion Hc; subst c; cbn [Z.of_nat]; lia|]).
      destruct i; discriminate.
    - rewrite E in *.
      change (1 * 13 / 10)%Z with 1%Z in *. change (3 * 13 / 10)%Z with 3%Z in *.
      change (5 * 13 / 10)%Z with 6%Z in *. change (7 * 13 / 10)%Z with 9%Z in *.
      change (9 * 13 / 10)%Z with 11%Z in *.
      specialize (O1 eq_refl). specialize (O2 eq_refl).
      specialize (O4 eq_refl). specialize (O5 eq_refl).
      do 5 (destruct i as [|i]; [inversion Hc; subst c; cbn [Z.of_nat]; lia|]).
      destruct i; discriminate.
    - clear O1 O2 O3 O4 O5.
      do 5 (destruct i as [|i];
            [inversion Hc; subst c; cbn [Z.of_nat];
             Z.div_mod_to_equations; lia|]).
      destruct i; discriminate. }
  assert (Hzx : zoneX z = (inject_Z (Z.of_nat i) * (inject_Z (width m) / 5))%Q /\
                zoneWidth z = (inject_Z (width m) / 5)%Q).
  { rewrite Ez in Hz. apply buildExitZones_nth in Hz. tauto. }
  destruct Hzx as [Ex Ewd].
  destruct (centre_in_fifth (cols m) (cellSize m) c (Z.of_nat i) Hpos
              (proj1 Hint) (proj2 Hint)) as [Hlo Hhi].
  rewrite <- Hw in Hlo, Hhi. rewrite <- Ex in Hlo, Hhi. rewrite <- Ewd in Hhi.
  exact (zone_lookup zh lvl cw ch now m _ i z Hm Hz Hlo Hhi).
Qed.

Lemma exit_centre_in_own_zone_witness :
  match init 60 1 800 600 1700000000000%float with
  | Done m =>
      forall c z,
        nth_error (exitColumns m) 2 = Some c ->
        nth_error (exitZones m) 2 = Some z ->
        getExitZoneForX m ((inject_Z c + (1 # 2)) * inject_Z (cellSize m))
        = Some z
  | _ => False
  end.
Proof.
  destruct (init 60 1 800 600 1700000000000%float) as [m| | |] eqn:E;
    try (vm_compute in E; discriminate).
  intros c z Hc Hz.
  apply (exit_centre_in_own_zone 60 1 800 600 1700000000000%float m 2 c z);
    [lia | exact E | exact Hc | exact Hz].
Defined.

(* Why the property above speaks of the centre of an exit cell: in the
   maze of level 2 seeded with 1700000000000 the third exit is in column
   5, and a point a tenth of a cell into that column is given the second
   zone, with score 100. *)
Lemma exit_cell_straddles_zone_edge_at_level_2 :
  match init 60 2 800 600 1700000000000%float with
  | Done m =>
      nth_error (exitColumns m) 2 = Some 5%Z /\
      option_map score
        (getExitZoneForX m ((inject_Z 5 + (1 # 10)) * inject_Z (cellSize m)))
      = Some 100%Z
  | _ => False
  end.
Proof.
  destruct (init 60 2 800 600 1700000000000%float) as [m| | |] eqn:E;
    try (vm_compute in E; discriminate).
  assert (E' : Outcome.bind (init 60 2 800 600 1700000000000%float)
                 (fun m0 =>
                    Done (nth_error (exitColumns m0) 2,
                          option_map score
                            (getExitZoneForX m0
                               ((inject_Z 5 + (1 # 10)) * inject_Z (cellSize m0)))))
               = Done (nth_error (exitColumns m) 2,
                       option_map score
                         (getExitZoneForX m
                            ((inject_Z 5 + (1 # 10)) * inject_Z (cellSize m))))).
  { rewrite E. reflexivity. }
  vm_compute in E'. inversion E' as [[H1 H2]].
  split; [symmetry; exact H1 | symmetry; exact H2].
Qed.

End ExitScoreProperties.

Section ConnectFacts.
Import MazeGenerator Outcome.
Local Open Scope Z_scope.
Variables cols rows : Z.
Hypothesis cols_ge : 3 <= cols.
Hypothesis rows_ge : 3 <= rows.
Hypothesis cols_odd : Z.odd cols = true.
Hypothesis rows_odd : Z.odd rows = true.

(* The steps of _createEntryAndExits on a carved grid: the two writes at
   the entry, the placement loop, and a connection loop that has nothing
   to do. *)
Lemma createEntryAndExits_steps (g g' : Grid) (cs : list Z) :
  fullyCarved cols rows g ->
  createEntryAndExits cols rows g = Done (g', cs) ->
  exists g1 g2,
    setCell g (cols / 2) 0 ENTRY = Done g1 /\
    setCell g1 (cols / 2) 1 PATH = Done g2 /\
    placeExits cols rows exitPositions (g2, []) = Done (g', cs) /\
    connectExits rows cs g' = Done g' /\
    forall c, In c cs -> cellIs g' c (rows - 2) WALL = Done false.
Proof.
  intros (Hwf & _ & _ & _ & Hall) Hrun.
  unfold createEntryAndExits in Hrun.
  set (cx := cols / 2) in *.
  destruct (setCell g cx 0 ENTRY) as [g1| | |] eqn:Hg1; cbn [bind] in Hrun;
    try discriminate.
  destruct (setCell g1 cx 1 PATH) as [g2| | |] eqn:Hg2; cbn [bind] in Hrun;
    try discriminate.
  destruct (placeExits cols rows exitPositions (g2, [])) as [st| | |] eqn:Hpl;
    cbn [bind] in Hrun; try discriminate.
  destruct st as [g3 cs3]. cbn [fst snd] in Hrun.
  assert (Hwf2 : wellFormed cols rows g2).
  { eapply setCell_wellFormed; eauto. eapply setCell_wellFormed; eauto. }
  assert (Hone2 : cellAt g2 1 (rows - 2) = Some PATH).
  { rewrite (cellAt_setCell _ _ _ _ _ Hg2).
    destruct ((1 =? cx) && (rows - 2 =? 1)); [reflexivity|].
    rewrite (cellAt_setCell_other _ _ _ _ _ _ _ Hg1).
    - apply Hall.
      + unfold interior. cbn [fst snd]. lia.
      + unfold oddCell. cbn [fst snd]. split; [reflexivity|].
        replace (rows - 2) with (rows + 2 * (-1)) by lia.
        rewrite Z.odd_add_mul_2. exact rows_odd.
    - intros E. inversion E. lia. }
  destruct (placeExits_frame cols rows cols_ge rows_ge exitPositions g2 [] g3 cs3
              Hwf2 Hone2 Hpl) as (chosen & Hcs & Hwf3 & Hcell & Hnear).
  cbn [app] in Hcs. subst chosen.
  assert (Habove : forall c, In c cs3 -> cellAt g3 c (rows - 2) = Some PATH).
  { intros c Hc.
    assert (Hn : exists pos, nearestOpen cols rows g2 (Qfloor (pos * inject_Z cols)) c).
    { clear - Hnear Hc. induction Hnear as [|a b la lb Hab _ IH]; [destruct Hc|].
      destruct Hc as [<- | Hc]; [exists a; exact Hab | apply IH; exact Hc]. }
    destruct Hn as [pos (_ & Hp & _)]. rewrite Hcell.
    destruct (Z.eqb_spec (rows - 2) (rows - 1)) as [E|E]; [lia|]. exact Hp. }
  pose proof (connectExits_skip cols rows g3 cs3 Hwf3 Habove) as Hskip.
  rewrite Hskip in Hrun. cbn [bind] in Hrun. inversion Hrun. subst g3 cs3.
  exists g1, g2.
  do 4 (split; [first [reflexivity | assumption]|]).
  intros c Hc. rewrite (cellIs_cellAt _ _ _ PATH WALL (Habove c Hc)). reflexivity.
Qed.

End ConnectFacts.

Section ConnectProperties.
Import MazeGenerator Outcome.

(** X19. On every grid that _generateMaze returns, the second loop of
    _createEntryAndExits (lines 281-290) changes nothing: after the
    placement loop the cell above every exit is already a Path cell, so
    no cell is carved upward. *)
Theorem exit_connection_loop_is_idle :
  forall (lvl : Z) (now : float) (st : CarveState) (g : Grid) (cs : list Z),
    let cols := levelCols lvl in
    let rows := levelRows lvl in
    generateMaze cols rows (SeededRandom.mk now) = Done st ->
    createEntryAndExits cols rows (fst st) = Done (g, cs) ->
    (exists g1 g2,
       setCell (fst st) (cols / 2) 0 ENTRY = Done g1 /\
       setCell g1 (cols / 2) 1 PATH = Done g2 /\
       placeExits cols rows exitPositions (g2, []) = Done (g, cs)) /\
    connectExits rows cs g = Done g /\
    (forall c, In c cs -> cellIs g c (rows - 2) WALL = Done false).
Proof.
  intros lvl now st g cs cols rows Hgen Hrun.
  destruct (generateMaze_Done_dims cols rows _ st (levelCols_odd lvl)
              (levelRows_odd lvl) Hgen) as [Hc Hr].
  pose proof (generateMaze_spec cols rows Hc Hr (levelCols_odd lvl)
                (SeededRandom.mk now)) as Hspec.
  rewrite Hgen in Hspec.
  destruct (createEntryAndExits_steps cols rows Hc Hr (levelRows_odd lvl)
              (fst st) g cs Hspec Hrun)
    as (g1 & g2 & H1 & H2 & H3 & H4 & H5).
  split; [exists g1, g2; repeat split; assumption|].
  split; assumption.
Qed.

Lemma exit_connection_loop_is_idle_witness :
  match generateMaze (levelCols 1) (levelRows 1)
          (SeededRandom.mk 1700000000000%float) with
  | Done st =>
      match createEntryAndExits (levelCols 1) (levelRows 1) (fst st) with
      | Done (g, cs) => connectExits (levelRows 1) cs g = Done g
      | _ => False
      end
  | _ => False
  end.
Proof.
  destruct (generateMaze (levelCols 1) (levelRows 1)
              (SeededRandom.mk 1700000000000%float)) as [st| | |] eqn:E;
    try (vm_compute in E; discriminate).
  destruct (createEntryAndExits (levelCols 1) (levelRows 1) (fst st))
    as [[g cs]| | |] eqn:E2;
    [exact (proj1 (proj2 (exit_connection_loop_is_idle 1 _ st g cs E E2)))| | |];
    pose proof (generateMaze_spec (levelCols 1) (levelRows 1)
                  ltac:(vm_compute; discriminate) ltac:(vm_compute; discriminate)
                  (levelCols_odd 1) (SeededRandom.mk 1700000000000%float)) as Hs;
    rewrite E in Hs;
    destruct (createEntryAndExits_spec (levelCols 1) (levelRows 1)
                ltac:(vm_compute; discriminate) ltac:(vm_compute; discriminate)
                (levelCols_odd 1) (levelRows_odd 1) (fst st) Hs)
      as (g' & cs' & Hr & _);
    rewrite E2 in Hr; discriminate.
Defined.

End ConnectProperties.

(* --------------------------------------------------------------------- *)
(*  ControlsManager: bounds, rest and the event handlers                 *)
(* --------------------------------------------------------------------- *)

Section ResponseFacts.
Import ControlsManager.
Local Open Scope Q_scope.
Variable cfg : Config.
Hypothesis maxTilt_pos : 0 < maxTiltAngle cfg.
Hypothesis sens_nonneg : 0 <= tiltSensitivity cfg.

Lemma clampTilt_bounds (v : Q) :
  - maxTiltAngle cfg <= clampTilt cfg v <= maxTiltAngle cfg.
Proof.
  unfold clampTilt.
  destruct (Q.min_spec (maxTiltAngle cfg) v) as [[H0 E]|[H0 E]];
    destruct (Q.max_spec (- maxTiltAngle cfg) (Qmin (maxTiltAngle cfg) v))
      as [[H1 E1]|[H1 E1]];
    rewrite E1; rewrite ?E; rewrite E in H1; lra.
Qed.

Lemma toGravity_bounds (v : Q) :
  - maxTiltAngle cfg <= v <= maxTiltAngle cfg ->
  Qabs (toGravity cfg v) <= tiltSensitivity cfg.
Proof.
  intros [Hlo Hhi]. unfold toGravity.
  assert (H1 : -(1) <= v / maxTiltAngle cfg).
  { apply Qle_shift_div_l; [exact maxTilt_pos | lra]. }
  assert (H2 : v / maxTiltAngle cfg <= 1).
  { apply Qle_shift_div_r; [exact maxTilt_pos | lra]. }
  set (u := v / maxTiltAngle cfg) in *. clearbody u.
  apply Qabs_Qle_condition. split.
  - assert (H : (-(1)) * tiltSensitivity cfg <= u * tiltSensitivity cfg)
      by (apply Qmult_le_compat_r; assumption).
    lra.
  - assert (H : u * tiltSensitivity cfg <= 1 * tiltSensitivity cfg)
      by (apply Qmult_le_compat_r; assumption).
    lra.
Qed.

Lemma axis_bounded (v : Q) :
  Qabs (toGravity cfg (clampTilt cfg (applyDeadZone cfg v)))
  <= tiltSensitivity cfg.
Proof. apply toGravity_bounds. apply clampTilt_bounds. Qed.

(* The response of one axis to the tilt [v] relative to the calibration. *)
Lemma axis_response (v : Q) :
  let out := toGravity cfg (clampTilt cfg (applyDeadZone cfg v)) in
  (Qabs v < deadZone cfg -> out == 0) /\
  (deadZone cfg <= Qabs v -> Qabs v <= maxTiltAngle cfg ->
   out == v / maxTiltAngle cfg * tiltSensitivity cfg) /\
  (deadZone cfg <= Qabs v -> maxTiltAngle cfg <= v ->
   out == tiltSensitivity cfg) /\
  (deadZone cfg <= Qabs v -> v <= - maxTiltAngle cfg ->
   out == - tiltSensitivity cfg).
Proof.
  intros out. subst out.
  assert (Hne : ~ maxTiltAngle cfg == 0) by lra.
  split; [|split; [|split]].
  - intros Hd. unfold applyDeadZone. apply Qltb_lt in Hd. rewrite Hd.
    unfold toGravity, clampTilt.
    rewrite (Q.min_r (maxTiltAngle cfg) 0) by lra.
    rewrite (Q.max_r (- maxTiltAngle cfg) 0) by lra.
    field. exact Hne.
  - intros Hd Hm. rewrite (applyDeadZone_keep cfg v Hd).
    unfold toGravity. rewrite (clampTilt_inside cfg v Hm).
    reflexivity.
  - intros Hd Hm. rewrite (applyDeadZone_keep cfg v Hd).
    unfold toGravity. rewrite (clampTilt_high cfg v maxTilt_pos Hm).
    field. exact Hne.
  - intros Hd Hm. rewrite (applyDeadZone_keep cfg v Hd).
    unfold toGravity, clampTilt.
    rewrite (Q.min_r (maxTiltAngle cfg) v) by lra.
    rewrite (Q.max_l (- maxTiltAngle cfg) v) by lra.
    field. exact Hne.
Qed.

End ResponseFacts.

Section BoxFacts.
Import ControlsManager.
Local Open Scope Q_scope.
Variable cfg : Config.








End BoxFacts.

Section RestFacts.
Import ControlsManager.
Local Open Scope Q_scope.
Variable cfg : Config.
Hypothesis smoothing_pos : 0 < smoothing cfg.
Hypothesis smoothing_le : smoothing cfg <= 1.





End RestFacts.

Section SettleFacts.
Import ControlsManager.
Local Open Scope Q_scope.
Variable cfg : Config.



Lemma update_from_zero (c : t) :
  noKeyHeld c ->
  gravity c = mkVec 0 0 -> rawGravity c = mkVec 0 0 ->
  noKeyHeld (update cfg c) /\
  gravity (update cfg c) = mkVec 0 0 /\
  rawGravity (update cfg c) = mkVec 0 0 /\
  activeMethod (update cfg c) = activeMethod c.
Proof.
  intros (Hl & Hr & Hu & Hd) Hg Hraw.
  assert (Ez : snap (0 + (0 - 0) * smoothing cfg) = 0).
  { apply snap_zero.
    assert (E : 0 + (0 - 0) * smoothing cfg == 0) by ring.
    rewrite E. reflexivity. }
  unfold update, arbitrate. rewrite Hl, Hr, Hu, Hd. cbn [orb].
  destruct (method_eqb (activeMethod c) KEYBOARD);
    unfold smooth; cbn [set_gravity set_rawGravity gravity rawGravity keys
                        activeMethod vx vy];
    rewrite ?Hg, ?Hraw; cbn [vx vy]; rewrite Ez;
    (split; [repeat split; assumption|]);
    repeat split; auto.
Qed.

End SettleFacts.

Section ControlsProperties.
Import ControlsManager.
Local Open Scope Q_scope.

(** X20. With maxTiltAngle > 0 and tiltSensitivity >= 0, an orientation
    event that has both angles makes Tilt the active source and stores a
    raw vector with |x| <= tiltSensitivity and |y| <= tiltSensitivity;
    gravity, calibration, key flags, touch state and the landscape flag
    are not touched. *)
Theorem orientation_sample_bounded :
  forall (cfg : Config) (c : t) (g b : Q),
    0 < maxTiltAngle cfg -> 0 <= tiltSensitivity cfg ->
    let c' := handleDeviceOrientation cfg (mkEvent (Some g) (Some b)) c in
    activeMethod c' = TILT /\
    Qabs (vx (rawGravity c')) <= tiltSensitivity cfg /\
    Qabs (vy (rawGravity c')) <= tiltSensitivity cfg /\
    gravity c' = gravity c /\ calibration c' = calibration c /\
    keys c' = keys c /\ touch c' = touch c /\
    isLandscape c' = isLandscape c.
Proof.
  intros cfg c g b Hm Hs c'. subst c'.
  split.
  { unfold handleDeviceOrientation. cbn [gamma beta].
    destruct (activeMethod c) eqn:E; cbn [method_eqb]; cbn; try reflexivity.
    exact E. }
  rewrite handle_rawGravity. cbn [vx vy].
  split; [apply axis_bounded; assumption|].
  split; [apply axis_bounded; assumption|].
  unfold handleDeviceOrientation. cbn [gamma beta].
  destruct (method_eqb (activeMethod c) TILT); cbn; repeat split; reflexivity.
Qed.

Lemma orientation_sample_bounded_witness :
  Qabs (vx (rawGravity (handleDeviceOrientation sampleConfig
                          (mkEvent (Some 45) (Some 10)) freshPortrait)))
  <= 1.
Proof.
  apply (orientation_sample_bounded sampleConfig freshPortrait 45 10).
  - reflexivity.
  - discriminate.
Defined.

(** X21. Per axis, with v the angle minus the calibration offset (gamma and
    beta in portrait, beta and -gamma in landscape), the raw component
    is 0 for |v| < deadZone, v/maxTiltAngle*tiltSensitivity for deadZone
    <= |v| <= maxTiltAngle, tiltSensitivity for v >= maxTiltAngle and
    -tiltSensitivity for v <= -maxTiltAngle. *)
Theorem tilt_response_curve :
  forall (cfg : Config) (c : t) (g b : Q),
    0 < maxTiltAngle cfg ->
    let c' := handleDeviceOrientation cfg (mkEvent (Some g) (Some b)) c in
    let response (v out : Q) :=
      (Qabs v < deadZone cfg -> out == 0) /\
      (deadZone cfg <= Qabs v -> Qabs v <= maxTiltAngle cfg ->
       out == v / maxTiltAngle cfg * tiltSensitivity cfg) /\
      (deadZone cfg <= Qabs v -> maxTiltAngle cfg <= v ->
       out == tiltSensitivity cfg) /\
      (deadZone cfg <= Qabs v -> v <= - maxTiltAngle cfg ->
       out == - tiltSensitivity cfg) in
    response ((if isLandscape c then b else g) - vx (calibration c))
             (vx (rawGravity c')) /\
    response ((if isLandscape c then - g else b) - vy (calibration c))
             (vy (rawGravity c')).
Proof.
  intros cfg c g b Hm c' response. subst c' response.
  rewrite handle_rawGravity. cbn [vx vy].
  split; apply axis_response; exact Hm.
Qed.

Lemma tilt_response_curve_witness :
  vx (rawGravity (handleDeviceOrientation sampleConfig
                    (mkEvent (Some 1) (Some 45)) freshPortrait)) == 0 /\
  vy (rawGravity (handleDeviceOrientation sampleConfig
                    (mkEvent (Some 1) (Some 45)) freshPortrait)) == 1.
Proof.
  destruct (tilt_response_curve sampleConfig freshPortrait 1 45 eq_refl)
    as [(Hx & _) (_ & _ & Hy & _)].
  split.
  - apply Hx. reflexivity.
  - apply Hy; discriminate.
Defined.

(** X22. update() never changes the calibration, the key flags, the touch
    state or the platform flags, and the active source stays or becomes
    Keyboard; with no key held the source is unchanged and the raw
    vector is left alone under Tilt or Touch and set to (0,0) under
    Keyboard. *)
Theorem update_writes_only_vectors_and_source :
  forall (cfg : Config) (c : t),
    let c' := update cfg c in
    calibration c' = calibration c /\ keys c' = keys c /\
    touch c' = touch c /\ isLandscape c' = isLandscape c /\
    hasTouch c' = hasTouch c /\
    hasDeviceOrientation c' = hasDeviceOrientation c /\
    initialized c' = initialized c /\
    (activeMethod c' = activeMethod c \/ activeMethod c' = KEYBOARD) /\
    (noKeyHeld c ->
     activeMethod c' = activeMethod c /\
     (activeMethod c <> KEYBOARD -> rawGravity c' = rawGravity c) /\
     (activeMethod c = KEYBOARD -> rawGravity c' = mkVec 0 0)).
Proof.
  intros cfg c c'. subst c'. unfold update, arbitrate.
  destruct (left (keys c) || right (keys c) || up (keys c) || down (keys c))%bool
    eqn:Ek.
  - destruct (activeMethod c) eqn:Ea; cbn;
      (repeat (split; [first [reflexivity | right; reflexivity | left; exact Ea]|]));
      intros (Hl & Hr & Hu & Hd); rewrite Hl, Hr, Hu, Hd in Ek; discriminate.
  - destruct (activeMethod c) eqn:Ea; cbn;
      (repeat (split; [first [reflexivity | left; exact Ea]|]));
      intros _; (split; [exact Ea|]); split; intros H;
      first [reflexivity | discriminate | congruence].
Qed.

Lemma update_writes_only_vectors_and_source_witness :
  rawGravity (update sampleConfig tiltedRight) = rawGravity tiltedRight.
Proof.
  destruct (update_writes_only_vectors_and_source sampleConfig tiltedRight)
    as (_ & _ & _ & _ & _ & _ & _ & _ & H).
  destruct H as (_ & Hraw & _).
  - repeat split; reflexivity.
  - apply Hraw. discriminate.
Defined.





(** X25. A key other than the arrows and W, A, S, D (either case) leaves the
    manager unchanged; for those keys, key-down then key-up leaves the
    key flags as key-up alone does, key-down makes Keyboard the active
    source unless Tilt is active, key-up never changes the source, and
    neither writes gravity or the raw vector. *)
Theorem key_press_and_release :
  forall (key : string) (c : t),
    (keyDirection key = None ->
     handleKeyDown key c = c /\ handleKeyUp key c = c) /\
    (keyDirection key <> None ->
     keys (handleKeyUp key (handleKeyDown key c)) = keys (handleKeyUp key c) /\
     activeMethod (handleKeyDown key c)
     = (if method_eqb (activeMethod c) TILT then TILT else KEYBOARD) /\
     activeMethod (handleKeyUp key c) = activeMethod c /\
     gravity (handleKeyDown key c) = gravity c /\
     rawGravity (handleKeyDown key c) = rawGravity c /\
     gravity (handleKeyUp key c) = gravity c /\
     rawGravity (handleKeyUp key c) = rawGravity c).
Proof.
  intros key c. unfold handleKeyDown, handleKeyUp, keyDirection.
  split.
  - intros H.
    destruct (_ || _ || _)%bool; [discriminate|].
    destruct (_ || _ || _)%bool; [discriminate|].
    destruct (_ || _ || _)%bool; [discriminate|].
    destruct (_ || _ || _)%bool; [discriminate|].
    split; reflexivity.
  - intros H.
    destruct (_ || _ || _)%bool;
      [|destruct (_ || _ || _)%bool;
        [|destruct (_ || _ || _)%bool;
          [|destruct (_ || _ || _)%bool; [|contradiction H; reflexivity]]]];
      destruct (activeMethod c) eqn:Ea; cbn; rewrite ?Ea; cbn;
      repeat split; auto.
Qed.

Lemma key_press_and_release_witness :
  keys (handleKeyUp "d" (handleKeyDown "d" freshPortrait))
  = keys (handleKeyUp "d" freshPortrait).
Proof.
  destruct (key_press_and_release "d" freshPortrait) as [_ H].
  apply H. discriminate.
Defined.



(** X27. After reset(), any number of update() calls leave gravity and the
    raw vector at exactly (0,0) and the active source unchanged, for
    every configuration. *)
Theorem reset_stays_at_zero :
  forall (cfg : Config) (c : t) (n : nat),
    let c' := updateN cfg n (reset c) in
    gravity c' = mkVec 0 0 /\ rawGravity c' = mkVec 0 0 /\
    activeMethod c' = activeMethod c.
Proof.
  intros cfg c n c'. subst c'.
  assert (H : forall c0, noKeyHeld c0 -> gravity c0 = mkVec 0 0 ->
                         rawGravity c0 = mkVec 0 0 ->
                         gravity (updateN cfg n c0) = mkVec 0 0 /\
                         rawGravity (updateN cfg n c0) = mkVec 0 0 /\
                         activeMethod (updateN cfg n c0) = activeMethod c0).
  { induction n as [|k IH]; intros c0 Hk Hg Hr; cbn [updateN].
    - repeat split; assumption.
    - destruct (update_from_zero cfg c0 Hk Hg Hr) as (Hk' & Hg' & Hr' & Ha').
      destruct (IH _ Hk' Hg' Hr') as (H1 & H2 & H3).
      rewrite Ha' in H3. repeat split; assumption. }
  apply (H (reset c)); try reflexivity.
  repeat split; reflexivity.
Qed.

End ControlsProperties.
